(** * Sporkify: the tempo playlist builder, embedded and verified

    The development follows the rolling-window, cancellation-aware version of
    the application (the single-file React app with [getTrackBPMWithGemini],
    [fetchTemposForTracksWithGemini], [filterTracksByTempo], [spGet],
    [loadPlaylists] and [findMatchingSongs]).

    Conventions of the embedding:
    - a JavaScript number that holds a tempo is the rational ([Q]) it stands
      for: the number parser rounds what it reads to a binary floating point
      number ([toDouble]), and halving and doubling are exact on such
      numbers in the range the oracle accepts, so the comparisons of the
      source are the comparisons of the rationals; the values [NaN] and
      [Infinity] appear only in the number parser and are constructors of
      [jsnum];
    - durations are natural numbers of milliseconds ([N]), as the catalog
      reports them;
    - a JavaScript object used as a dictionary is a [gmap]; the [Set] of
      promises in flight is a [gmap] from each promise to the callback
      attached to it;
    - asynchronous code is a transition system whose labels are the events
      the JavaScript event loop can deliver;
    - a function that can throw returns a sum, [inl] for the error thrown;
      the effects of a function (log lines, status updates, network calls)
      are the list of events it returns. *)

From Stdlib Require Import QArith ZArith NArith List String Ascii Bool Lia.
From Stdlib Require Import Permutation Lqa.
From stdpp Require Import gmap strings list fin_maps pretty.
Import ListNotations.

Local Open Scope string_scope.
Local Open Scope list_scope.

(** ** Tracks and match results *)

Inductive tempo_type := original | half_time | double_time.

(** The label the source stores in [tempoType]. *)
Definition tempo_type_label (ty : tempo_type) : string :=
  match ty with
  | original => "original"
  | half_time => "half-time"
  | double_time => "double-time"
  end.

(** The fields of a catalog track that the scan reads ([track_id] and
    [track_name] are the fields [id] and [name]).  [duration_ms] is [None]
    when the field is absent; [added_at] is a time stamp. *)
Record track := {
  track_id : string;
  track_name : string;
  artist : option string;
  duration_ms : option N;
  added_at : Z;
  sourcePlaylist : string
}.

(** [{...track, tempo, originalTempo, tempoType}] *)
Record trackWithTempo := {
  base : track;
  tempo : Q;
  originalTempo : Q;
  tempoType : tempo_type
}.

(** ** TempoMatcher *)

(** [x >= minBpm && x <= maxBpm] *)
Definition inRangeb (minBpm maxBpm x : Q) : bool :=
  Qle_bool minBpm x && Qle_bool x maxBpm.

Definition in_range (minBpm maxBpm x : Q) : Prop :=
  (minBpm <= x)%Q /\ (x <= maxBpm)%Q.

(** JavaScript truthiness of a number that is not [NaN]: everything but zero. *)
Definition truthy (x : Q) : bool := negb (Qeq_bool x 0).

(** The variant selection shared by [filterTracksByTempo]'s [map] callback,
    [processTrackForSelection] and the saved-tracks loop: an [if / else if]
    chain that tries the original, then the half, then the double. *)
Definition selectVariant (minBpm maxBpm bpm : Q) : Q * tempo_type :=
  if inRangeb minBpm maxBpm bpm then (bpm, original)
  else if inRangeb minBpm maxBpm (bpm / 2)%Q then ((bpm / 2)%Q, half_time)
  else if inRangeb minBpm maxBpm (bpm * 2)%Q then ((bpm * 2)%Q, double_time)
  else (bpm, original).

(** [inRange || halfTimeInRange || doubleTimeInRange] *)
Definition anyVariantInRange (minBpm maxBpm bpm : Q) : bool :=
  inRangeb minBpm maxBpm bpm
  || inRangeb minBpm maxBpm (bpm / 2)%Q
  || inRangeb minBpm maxBpm (bpm * 2)%Q.

Definition withTempo (t : track) (minBpm maxBpm bpm : Q) : trackWithTempo :=
  {| base := t;
     tempo := fst (selectVariant minBpm maxBpm bpm);
     originalTempo := bpm;
     tempoType := snd (selectVariant minBpm maxBpm bpm) |}.

(** [filterTracksByTempo(tracks, tempos, tempoRange)]: a [filter] that keeps
    the tracks with a truthy tempo one of whose variants is in range, then a
    [map] that looks the tempo up again and tags the variant.  The second
    lookup cannot miss (see [filter_keeps_resolved]); the default stands for
    JavaScript's [undefined]. *)
Definition filterTracksByTempo (tracks : list track) (tempos : gmap string Q)
    (tempoRange : Q * Q) : list trackWithTempo :=
  let '(minBpm, maxBpm) := tempoRange in
  List.map
    (fun t => withTempo t minBpm maxBpm (default 0%Q (tempos !! track_id t)))
    (List.filter
       (fun t =>
          match tempos !! track_id t with
          | None => false
          | Some tempo =>
              if truthy tempo then anyVariantInRange minBpm maxBpm tempo
              else false
          end)
       tracks).

(** ** The scan session of [findMatchingSongs] *)

(** The mutable locals of the background task that both accept paths
    update. *)
Record session := {
  targetDurationMs : N;
  currentDurationMs : N;
  selectedTracks : list trackWithTempo
}.

(** [track.duration_ms || 0] *)
Definition durationOrZero (t : track) : N := default 0%N (duration_ms t).

Definition accept (s : session) (r : trackWithTempo) : session :=
  {| targetDurationMs := targetDurationMs s;
     currentDurationMs := currentDurationMs s + durationOrZero (base r);
     selectedTracks := selectedTracks s ++ [r] |}.

(** [processTrackForSelection(track, bpm)]: [bpm] is [None] for [null] and
    [undefined].  Returns the value of the call and the session after it. *)
Definition processTrackForSelection (minTempo maxTempo : Q) (s : session)
    (t : track) (bpm : option Q) : bool * session :=
  if (targetDurationMs s <=? currentDurationMs s)%N then (false, s)
  else
    match bpm with
    | None => (false, s)
    | Some bpm =>
        if anyVariantInRange minTempo maxTempo bpm then
          let s' := accept s (withTempo t minTempo maxTempo bpm) in
          ((targetDurationMs s' <=? currentDurationMs s')%N, s')
        else (false, s)
    end.

(** The matcher in the words of the specification, for comparison with the
    code: the three candidates are tried in the order original, half,
    double; the first one in the inclusive range is reported with its tag;
    there is no result when none is in range. *)
Inductive TempoMatcher_spec (minBpm maxBpm t : Q) : option (Q * tempo_type) -> Prop :=
  | match_original :
      in_range minBpm maxBpm t ->
      TempoMatcher_spec minBpm maxBpm t (Some (t, original))
  | match_half_time :
      ~ in_range minBpm maxBpm t ->
      in_range minBpm maxBpm (t / 2)%Q ->
      TempoMatcher_spec minBpm maxBpm t (Some ((t / 2)%Q, half_time))
  | match_double_time :
      ~ in_range minBpm maxBpm t ->
      ~ in_range minBpm maxBpm (t / 2)%Q ->
      in_range minBpm maxBpm (t * 2)%Q ->
      TempoMatcher_spec minBpm maxBpm t (Some ((t * 2)%Q, double_time))
  | match_none :
      ~ in_range minBpm maxBpm t ->
      ~ in_range minBpm maxBpm (t / 2)%Q ->
      ~ in_range minBpm maxBpm (t * 2)%Q ->
      TempoMatcher_spec minBpm maxBpm t None.

(** The match results a matcher answer [r] stands for: one record carrying
    the display tempo, the tag and the raw tempo, or nothing. *)
Definition matchResults (trk : track) (t : Q) (r : option (Q * tempo_type))
    : list trackWithTempo :=
  match r with
  | Some (display, ty) =>
      [ {| base := trk; tempo := display; originalTempo := t; tempoType := ty |} ]
  | None => []
  end.

(** The answer the code's decision and variant selection give for one tempo:
    [anyVariantInRange] is the guard, [selectVariant] the tag. *)
Definition matcherAnswer (minBpm maxBpm t : Q) : option (Q * tempo_type) :=
  if anyVariantInRange minBpm maxBpm t then Some (selectVariant minBpm maxBpm t)
  else None.

(** A sample track, used to run the definitions on concrete inputs. *)
Definition sampleTrack (i : string) (d : N) : track :=
  {| track_id := i; track_name := String.append "song " i; artist := Some "artist";
     duration_ms := Some d; added_at := 0; sourcePlaylist := "mix" |}.

Definition freshSession (target : N) : session :=
  {| targetDurationMs := target; currentDurationMs := 0; selectedTracks := [] |}.

Definition exactly_one (a b c : Prop) : Prop :=
  (a /\ ~ b /\ ~ c) \/ (~ a /\ b /\ ~ c) \/ (~ a /\ ~ b /\ c).

(** What holds of a match result [r] produced for the range
    [[minBpm, maxBpm]]: some candidate derived from its raw tempo is in
    range, the display tempo is in range, and the candidate in range is
    unique when the range is narrower than an octave. *)
Definition matchResultSound (minBpm maxBpm : Q) (r : trackWithTempo) : Prop :=
  let t := originalTempo r in
  (in_range minBpm maxBpm t \/ in_range minBpm maxBpm (t / 2)%Q
   \/ in_range minBpm maxBpm (t * 2)%Q) /\
  in_range minBpm maxBpm (tempo r) /\
  ((0 < t)%Q -> (maxBpm < 2 * minBpm)%Q ->
   exactly_one (in_range minBpm maxBpm t) (in_range minBpm maxBpm (t / 2)%Q)
     (in_range minBpm maxBpm (t * 2)%Q)).

(** ** DurationTargetAssembler: the accept paths of [findMatchingSongs] *)

(** [new Date(b.added_at) - new Date(a.added_at)] is positive, so [a] moves
    behind [b], when [b] is more recent. *)
Fixpoint insertByMostRecent (x : trackWithTempo) (l : list trackWithTempo)
    : list trackWithTempo :=
  match l with
  | [] => [x]
  | y :: l' =>
      if (added_at (base x) <? added_at (base y))%Z
      then y :: insertByMostRecent x l'
      else x :: y :: l'
  end.

(** [selectedTracks.sort((a, b) => new Date(b.added_at) - new Date(a.added_at))],
    a stable sort, most recent first. *)
Definition sortByMostRecent (l : list trackWithTempo) : list trackWithTempo :=
  fold_right insertByMostRecent [] l.

(** [{...track, ..., sourcePlaylist: "Saved Tracks"}] *)
Definition fromSavedTracks (t : track) : track :=
  {| track_id := track_id t; track_name := track_name t; artist := artist t;
     duration_ms := duration_ms t; added_at := added_at t;
     sourcePlaylist := "Saved Tracks" |}.

Definition withTempoSaved (t : track) (minBpm maxBpm bpm : Q) : trackWithTempo :=
  {| base := fromSavedTracks t;
     tempo := fst (selectVariant minBpm maxBpm bpm);
     originalTempo := bpm;
     tempoType := snd (selectVariant minBpm maxBpm bpm) |}.

Definition targetReached (s : session) : bool :=
  (targetDurationMs s <=? currentDurationMs s)%N.

(** The [for (const track of uniqueSavedTracks)] loop of the secondary
    phase, with its two [break]s. *)
Fixpoint savedTracksLoop (minTempo maxTempo : Q) (savedTempos : gmap string Q)
    (uniqueSavedTracks : list track) (s : session) : session :=
  match uniqueSavedTracks with
  | [] => s
  | t :: rest =>
      if targetReached s then s
      else
        match savedTempos !! track_id t with
        | None => savedTracksLoop minTempo maxTempo savedTempos rest s
        | Some bpm =>
            if anyVariantInRange minTempo maxTempo bpm then
              let s' := accept s (withTempoSaved t minTempo maxTempo bpm) in
              if targetReached s' then s'
              else savedTracksLoop minTempo maxTempo savedTempos rest s'
            else savedTracksLoop minTempo maxTempo savedTempos rest s
        end
  end.

(** What happens to the session during one scan.  Estimates of the primary
    phase settle in any order and may still arrive after the selection was
    sorted, so a scan is an arbitrary sequence of these events. *)
Inductive session_event :=
  | PrimaryEstimate (t : track) (bpm : option Q)
  | SortSelection
  | SavedTracksScan (savedTempos : gmap string Q) (uniqueSavedTracks : list track).

Definition applyEvent (minTempo maxTempo : Q) (s : session) (e : session_event)
    : session :=
  match e with
  | PrimaryEstimate t bpm => snd (processTrackForSelection minTempo maxTempo s t bpm)
  | SortSelection =>
      {| targetDurationMs := targetDurationMs s;
         currentDurationMs := currentDurationMs s;
         selectedTracks := sortByMostRecent (selectedTracks s) |}
  | SavedTracksScan savedTempos tracks =>
      savedTracksLoop minTempo maxTempo savedTempos tracks s
  end.

Definition runSession (minTempo maxTempo : Q) (s : session)
    (evs : list session_event) : session :=
  fold_left (applyEvent minTempo maxTempo) evs s.

(** [selection.reduce((sum, t) => sum + (t.duration_ms || 0), 0)] *)
Definition totalDuration (l : list trackWithTempo) : N :=
  fold_right (fun r acc => (durationOrZero (base r) + acc)%N) 0%N l.

(** The invariant of the session: the counter is the sum over the
    selection. *)
Definition durationInvariant (s : session) : Prop :=
  currentDurationMs s = totalDuration (selectedTracks s).

From Stdlib Require Qcanon.

(** ** JavaScript numbers and the number parser of the oracle client *)

(** The values [parseFloat] can produce. *)
Inductive jsnum :=
  | NaN
  | Infinity (negative : bool)
  | Finite (q : Q).

Definition isNaN (x : jsnum) : bool :=
  match x with NaN => true | _ => false end.

Definition Qltb (x y : Q) : bool := negb (Qle_bool y x).

(** [x > 0] and [x < 300] on a JavaScript number: false on [NaN]. *)
Definition gtZero (x : jsnum) : bool :=
  match x with
  | NaN => false
  | Infinity negative => negb negative
  | Finite q => Qltb 0 q
  end.

Definition ltThreeHundred (x : jsnum) : bool :=
  match x with
  | NaN => false
  | Infinity negative => negative
  | Finite q => Qltb q 300
  end.

(** [!isNaN(bpm) && bpm > 0 && bpm < 300] *)
Definition validBpm (bpm : jsnum) : bool :=
  negb (isNaN bpm) && gtZero bpm && ltThreeHundred bpm.

(** The number a valid [bpm] is: the value [return bpm] hands to the
    caller. *)
Definition validValue (bpm : jsnum) : option Q :=
  match bpm with
  | Finite q => if validBpm bpm then Some q else None
  | _ => None
  end.

Definition isDigit (c : ascii) : bool :=
  let n := nat_of_ascii c in (48 <=? n)%nat && (n <=? 57)%nat.

(** White space as [trim] and [parseFloat] skip it, on ASCII text: space,
    tab, line feed, vertical tab, form feed, carriage return. *)
Definition isWhiteSpace (c : ascii) : bool :=
  let n := nat_of_ascii c in (n =? 32)%nat || ((9 <=? n)%nat && (n <=? 13)%nat).

Fixpoint trimStart (s : string) : string :=
  match s with
  | String c rest => if isWhiteSpace c then trimStart rest else s
  | EmptyString => EmptyString
  end.

Definition reverse (s : string) : string :=
  string_of_list_ascii (List.rev (list_ascii_of_string s)).

Definition trim (s : string) : string :=
  reverse (trimStart (reverse (trimStart s))).

(** The longest prefix of digits, and what follows it. *)
Fixpoint takeDigits (s : string) : string * string :=
  match s with
  | String c rest =>
      if isDigit c then
        let '(ds, tl) := takeDigits rest in (String c ds, tl)
      else (EmptyString, s)
  | EmptyString => (EmptyString, EmptyString)
  end.

Fixpoint digitsValue (acc : Z) (ds : string) : Z :=
  match ds with
  | String c rest => digitsValue (10 * acc + (Z.of_nat (nat_of_ascii c) - 48)) rest
  | EmptyString => acc
  end.

(** The mathematical value of the decimal literal [ip.fp], before it is
    rounded to a number. *)
Definition decimalValue (ip fp : string) : Q :=
  Qmake (digitsValue 0 (String.append ip fp))
        (Z.to_pos (10 ^ Z.of_nat (String.length fp))).

(** [bpmText.match] with the regular expression for one or more digits, an
    optional dot and any number of digits: the leftmost match, each part
    greedy; the result is the matched text, [decimalMatch[1]]. *)
Fixpoint matchDecimal (s : string) : option string :=
  match s with
  | EmptyString => None
  | String c rest =>
      if isDigit c then
        let '(ip, afterInt) := takeDigits s in
        match afterInt with
        | String "."%char afterDot =>
            let '(fp, _) := takeDigits afterDot in
            Some (String.append ip (String "."%char fp))
        | _ => Some ip
        end
      else matchDecimal rest
  end.

(** An optional sign: whether it is a minus, and the rest. *)
Definition takeSign (s : string) : bool * string :=
  match s with
  | String "-"%char rest => (true, rest)
  | String "+"%char rest => (false, rest)
  | _ => (false, s)
  end.

(** *** Rounding to a number

    A JavaScript number is an IEEE 754 binary64 value: 53 significant bits,
    the unit in the last place no smaller than 2^-1074, and everything from
    2^1024 - 2^970 on rounds to an infinity.  A finite number is the
    rational it stands for, in lowest terms. *)

(** The binade of the positive rational [n / d]: the [e] with
    [2^e <= n / d < 2^(e+1)]. *)
Definition binade (n d : positive) : Z :=
  let e0 := (Z.log2 (Zpos n) - Z.log2 (Zpos d))%Z in
  if (Zpos n * 2 ^ Z.max 0 (- e0) <? Zpos d * 2 ^ Z.max 0 e0)%Z
  then (e0 - 1)%Z else e0.

(** The integer nearest to [num / den], the even one of the two when
    [num / den] is half way between them. *)
Definition roundHalfEven (num den : Z) : Z :=
  let m := (num / den)%Z in
  let r := (num mod den)%Z in
  if (2 * r <? den)%Z then m
  else if (den <? 2 * r)%Z then (m + 1)%Z
  else if Z.even m then m else (m + 1)%Z.

(** The number nearest to the positive rational [n / d]: [ulp] is the
    exponent of the unit in the last place, [m] the significand. *)
Definition nearestDouble (n d : positive) : jsnum :=
  let ulp := Z.max (binade n d - 52) (-1074) in
  let m := roundHalfEven (Zpos n * 2 ^ Z.max 0 (- ulp)) (Zpos d * 2 ^ Z.max 0 ulp) in
  if (0 <=? ulp)%Z && (2 ^ 1024 <=? m * 2 ^ ulp)%Z then Infinity false
  else Finite (Qred (Qmake (m * 2 ^ Z.max 0 ulp) (Z.to_pos (2 ^ Z.max 0 (- ulp))))).

(** [-x] on a JavaScript number. *)
Definition negate (x : jsnum) : jsnum :=
  match x with
  | NaN => NaN
  | Infinity negative => Infinity (negb negative)
  | Finite q => Finite (Qopp q)
  end.

(** The number for the mathematical value [x]: round to nearest, ties to
    even, as the engines do it for a literal of any length. *)
Definition toDouble (x : Q) : jsnum :=
  match Qnum x with
  | Z0 => Finite 0
  | Zpos n => nearestDouble n (Qden x)
  | Zneg n => negate (nearestDouble n (Qden x))
  end.

(** [parseFloat(s)]: leading white space is skipped, then the longest prefix
    that is a decimal literal (sign, [Infinity], digits with an optional
    fraction and an optional exponent) is read, and its mathematical value
    is rounded to a number; [NaN] when there is no such prefix. *)
Definition parseFloat (s : string) : jsnum :=
  let '(negative, body) := takeSign (trimStart s) in
  if String.prefix "Infinity" body then Infinity negative
  else
    let '(ip, afterInt) := takeDigits body in
    let '(fp, afterFrac) :=
      match afterInt with
      | String "."%char afterDot => takeDigits afterDot
      | _ => (EmptyString, afterInt)
      end in
    match ip, fp with
    | EmptyString, EmptyString => NaN
    | _, _ =>
        let mantissa := decimalValue ip fp in
        let exponent :=
          match afterFrac with
          | String e afterE =>
              if (nat_of_ascii e =? 101)%nat || (nat_of_ascii e =? 69)%nat then
                let '(eneg, afterSign) := takeSign afterE in
                let '(ed, _) := takeDigits afterSign in
                match ed with
                | EmptyString => 0%Z
                | _ => if eneg then (- digitsValue 0 ed)%Z else digitsValue 0 ed
                end
              else 0%Z
          | EmptyString => 0%Z
          end in
        let number := toDouble (mantissa * Qpower 10 exponent)%Q in
        if negative then negate number else number
    end.

(** ** TempoOracleClient: [getTrackBPMWithGemini] *)

Inductive tier := PRIMARY | SECONDARY | TERTIARY.

Definition tierName (t : tier) : string :=
  match t with
  | PRIMARY => "PRIMARY"
  | SECONDARY => "SECONDARY"
  | TERTIARY => "TERTIARY"
  end.

Definition modelName (t : tier) : string :=
  match t with
  | PRIMARY => "gemini-2.5-flash-lite"
  | SECONDARY => "gemini-2.0-flash"
  | TERTIARY => "gemini-2.5-flash"
  end.

(** What the function reads of [result.response]: [responseText] is the
    value of [text()], [None] when the call throws; [candidateText] is the
    text of the first part of the first candidate, [None] when some link of
    the optional chain is missing; the grounding lists are the ones
    [extractBPMData] collects from the grounding metadata. *)
Record response := {
  responseText : option string;
  candidateText : option string;
  groundingSources : list string;
  groundingQueries : list string
}.

(** What one [generateContent] call does: it rejects (a transport fault, a
    timeout), or fulfils with a result, which is [None] when the result or
    its [response] is missing. *)
Inductive call_outcome :=
  | Rejected (message : string)
  | Fulfilled (result : option response).

(** The places where the function reads [abortSignal?.aborted]. *)
Inductive checkpoint :=
  | BeforeStart
  | BeforeTier (t : tier)
  | AfterCall (t : tier).

(** The arguments and the outside world of one call.  [abortSignal] is
    [None] for [null]; otherwise it tells what [aborted] reads at each
    check.  [hasGeminiLog] and [hasLiveStatus] tell whether the callbacks
    [addGeminiLog] and [updateLiveStatus] were passed. *)
Record oracle_env := {
  geminiApiKey : string;
  hasGeminiLog : bool;
  hasLiveStatus : bool;
  abortSignal : option (checkpoint -> bool);
  generateContent : tier -> call_outcome
}.

Definition aborted (env : oracle_env) (c : checkpoint) : bool :=
  match abortSignal env with
  | None => false
  | Some signal => signal c
  end.

(** The fields one [updateLiveStatus] call sets; [None] leaves a field
    alone. *)
Record status_update := {
  primary : option string;
  secondary : option string;
  tertiary : option string;
  finalBPM : option (option Q)
}.

Record gemini_log_entry := {
  rawResponse : string;
  parsedBPM : option jsnum;
  valid : bool;
  logSources : list string;
  logQueries : list string;
  grounded : bool;
  logTier : string;
  fallback : bool;
  isError : bool
}.

(** The observable effects of a call, in the order they happen.
    [TierFailed] is the [console.error] of a tier's [catch] block,
    [AllTiersFailed] the one after the third tier, [InvalidBpm] the
    [console.log] of a tier whose answer was not a valid tempo.  The purely
    informative [console.log] lines are left out. *)
Inductive event :=
  | LiveStatus (u : status_update)
  | ApiCall (t : tier)
  | GeminiLog (e : gemini_log_entry)
  | InvalidBpm (t : tier) (bpmText : string)
  | TierFailed (t : tier) (message : string)
  | AllTiersFailed.

Record bpm_data := {
  bpmText : string;
  bpm : jsnum;
  sources : list string;
  searchQueries : list string
}.

(** [text()?.trim() || ""], with the fallback to the first candidate when
    [text()] throws. *)
Definition readText (r : response) : string :=
  match responseText r with
  | Some s => trim s
  | None =>
      match candidateText r with
      | Some s => trim s
      | None => EmptyString
      end
  end.

(** [extractBPMData(result, modelName, tier)]: [inl] is a thrown error. *)
Definition extractBPMData (result : option response) (model : string)
    : string + bpm_data :=
  match result with
  | None => inl (String.append "No response from " model)
  | Some r =>
      match readText r with
      | EmptyString =>
          inl (String.append "Empty response from "
                 (String.append model " - possible content filtering"))
      | text =>
          let first :=
            match matchDecimal text with
            | Some m => Some (parseFloat m)
            | None => None
            end in
          let value :=
            match first with
            | Some (Finite q) => Finite q
            | Some (Infinity n) => Infinity n
            | Some NaN | None => parseFloat text
            end in
          inr {| bpmText := text; bpm := value;
                 sources := groundingSources r;
                 searchQueries := groundingQueries r |}
      end
  end.

Definition statusUpdate (env : oracle_env) (u : status_update) : list event :=
  if hasLiveStatus env then [LiveStatus u] else [].

Definition geminiLog (env : oracle_env) (e : gemini_log_entry) : list event :=
  if hasGeminiLog env then [GeminiLog e] else [].

Definition noUpdate : status_update :=
  {| primary := None; secondary := None; tertiary := None; finalBPM := None |}.

(** The update that sets the field of tier [t] to [v]. *)
Definition setTier (t : tier) (v : string) (u : status_update) : status_update :=
  match t with
  | PRIMARY =>
      {| primary := Some v; secondary := secondary u; tertiary := tertiary u;
         finalBPM := finalBPM u |}
  | SECONDARY =>
      {| primary := primary u; secondary := Some v; tertiary := tertiary u;
         finalBPM := finalBPM u |}
  | TERTIARY =>
      {| primary := primary u; secondary := secondary u; tertiary := Some v;
         finalBPM := finalBPM u |}
  end.

Definition setFinal (v : option Q) (u : status_update) : status_update :=
  {| primary := primary u; secondary := secondary u; tertiary := tertiary u;
     finalBPM := Some v |}.

(** The status written when tier [t] succeeds with [q]: the later tiers are
    marked skipped. *)
Definition successUpdate (t : tier) (q : Q) : status_update :=
  match t with
  | PRIMARY =>
      setFinal (Some q)
        (setTier PRIMARY "success"
           (setTier SECONDARY "skipped" (setTier TERTIARY "skipped" noUpdate)))
  | SECONDARY =>
      setFinal (Some q)
        (setTier SECONDARY "success" (setTier TERTIARY "skipped" noUpdate))
  | TERTIARY => setFinal (Some q) (setTier TERTIARY "success" noUpdate)
  end.

(** The status written when tier [t] ends with [v] ("failed" after an
    invalid answer, "error" in the [catch] block): the next tier is marked
    running, and after the last tier the final tempo is cleared. *)
Definition failureUpdate (t : tier) (v : string) : status_update :=
  match t with
  | PRIMARY => setTier PRIMARY v (setTier SECONDARY "running" noUpdate)
  | SECONDARY => setTier SECONDARY v (setTier TERTIARY "running" noUpdate)
  | TERTIARY => setFinal None (setTier TERTIARY v noUpdate)
  end.

(** The entry a tier writes with [addGeminiLog]; the fallback tiers prefix
    the raw response with their name. *)
Definition tierLogEntry (t : tier) (d : bpm_data) : gemini_log_entry :=
  {| rawResponse :=
       match t with
       | PRIMARY => bpmText d
       | _ => String.append (tierName t) (String.append ": " (bpmText d))
       end;
     parsedBPM := Some (bpm d);
     valid := validBpm (bpm d);
     logSources := firstn 3 (sources d);
     logQueries := firstn 2 (searchQueries d);
     grounded := negb (Nat.eqb (List.length (sources d)) 0);
     logTier := tierName t;
     fallback := match t with PRIMARY => false | _ => true end;
     isError := false |}.

Definition allFailedLogEntry : gemini_log_entry :=
  {| rawResponse := "ERROR: All three tiers failed";
     parsedBPM := None;
     valid := false;
     logSources := [];
     logQueries := [];
     grounded := false;
     logTier := "ALL FAILED";
     fallback := false;
     isError := true |}.

(** The body of the [try] block of tier [t]: the effects so far, and either
    the thrown error ([inl]) or the end of the block ([inr]): [Some q] for
    [return bpm], [None] when the block ends after an invalid answer. *)
Definition tierBody (env : oracle_env) (t : tier) : list event * (string + option Q) :=
  if aborted env (BeforeTier t) then
    ([], inl (String.append "Request cancelled during "
                (String.append (tierName t) " tier")))
  else
    let sent := statusUpdate env (setTier t "sending..." noUpdate) ++ [ApiCall t] in
    match generateContent env t with
    | Rejected message => (sent, inl message)
    | Fulfilled result =>
        let received :=
          sent ++ statusUpdate env (setTier t "processing..." noUpdate) in
        if aborted env (AfterCall t) then
          (received, inl (String.append "Request cancelled after "
                            (String.append (tierName t) " API call")))
        else
          match extractBPMData result (modelName t) with
          | inl message => (received, inl message)
          | inr d =>
              let logged := received ++ geminiLog env (tierLogEntry t d) in
              match validValue (bpm d) with
              | Some q => (logged ++ statusUpdate env (successUpdate t q), inr (Some q))
              | None =>
                  (logged ++ [InvalidBpm t (bpmText d)]
                     ++ statusUpdate env (failureUpdate t "failed"),
                   inr None)
              end
          end
    end.

(** One tier with its [catch] block: [Some q] when the tier returned [q] to
    the caller, [None] when control goes on to the code after the block. *)
Definition tryTier (env : oracle_env) (t : tier) : list event * option Q :=
  match tierBody env t with
  | (evs, inr r) => (evs, r)
  | (evs, inl message) =>
      (evs ++ [TierFailed t message] ++ statusUpdate env (failureUpdate t "error"),
       None)
  end.

Definition initialStatus : status_update :=
  {| primary := Some "running"; secondary := Some "pending";
     tertiary := Some "pending"; finalBPM := Some None |}.

(** [getTrackBPMWithGemini]: the effects, and [inl message] when the call
    throws to its caller, [inr (Some bpm)] when it returns a tempo,
    [inr None] when it returns [null]. *)
Definition getTrackBPMWithGemini (env : oracle_env)
    : list event * (string + option Q) :=
  match geminiApiKey env with
  | EmptyString => ([], inl "Gemini API key is required")
  | _ =>
      if aborted env BeforeStart then ([], inl "Request cancelled before starting")
      else
        let ev0 := statusUpdate env initialStatus in
        match tryTier env PRIMARY with
        | (ev1, Some q) => (ev0 ++ ev1, inr (Some q))
        | (ev1, None) =>
            match tryTier env SECONDARY with
            | (ev2, Some q) => (ev0 ++ ev1 ++ ev2, inr (Some q))
            | (ev2, None) =>
                match tryTier env TERTIARY with
                | (ev3, Some q) => (ev0 ++ ev1 ++ ev2 ++ ev3, inr (Some q))
                | (ev3, None) =>
                    (ev0 ++ ev1 ++ ev2 ++ ev3 ++ [AllTiersFailed]
                       ++ statusUpdate env (setFinal None noUpdate)
                       ++ geminiLog env allFailedLogEntry,
                     inr None)
                end
            end
        end
  end.

(** [error.message.includes(needle)] *)
Definition includes (needle message : string) : bool :=
  match String.index 0 needle message with
  | Some _ => true
  | None => false
  end.

(** The object a [processTrack] promise of the scheduler fulfils with. *)
Record track_result := {
  trackId : string;
  resultBpm : option Q;
  cancelled : bool
}.

(** The [processTrack] closure of [fetchTemposForTracksWithGemini]: the
    result object, and the dictionary [tempos] after the call. *)
Definition processTrack (env : oracle_env) (t : track) (tempos : gmap string Q)
    : track_result * gmap string Q :=
  match snd (getTrackBPMWithGemini env) with
  | inr (Some q) =>
      ({| trackId := track_id t; resultBpm := Some q; cancelled := false |},
       <[track_id t := q]> tempos)
  | inr None =>
      ({| trackId := track_id t; resultBpm := None; cancelled := false |}, tempos)
  | inl message =>
      ({| trackId := track_id t; resultBpm := None;
          cancelled := includes "cancelled" message |}, tempos)
  end.

(** The tiers whose [generateContent] was called, in order. *)
Definition apiCalls (evs : list event) : list tier :=
  omap (fun e => match e with ApiCall t => Some t | _ => None end) evs.

(** The failures recorded by the [catch] blocks, in order. *)
Definition tierFailures (evs : list event) : list (tier * string) :=
  omap (fun e => match e with TierFailed t m => Some (t, m) | _ => None end) evs.

(** The live-status records that mark a tier as "error". *)
Definition statusErrors (evs : list event) : list status_update :=
  omap (fun e =>
          match e with
          | LiveStatus u =>
              if bool_decide (primary u = Some "error"
                              \/ secondary u = Some "error"
                              \/ tertiary u = Some "error")
              then Some u else None
          | _ => None
          end) evs.

(** What the call of tier [t] is worth by itself: the valid tempo read from
    its answer, if there is one. *)
Definition answerValue (env : oracle_env) (t : tier) : option Q :=
  match generateContent env t with
  | Rejected _ => None
  | Fulfilled result =>
      match extractBPMData result (modelName t) with
      | inl _ => None
      | inr d => validValue (bpm d)
      end
  end.

Definition textResponse (s : string) : call_outcome :=
  Fulfilled (Some {| responseText := Some s; candidateText := None;
                     groundingSources := []; groundingQueries := [] |}).

(** Scenario B: the first tier answers "unknown", the second "128 BPM"; the
    third tier's behaviour is left open. *)
Definition scenarioB (third : call_outcome) : oracle_env :=
  {| geminiApiKey := "key";
     hasGeminiLog := true;
     hasLiveStatus := true;
     abortSignal := None;
     generateContent := fun t =>
       match t with
       | PRIMARY => textResponse "unknown"
       | SECONDARY => textResponse "128 BPM"
       | TERTIARY => third
       end |}.

(** Scenario C: every tier's call rejects with a transport error. *)
Definition scenarioC : oracle_env :=
  {| geminiApiKey := "key";
     hasGeminiLog := true;
     hasLiveStatus := true;
     abortSignal := None;
     generateContent := fun t => Rejected "fetch failed" |}.

(** The user cancels while the first tier's call is in flight: the signal
    reads false before the call and true at every later check.  Every tier
    would answer "128". *)
Definition cancelledDuringFirstCall : oracle_env :=
  {| geminiApiKey := "key";
     hasGeminiLog := true;
     hasLiveStatus := true;
     abortSignal := Some (fun c =>
       match c with
       | BeforeStart | BeforeTier PRIMARY => false
       | _ => true
       end);
     generateContent := fun t => textResponse "128" |}.

(** The user cancelled before the call started. *)
Definition cancelledBeforeStart : oracle_env :=
  {| geminiApiKey := "key";
     hasGeminiLog := true;
     hasLiveStatus := true;
     abortSignal := Some (fun c => true);
     generateContent := fun t => textResponse "128" |}.

(** ** ConcurrentScanScheduler: [fetchTemposForTracksWithGemini] *)

Definition maxConcurrent : nat := 30.

(** What the [finally] callback attached to a promise does after removing
    the promise from [activePromises]: the callback attached in the initial
    loop starts the next track, the one attached to a promise started by
    such a callback only removes. *)
Inductive on_settle := StartNext | DeleteOnly.

#[global] Instance on_settle_eq_dec : EqDecision on_settle.
Proof. solve_decision. Defined.

(** The state of one call.  A promise is named by the index of its track;
    [activePromises] holds the promises in flight, each with its [finally]
    callback; [started] lists the indices [processTrack] was called on, in
    order; [returned] tells whether the function has returned [tempos]. *)
Record scheduler := {
  currentIndex : nat;
  activePromises : gmap nat on_settle;
  started : list nat;
  signalAborted : bool;
  returned : bool
}.

(** [processTrack(tracks[currentIndex], currentIndex)], [activePromises.add],
    [currentIndex++], and the [finally] callback [k]. *)
Definition startNextTrack (k : on_settle) (s : scheduler) : scheduler :=
  {| currentIndex := S (currentIndex s);
     activePromises := <[currentIndex s := k]> (activePromises s);
     started := started s ++ [currentIndex s];
     signalAborted := signalAborted s;
     returned := returned s |}.

(** The loop "Start initial batch"; every iteration that does not leave the
    loop starts one track, so [fuel] iterations are enough when [fuel] is
    the number of tracks. *)
Fixpoint initialBatch (fuel : nat) (tracksLength : nat) (s : scheduler) : scheduler :=
  match fuel with
  | O => s
  | S fuel' =>
      if (currentIndex s <? tracksLength)%nat
         && (size (activePromises s) <? maxConcurrent)%nat
      then
        if signalAborted s then s
        else initialBatch fuel' tracksLength (startNextTrack StartNext s)
      else s
  end.

(** The loop condition [activePromises.size > 0 && !aborted] of the final
    wait. *)
Definition keepsWaiting (s : scheduler) : bool :=
  (0 <? size (activePromises s))%nat && negb (signalAborted s).

(** The function up to its first suspension: the early return on an empty
    list, the initial loop, and the first test of the waiting loop. *)
Definition startScheduler (tracksLength : nat) (abortedAtStart : bool) : scheduler :=
  let s0 := {| currentIndex := 0; activePromises := ∅; started := [];
               signalAborted := abortedAtStart; returned := false |} in
  match tracksLength with
  | O => {| currentIndex := 0; activePromises := ∅; started := [];
            signalAborted := abortedAtStart; returned := true |}
  | _ =>
      let s := initialBatch tracksLength tracksLength s0 in
      {| currentIndex := currentIndex s; activePromises := activePromises s;
         started := started s; signalAborted := signalAborted s;
         returned := negb (keepsWaiting s) |}
  end.

(** What the event loop can deliver afterwards: a promise in flight
    settles and its [finally] callback runs; the user aborts; the waiting
    loop wakes up and tests its condition. *)
Inductive sched_event :=
  | Settle (p : nat)
  | UserAbort
  | Wake.

Definition setActive (m : gmap nat on_settle) (s : scheduler) : scheduler :=
  {| currentIndex := currentIndex s; activePromises := m; started := started s;
     signalAborted := signalAborted s; returned := returned s |}.

(** One event; [None] when the event cannot happen in this state (a promise
    that is not in flight cannot settle). *)
Definition schedStep (tracksLength : nat) (s : scheduler) (e : sched_event)
    : option scheduler :=
  match e with
  | Settle p =>
      match activePromises s !! p with
      | None => None
      | Some k =>
          let s1 := setActive (delete p (activePromises s)) s in
          match k with
          | DeleteOnly => Some s1
          | StartNext =>
              if (currentIndex s1 <? tracksLength)%nat && negb (signalAborted s1)
              then Some (startNextTrack DeleteOnly s1)
              else Some s1
          end
      end
  | UserAbort =>
      Some {| currentIndex := currentIndex s; activePromises := activePromises s;
              started := started s; signalAborted := true; returned := returned s |}
  | Wake =>
      if returned s then Some s
      else
        Some {| currentIndex := currentIndex s; activePromises := activePromises s;
                started := started s; signalAborted := signalAborted s;
                returned := negb (keepsWaiting s) |}
  end.

Fixpoint schedRun (tracksLength : nat) (s : scheduler) (evs : list sched_event)
    : option scheduler :=
  match evs with
  | [] => Some s
  | e :: evs' =>
      match schedStep tracksLength s e with
      | Some s' => schedRun tracksLength s' evs'
      | None => None
      end
  end.

(** The number of promises in flight whose callback starts another track. *)
Definition refillers (m : gmap nat on_settle) : nat :=
  size (filter (fun kv => kv.2 = StartNext) m).

(** The events "promise [lo] settles, ..., promise [lo + count - 1]
    settles". *)
Definition settleRange (lo count : nat) : list sched_event :=
  List.map Settle (seq lo count).

(** What holds while the initial loop runs: the promises in flight are the
    tracks started so far. *)
Definition batchInvariant (tracksLength : nat) (s : scheduler) : Prop :=
  size (activePromises s) = currentIndex s /\
  currentIndex s <= maxConcurrent /\
  currentIndex s <= tracksLength /\
  (forall p, currentIndex s <= p -> activePromises s !! p = None) /\
  started s = seq 0 (currentIndex s).

(** What holds in every state the scheduler reaches. *)
Definition schedInvariant (s : scheduler) : Prop :=
  size (activePromises s) <= maxConcurrent /\
  currentIndex s + refillers (activePromises s) <= 2 * maxConcurrent /\
  started s = seq 0 (currentIndex s) /\
  (returned s = true -> signalAborted s = false -> activePromises s = ∅).

(** ** RateLimitedCatalogClient: [spGet], [spPost] and the paginated listings *)

(** What a [fetch] of the catalog API gives: a network failure, or a
    response with its status, its [Retry-After] header in seconds when
    there is one, and its body. *)
Record http_response := {
  status : nat;
  retryAfter : option nat;
  body : string
}.

Inductive fetch_outcome :=
  | NetworkError (message : string)
  | Response (r : http_response).

(** [res.ok] *)
Definition ok (r : http_response) : bool :=
  (200 <=? status r)%nat && (status r <=? 299)%nat.

(** What a call of [refreshSpotifyToken] meets at the token endpoint. *)
Inductive refresh_outcome :=
  | RefreshOk
  | RefreshNotOk
  | RefreshNetworkError (message : string).

Inductive net_event :=
  | Fetch
  | RefreshToken
  | Sleep (ms : nat)
  | AddLog (message : string).

(** How a request ends.  [Pending] is what the model answers when the
    scripted answers of the server run out before the request is settled:
    the request is then still waiting. *)
Inductive request_result :=
  | Returned (json : string)
  | Threw (message : string)
  | Pending.

(** [refreshSpotifyToken()]: [None] when it returns, [Some message] when it
    throws. *)
Definition refreshSpotifyToken (o : refresh_outcome) : list net_event * option string :=
  match o with
  | RefreshOk => ([RefreshToken; AddLog "Refreshed Spotify token."], None)
  | RefreshNotOk => ([RefreshToken], Some "Refresh failed")
  | RefreshNetworkError message => ([RefreshToken], Some message)
  end.

(** [spGet(path, params)].  The answers of the server to the successive
    transmissions of the request are [fetches]; the outcomes of the
    successive token refreshes are [refreshes].  Each recursive call of the
    source transmits the request once more, so the recursion is on
    [fetches].  The recursive call is returned without [await], so an error
    it throws is logged by the inner call only. *)
Fixpoint spGet (path : string) (fetches : list fetch_outcome)
    (refreshes : list refresh_outcome) : list net_event * request_result :=
  match fetches with
  | [] => ([], Pending)
  | NetworkError message :: _ =>
      ([Fetch; AddLog (String.append "API Error on "
                         (String.append path (String.append ": " message)))],
       Threw message)
  | Response res :: fetches' =>
      if (status res =? 401)%nat then
        match refreshes with
        | [] => ([Fetch; AddLog "Token expired, refreshing..."], Pending)
        | o :: refreshes' =>
            match refreshSpotifyToken o with
            | (evs, Some message) =>
                ([Fetch; AddLog "Token expired, refreshing..."] ++ evs
                   ++ [AddLog (String.append "API Error on "
                                 (String.append path (String.append ": " message)))],
                 Threw message)
            | (evs, None) =>
                let '(evs', result) := spGet path fetches' refreshes' in
                ([Fetch; AddLog "Token expired, refreshing..."] ++ evs ++ evs', result)
            end
        end
      else if (status res =? 429)%nat then
        let seconds := default 5%nat (retryAfter res) in
        let '(evs', result) := spGet path fetches' refreshes in
        ([Fetch; AddLog "Rate limited, waiting"; Sleep (seconds * 1000); Sleep 2000]
           ++ evs', result)
      else if ok res then ([Fetch], Returned (body res))
      else
        let message :=
          String.append "GET "
            (String.append path
               (String.append " failed ("
                  (String.append (pretty (status res))
                     (String.append "): " (body res))))) in
        ([Fetch; AddLog (String.append "API Error on "
                           (String.append path (String.append ": " message)))],
         Threw message)
  end.

(** [spPost(path, body)]: no [catch] block and no handling of status 429. *)
Fixpoint spPost (path : string) (fetches : list fetch_outcome)
    (refreshes : list refresh_outcome) : list net_event * request_result :=
  match fetches with
  | [] => ([], Pending)
  | NetworkError message :: _ => ([Fetch], Threw message)
  | Response res :: fetches' =>
      if (status res =? 401)%nat then
        match refreshes with
        | [] => ([Fetch], Pending)
        | o :: refreshes' =>
            match refreshSpotifyToken o with
            | (evs, Some message) => ([Fetch] ++ evs, Threw message)
            | (evs, None) =>
                let '(evs', result) := spPost path fetches' refreshes' in
                ([Fetch] ++ evs ++ evs', result)
            end
        end
      else if ok res then ([Fetch], Returned (body res))
      else ([Fetch], Threw (String.append "POST " (String.append path " failed")))
  end.

Definition countFetches (evs : list net_event) : nat :=
  List.length (List.filter (fun e => match e with Fetch => true | _ => false end) evs).

Definition countRefreshes (evs : list net_event) : nat :=
  List.length (List.filter (fun e => match e with RefreshToken => true | _ => false end) evs).

Definition unauthorized : fetch_outcome :=
  Response {| status := 401; retryAfter := None; body := "" |}.

Definition success (json : string) : fetch_outcome :=
  Response {| status := 200; retryAfter := None; body := json |}.

(** ** Pagination *)

(** One page request: the [limit] and the [offset] sent. *)
Record page_request := {
  limit : nat;
  offset : nat
}.

(** The catalog as the listings see it: the items a successful [spGet]
    returns for a page request. *)
Definition listing (A : Type) : Type := page_request -> list A.

(** A server that holds the list [all] and answers with the slice asked
    for. *)
Definition sliceServer {A : Type} (all : list A) : listing A :=
  fun rq => firstn (limit rq) (skipn (offset rq) all).

(** The loop of [loadPlaylists(maxPlaylists)]: it is entered with [next]
    true, asks for 50 items at offset [out.length], and goes on when the
    page held 20 items and the cap is not reached.  Every round that goes on
    adds 20 items, so [maxPlaylists + 1] rounds of fuel are enough.  The
    result is [out] and the requests sent; [None] when the fuel runs
    out. *)
Fixpoint loadPlaylistsLoop {A : Type} (fuel : nat) (server : listing A)
    (maxPlaylists : nat) (out : list A) (sent : list page_request)
    : option (list A * list page_request) :=
  match fuel with
  | O => None
  | S fuel' =>
      if (List.length out <? maxPlaylists)%nat then
        let rq := {| limit := 50; offset := List.length out |} in
        let items := server rq in
        let out' := out ++ items in
        let next := (List.length items =? 20)%nat
                    && (List.length out' <? maxPlaylists)%nat in
        if next then loadPlaylistsLoop fuel' server maxPlaylists out' (sent ++ [rq])
        else Some (out', sent ++ [rq])
      else Some (out, sent)
  end.

Definition loadPlaylists {A : Type} (server : listing A) (maxPlaylists : nat)
    : option (list A * list page_request) :=
  loadPlaylistsLoop (S maxPlaylists) server maxPlaylists [] [].

(** The loop of [getAllSavedTracks]: pages of 10, [select] is the [map] to
    the track and the [filter] on it.  [None] when the fuel runs out. *)
Fixpoint getAllSavedTracksLoop {A : Type} (fuel : nat) (server : listing A)
    (select : A -> option track) (offset : nat) (items : list track)
    (sent : list page_request) : option (list track * list page_request) :=
  match fuel with
  | O => None
  | S fuel' =>
      let rq := {| limit := 10; offset := offset |} in
      let page := server rq in
      let items' := items ++ omap select page in
      if (List.length page =? 10)%nat
      then getAllSavedTracksLoop fuel' server select (offset + 10) items' (sent ++ [rq])
      else Some (items', sent ++ [rq])
  end.

Definition getAllSavedTracks {A : Type} (fuel : nat) (server : listing A)
    (select : A -> option track) : option (list track * list page_request) :=
  getAllSavedTracksLoop fuel server select 0 [] [].

(** What the specification asks of the requests a listing sends with the
    declared page size [size]: every request asks for [size] items, every
    page but the last one is full, and the last page is short. *)
Fixpoint stopsAtFirstShortPage {A : Type} (server : listing A) (size : nat)
    (sent : list page_request) : Prop :=
  match sent with
  | [] => False
  | [rq] => limit rq = size /\ List.length (server rq) <> size
  | rq :: rest =>
      limit rq = size /\ List.length (server rq) = size
      /\ stopsAtFirstShortPage server size rest
  end.

(** A fetch answered with status 401. *)
Definition is401 (f : fetch_outcome) : Prop :=
  exists res, f = Response res /\ status res = 401.

(** The message a failed refresh throws. *)
Definition refreshError (o : refresh_outcome) : option string :=
  snd (refreshSpotifyToken o).

From Stdlib Require Import Qround Sorted.

(** ** Tiny helpers: [chunk], [uniq] *)

(** The [for] loop of [chunk(arr, size)]: [i] is the loop index, [out] the
    chunks pushed so far, [arr.slice(i, i + size)] the next chunk.  [None]
    when the fuel runs out. *)
Fixpoint chunkLoop {A : Type} (fuel : nat) (arr : list A) (size i : nat)
    (out : list (list A)) : option (list (list A)) :=
  match fuel with
  | O => None
  | S fuel' =>
      if (i <? List.length arr)%nat
      then chunkLoop fuel' arr size (i + size)
             (out ++ [firstn size (skipn i arr)])
      else Some out
  end.

(** [chunk(arr, size)], with fuel for one round per element and one more:
    enough whenever [size] is positive. *)
Definition chunk {A : Type} (arr : list A) (size : nat) : option (list (list A)) :=
  chunkLoop (S (List.length arr)) arr size 0 [].

(** [new Set(arr)], as the list of its members in insertion order: adding a
    member that is already there changes nothing. *)
Definition setAdd {A : Type} `{EqDecision A} (members : list A) (x : A) : list A :=
  if bool_decide (x ∈ members) then members else members ++ [x].

(** [uniq(arr)], that is [Array.from(new Set(arr))]. *)
Definition uniq {A : Type} `{EqDecision A} (arr : list A) : list A :=
  fold_left setAdd arr [].

(** ** PKCE helpers: [base64urlencode], [randString] *)

(** The base64 alphabet of [btoa]. *)
Definition base64Alphabet : string :=
  "ABCDEFGHIJKLMNOPQRSTUVWXYZabcdefghijklmnopqrstuvwxyz0123456789+/".

(** [s.charAt(i)]: the empty string when [i] is out of range. *)
Definition charAt (s : string) (i : nat) : string :=
  match String.get i s with
  | Some c => String c EmptyString
  | None => EmptyString
  end.

Definition base64Digit (n : nat) : string := charAt base64Alphabet n.

(** [btoa(str)] on a string of bytes: three bytes give four digits; one or
    two bytes left over give two or three digits and padding. *)
Fixpoint btoa (bytes : list ascii) : string :=
  match bytes with
  | [] => EmptyString
  | [a] =>
      let x := nat_of_ascii a in
      String.append (base64Digit (x / 4))
        (String.append (base64Digit ((x mod 4) * 16)) "==")
  | [a; b] =>
      let x := nat_of_ascii a in
      let y := nat_of_ascii b in
      String.append (base64Digit (x / 4))
        (String.append (base64Digit ((x mod 4) * 16 + y / 16))
           (String.append (base64Digit ((y mod 16) * 4)) "="))
  | a :: b :: c :: rest =>
      let x := nat_of_ascii a in
      let y := nat_of_ascii b in
      let z := nat_of_ascii c in
      String.append (base64Digit (x / 4))
        (String.append (base64Digit ((x mod 4) * 16 + y / 16))
           (String.append (base64Digit ((y mod 16) * 4 + z / 64))
              (String.append (base64Digit (z mod 64)) (btoa rest))))
  end.

(** [s.replace(re, by)] for a global pattern that matches the single
    character [from]. *)
Fixpoint replaceAll (from to : ascii) (s : string) : string :=
  match s with
  | EmptyString => EmptyString
  | String c rest =>
      String (if Ascii.eqb c from then to else c) (replaceAll from to rest)
  end.

(** [s.replace(/=+$/, "")]: the [=] signs at the end are dropped. *)
Fixpoint stripPadding (s : string) : string :=
  match s with
  | EmptyString => EmptyString
  | String c rest =>
      match stripPadding rest with
      | EmptyString => if Ascii.eqb c "="%char then EmptyString else String c EmptyString
      | kept => String c kept
      end
  end.

(** [base64urlencode(a)] on the bytes of [a]. *)
Definition base64urlencode (a : list ascii) : string :=
  stripPadding (replaceAll "/"%char "_"%char (replaceAll "+"%char "-"%char (btoa a))).

(** The characters of a base64url text without padding. *)
Definition isBase64UrlChar (c : ascii) : bool :=
  let n := nat_of_ascii c in
  ((65 <=? n) && (n <=? 90))%nat || ((97 <=? n) && (n <=? 122))%nat
  || ((48 <=? n) && (n <=? 57))%nat || Ascii.eqb c "-"%char || Ascii.eqb c "_"%char.

Fixpoint allChars (p : ascii -> bool) (s : string) : bool :=
  match s with
  | EmptyString => true
  | String c rest => p c && allChars p rest
  end.

(** The alphabet of [randString]. *)
Definition possible : string :=
  "ABCDEFGHIJKLMNOPQRSTUVWXYZabcdefghijklmnopqrstuvwxyz0123456789-._~".

(** [randString(length)]: [random i] is the value of the call of
    [Math.random()] in round [i]; [Math.floor] is [Qfloor]. *)
Fixpoint randStringFrom (random : nat -> Q) (i length : nat) : string :=
  match length with
  | O => EmptyString
  | S length' =>
      String.append
        (charAt possible
           (Z.to_nat (Qfloor (random i * inject_Z (Z.of_nat (String.length possible))))))
        (randStringFrom random (S i) length')
  end.

Definition randString (random : nat -> Q) (length : nat) : string :=
  randStringFrom random 0 length.

(** The unreserved characters a PKCE code verifier may hold: letters,
    digits, and [-] [.] [_] [~]. *)
Definition isUnreservedChar (c : ascii) : bool :=
  let n := nat_of_ascii c in
  ((65 <=? n) && (n <=? 90))%nat || ((97 <=? n) && (n <=? 122))%nat
  || ((48 <=? n) && (n <=? 57))%nat || Ascii.eqb c "-"%char || Ascii.eqb c "."%char
  || Ascii.eqb c "_"%char || Ascii.eqb c "~"%char.

(** ** Properties of the scan session *)

(** Most recent first. *)
Definition newerFirst (a b : trackWithTempo) : Prop :=
  (added_at (base b) <= added_at (base a))%Z.

(** The selection overshoots the target by less than one track: it is empty,
    or without one of its tracks the counter is below the target. *)
Definition overshootsByLessThanOneTrack (s : session) : Prop :=
  selectedTracks s = [] \/
  exists r, In r (selectedTracks s) /\
            (currentDurationMs s < targetDurationMs s + durationOrZero (base r))%N.

(** The display tempo is the raw tempo, half of it or twice it. *)
Definition displayTempoIsVariant (r : trackWithTempo) : Prop :=
  tempo r = originalTempo r \/ tempo r = (originalTempo r / 2)%Q
  \/ tempo r = (originalTempo r * 2)%Q.

(** ** Properties of the scheduler *)

(** What holds in every state of a call that is never cancelled, for a list
    of [tracksLength] tracks: the signal is not set, the promises in flight
    belong to tracks already started, and the number of tracks started is
    the initial batch plus one track per promise of that batch that has
    settled, as far as the list reaches. *)
Definition uncancelledInvariant (tracksLength : nat) (s : scheduler) : Prop :=
  let batch := Nat.min tracksLength maxConcurrent in
  signalAborted s = false /\
  (forall p, currentIndex s <= p -> activePromises s !! p = None) /\
  refillers (activePromises s) <= batch /\
  currentIndex s = Nat.min tracksLength (2 * batch - refillers (activePromises s)).

Definition isUserAbort (e : sched_event) : bool :=
  match e with UserAbort => true | _ => false end.

(** ** Properties of the oracle client *)

Fixpoint hasDigit (s : string) : bool :=
  match s with
  | EmptyString => false
  | String c rest => isDigit c || hasDigit rest
  end.

(** Whether the first character of [s] satisfies [p]; false on the empty
    string. *)
Definition headIs (p : ascii -> bool) (s : string) : bool :=
  match s with
  | EmptyString => false
  | String c _ => p c
  end.

Definition isDot (c : ascii) : bool := Ascii.eqb c "."%char.

(** ** Properties of the catalog client *)

(** The milliseconds a request spent in [sleep]. *)
Definition totalSleep (evs : list net_event) : nat :=
  list_sum (List.map (fun e => match e with Sleep ms => ms | _ => 0 end) evs).

(** A fetch answered with status 429. *)
Definition is429 (f : fetch_outcome) : Prop :=
  exists res, f = Response res /\ status res = 429.

(** The number of fetches of the script answered with status 401. *)
Definition count401 (fetches : list fetch_outcome) : nat :=
  List.length
    (List.filter
       (fun f => match f with
                 | Response res => (status res =? 401)%nat
                 | NetworkError _ => false
                 end) fetches).

(** ** The tracks of the selected playlists *)

(** The [for] loop of [getAllTracksFromPlaylists(ids)] over the playlists
    still to read.  The inner [while] loop is the loop of
    [getAllSavedTracks] on the listing of the playlist (pages of 10, the
    page length tested before the filter); [select] is the [filter] on the
    item and the [map] to its track.  Every request is followed by a sleep
    of 500 ms, every playlist but the last one by a sleep of 2000 ms.  The
    result is [results], the requests sent with the playlist they went to,
    and the milliseconds slept; [None] when the fuel of an inner loop runs
    out. *)
Fixpoint getAllTracksFromPlaylistsLoop {A : Type} (fuel : nat)
    (servers : string -> listing A) (select : A -> option track)
    (ids : list string) (results : list track)
    (sent : list (string * page_request)) (slept : nat)
    : option (list track * list (string * page_request) * nat) :=
  match ids with
  | [] => Some (results, sent, slept)
  | pid :: rest =>
      match getAllSavedTracksLoop fuel (servers pid) select 0 [] [] with
      | None => None
      | Some (trackItems, requests) =>
          getAllTracksFromPlaylistsLoop fuel servers select rest
            (results ++ trackItems)
            (sent ++ List.map (pair pid) requests)
            (slept + 500 * List.length requests
             + match rest with [] => 0 | _ :: _ => 2000 end)
      end
  end.

Definition getAllTracksFromPlaylists {A : Type} (fuel : nat)
    (servers : string -> listing A) (select : A -> option track)
    (ids : list string)
    : option (list track * list (string * page_request) * nat) :=
  getAllTracksFromPlaylistsLoop fuel servers select ids [] [] 0.

(** The page requests that read a listing of [n] items in pages of [size]:
    offsets 0, [size], ... up to the first offset whose page is short. *)
Definition pagesOf (size n : nat) : list page_request :=
  List.map (fun k => {| limit := size; offset := size * k |}) (seq 0 (S (n / size))).

(** ** The candidates of [loadCandidates] *)

(** A JavaScript object used as a dictionary, as the list of its own
    properties in the order of their creation.  [objectSet o k v] is
    [o[k] = v]: an existing property keeps its place and takes the new
    value, a new property is created last. *)
Fixpoint objectSet {V : Type} (o : list (string * V)) (k : string) (v : V)
    : list (string * V) :=
  match o with
  | [] => [(k, v)]
  | (k', v') :: rest =>
      if String.eqb k' k then (k', v) :: rest
      else (k', v') :: objectSet rest k v
  end.

(** A property key is an array index when it is the canonical decimal
    writing of an integer below 2^32 - 1: digits only, no leading zero. *)
Definition isArrayIndex (k : string) : bool :=
  match k with
  | EmptyString => false
  | String c rest =>
      allChars isDigit k
      && (negb (Ascii.eqb c "0"%char) || String.eqb rest EmptyString)
      && (digitsValue 0 k <? 2 ^ 32 - 1)%Z
  end.

Fixpoint insertByIndex {V : Type} (p : string * V) (l : list (string * V))
    : list (string * V) :=
  match l with
  | [] => [p]
  | q :: l' =>
      if (digitsValue 0 (fst p) <? digitsValue 0 (fst q))%Z
      then p :: q :: l'
      else q :: insertByIndex p l'
  end.

(** [Object.values(o)]: the values of the properties whose key is an array
    index, in ascending order of the index, then the values of the other
    properties in the order of their creation. *)
Definition objectValues {V : Type} (o : list (string * V)) : list V :=
  List.map snd
    (fold_right insertByIndex [] (List.filter (fun p => isArrayIndex (fst p)) o)
     ++ List.filter (fun p => negb (isArrayIndex (fst p))) o).

(** [Object.values(sources.reduce((acc, t) => { acc[t.id] = t; return acc; }, {}))] *)
Definition dedupeById (sources : list track) : list track :=
  objectValues (fold_left (fun acc t => objectSet acc (track_id t) t) sources []).

(** [t] is the last track of [sources] with its id. *)
Definition lastWithItsId (sources : list track) (t : track) : Prop :=
  exists pre post,
    sources = pre ++ t :: post /\
    Forall (fun u => track_id u <> track_id t) post.

(** ** The scan of a playlist in [findMatchingSongs] *)

(** The tracks met so far, as the source keeps them: the set
    [seenTrackIds] and the list [allTracks] of the tracks met for the first
    time, in the order in which they were met.  Whether the analysis of a
    track was started is not recorded here but in [analysesStarted]
    below. *)
Record scan_state := {
  seenTrackIds : gset string;
  allTracks : list track
}.

Definition emptyScan : scan_state := {| seenTrackIds := ∅; allTracks := [] |}.

(** The first two statements of the body of [newTracks.forEach]: the id
    joins the set and the track joins [allTracks].  The third statement,
    the call of [processTrackImmediately], does not touch the scan state;
    it is [processTrackImmediately] below, and [forEachNewTrack] is the
    whole body. *)
Definition startTrack (s : scan_state) (t : track) : scan_state :=
  {| seenTrackIds := {[ track_id t ]} ∪ seenTrackIds s;
     allTracks := allTracks s ++ [t] |}.

(** What happens to the scan state, without interruption, when the page
    [tracks] has arrived: [newTracks] is computed against the set as it is
    before the page, then every new track joins the set and [allTracks]. *)
Definition receivePage (s : scan_state) (tracks : list track) : scan_state :=
  let newTracks :=
    List.filter (fun t => negb (bool_decide (track_id t ∈ seenTrackIds s))) tracks in
  fold_left startTrack newTracks s.

(** The [while (hasMore)] loop over the pages of one playlist: pages of 100,
    [select] is the [filter] on the item and the [map] to its track, and
    the loop goes on when the page gave 100 usable tracks.  The result is
    the scan state, [allPlaylistTracks], the requests sent and the
    milliseconds slept; [None] when the fuel runs out.  The scan state is
    threaded as for a playlist read alone: pages of the other playlists of
    the batch change the scan state only, on which the requests and
    [allPlaylistTracks] do not depend. *)
Fixpoint scanPlaylistLoop {A : Type} (fuel : nat) (server : listing A)
    (select : A -> option track) (offset : nat) (s : scan_state)
    (allPlaylistTracks : list track) (sent : list page_request) (slept : nat)
    : option (scan_state * list track * list page_request * nat) :=
  match fuel with
  | O => None
  | S fuel' =>
      let rq := {| limit := 100; offset := offset |} in
      let tracks := omap select (server rq) in
      let s' := receivePage s tracks in
      let hasMore := (List.length tracks =? 100)%nat in
      if hasMore
      then scanPlaylistLoop fuel' server select (offset + 100) s'
             (allPlaylistTracks ++ tracks) (sent ++ [rq]) (slept + 50)
      else Some (s', allPlaylistTracks ++ tracks, sent ++ [rq], slept)
  end.

Definition scanPlaylist {A : Type} (fuel : nat) (server : listing A)
    (select : A -> option track) (s : scan_state)
    : option (scan_state * list track * list page_request * nat) :=
  scanPlaylistLoop fuel server select 0 s [] [] 0.

(** The number of tracks of [l] with the id [i]. *)
Definition countId (i : string) (l : list track) : nat :=
  List.length (List.filter (fun t => String.eqb (track_id t) i) l).

(** The first of the pages that holds a track with the id [i]; the empty
    page when there is none. *)
Fixpoint firstPageWith (i : string) (pages : list (list track)) : list track :=
  match pages with
  | [] => []
  | p :: rest =>
      if existsb (fun t => String.eqb (track_id t) i) p then p
      else firstPageWith i rest
  end.

(** The ids of the set are the ids of the tracks of [allTracks], none
    twice. *)
Definition scanInvariant (s : scan_state) : Prop :=
  NoDup (List.map track_id (allTracks s)) /\
  forall i, i ∈ seenTrackIds s <-> In i (List.map track_id (allTracks s)).

(** ** The analyses started by the scan of [findMatchingSongs] *)

(** The scan as a whole: the scan state, the session that the estimates
    fill, and the tracks for which [getTrackBPMWithGemini] was called, in
    the order of the calls. *)
Record scan := {
  scanState : scan_state;
  scanSession : session;
  analysesStarted : list track
}.

(** [processTrackImmediately(track)] up to its first [await]: it returns at
    once when the target is reached, and calls [getTrackBPMWithGemini] for
    the track otherwise. *)
Definition processTrackImmediately (c : scan) (t : track) : scan :=
  if targetReached (scanSession c) then c
  else {| scanState := scanState c;
          scanSession := scanSession c;
          analysesStarted := analysesStarted c ++ [t] |}.

(** The body of [newTracks.forEach]. *)
Definition forEachNewTrack (c : scan) (t : track) : scan :=
  processTrackImmediately
    {| scanState := startTrack (scanState c) t;
       scanSession := scanSession c;
       analysesStarted := analysesStarted c |} t.

(** [tracks.filter(track => !seenTrackIds.has(track.id))] *)
Definition newTracks (s : scan_state) (tracks : list track) : list track :=
  List.filter (fun t => negb (bool_decide (track_id t ∈ seenTrackIds s))) tracks.

(** What the scan does, without interruption, when a page has arrived. *)
Definition pageArrives (c : scan) (tracks : list track) : scan :=
  fold_left forEachNewTrack (newTracks (scanState c) tracks) c.

(** What the event loop delivers to the scan: a page of a playlist, or the
    estimate of an analysis that was started, which goes to
    [processTrackForSelection] ([None] when the analysis gave [null] or
    threw).  The playlists of a batch are read concurrently and the
    analyses run beside them, so a scan is an arbitrary sequence of these
    events. *)
Inductive scan_event :=
  | PageArrives (tracks : list track)
  | EstimateSettles (t : track) (bpm : option Q).

Definition scanStep (minTempo maxTempo : Q) (c : scan) (e : scan_event) : scan :=
  match e with
  | PageArrives tracks => pageArrives c tracks
  | EstimateSettles t bpm =>
      {| scanState := scanState c;
         scanSession :=
           snd (processTrackForSelection minTempo maxTempo (scanSession c) t bpm);
         analysesStarted := analysesStarted c |}
  end.

Definition runScan (minTempo maxTempo : Q) (c : scan) (evs : list scan_event)
    : scan :=
  fold_left (scanStep minTempo maxTempo) evs c.

(** The scan at the start of [findMatchingSongs]. *)
Definition newScan (target : N) : scan :=
  {| scanState := emptyScan;
     scanSession := freshSession target;
     analysesStarted := [] |}.

(** The pages among the events, in the order of their arrival. *)
Definition arrivedPages (evs : list scan_event) : list (list track) :=
  omap (fun e => match e with
                 | PageArrives tracks => Some tracks
                 | EstimateSettles _ _ => None
                 end) evs.

(** ** Writing the playlist: [createPlaylistFromSelection] *)

(** The two requests [createPlaylistFromSelection] posts: the creation of
    the playlist of the user, and the addition of a chunk of track URIs to
    a playlist. *)
Inductive post_request :=
  | CreatePlaylist (userId : string)
  | AddTracks (playlistId : string) (uris : list string).

Inductive creation_step := StepReview | StepCreating | StepComplete.

(** The server as [createPlaylistFromSelection] meets it: the outcome of the
    [k]-th [spPost] of the call, [None] when it throws, the id of the
    playlist when the creation succeeds. *)
Definition post_server : Type := nat -> post_request -> option string.

(** The [for] loop over the chunks: [k] posts were sent before.  The result
    is the posts sent, the milliseconds slept and whether the loop ended
    without a throw. *)
Fixpoint addTracksLoop (answer : post_server) (playlistId : string)
    (chunks : list (list string)) (k : nat) (sent : list post_request)
    (slept : nat) : list post_request * nat * bool :=
  match chunks with
  | [] => (sent, slept, true)
  | uriChunk :: rest =>
      let rq := AddTracks playlistId uriChunk in
      match answer k rq with
      | None => (sent ++ [rq], slept, false)
      | Some _ =>
          addTracksLoop answer playlistId rest (S k) (sent ++ [rq]) (slept + 100)
      end
  end.

(** [createPlaylistFromSelection()]: [me] is the id of the logged-in user,
    [uri] reads the field [uri] of a track of the selection.  The result is
    the posts sent, the milliseconds slept and the step the call sets last
    ([None] when it returns at the guard and sets none). *)
Definition createPlaylistFromSelection (me : option string)
    (uri : trackWithTempo -> string) (answer : post_server)
    (finalTrackSelection : list trackWithTempo)
    : option (list post_request * nat * option creation_step) :=
  match me, finalTrackSelection with
  | None, _ | _, [] => Some ([], 0, None)
  | Some userId, _ :: _ =>
      match answer 0 (CreatePlaylist userId) with
      | None => Some ([CreatePlaylist userId], 0, Some StepReview)
      | Some playlistId =>
          let uris := List.map uri finalTrackSelection in
          match chunk uris 100 with
          | None => None
          | Some chunks =>
              let '(sent, slept, completed) :=
                addTracksLoop answer playlistId chunks 1 [CreatePlaylist userId] 0 in
              Some (sent, slept,
                    Some (if completed then StepComplete else StepReview))
          end
      end
  end.

(** ** The original [createPlaylist] *)

(** [{ ...t, ...match }]: the fields of the playlist track, overridden by
    the fields of the candidate; the id is the id of the candidate. *)
Record filledTrack := {
  fromPlaylist : track;
  fromCandidates : trackWithTempo
}.

Definition filledId (f : filledTrack) : string := track_id (base (fromCandidates f)).

(** [candidates.find(c => c.id === t.id)] *)
Definition findCandidate (candidates : list trackWithTempo) (t : track)
    : option trackWithTempo :=
  List.find (fun c => String.eqb (track_id (base c)) (track_id t)) candidates.

(** [totalDuration / 60000 >= selectedDuration], with the duration selected
    in minutes. *)
Definition fills (selectedDuration totalDuration : N) : bool :=
  (60000 * selectedDuration <=? totalDuration)%N.

(** The first [for] loop, over the playlist tracks still to visit. *)
Fixpoint firstPass (candidates : list trackWithTempo) (selectedDuration : N)
    (playlistTracks : list track) (filledTracks : list filledTrack)
    (totalDuration : N) : list filledTrack * N :=
  match playlistTracks with
  | [] => (filledTracks, totalDuration)
  | t :: rest =>
      match findCandidate candidates t with
      | Some m =>
          let filledTracks' :=
            filledTracks ++ [{| fromPlaylist := t; fromCandidates := m |}] in
          let totalDuration' := (totalDuration + durationOrZero t)%N in
          if fills selectedDuration totalDuration'
          then (filledTracks', totalDuration')
          else firstPass candidates selectedDuration rest filledTracks' totalDuration'
      | None => firstPass candidates selectedDuration rest filledTracks totalDuration
      end
  end.

(** The second [for] loop: the same, for the tracks whose id is not yet in
    [filledTracks]. *)
Fixpoint secondPass (candidates : list trackWithTempo) (selectedDuration : N)
    (playlistTracks : list track) (filledTracks : list filledTrack)
    (totalDuration : N) : list filledTrack * N :=
  match playlistTracks with
  | [] => (filledTracks, totalDuration)
  | t :: rest =>
      if existsb (fun f => String.eqb (filledId f) (track_id t)) filledTracks
      then secondPass candidates selectedDuration rest filledTracks totalDuration
      else
        match findCandidate candidates t with
        | Some m =>
            let filledTracks' :=
              filledTracks ++ [{| fromPlaylist := t; fromCandidates := m |}] in
            let totalDuration' := (totalDuration + durationOrZero t)%N in
            if fills selectedDuration totalDuration'
            then (filledTracks', totalDuration')
            else secondPass candidates selectedDuration rest filledTracks' totalDuration'
        | None => secondPass candidates selectedDuration rest filledTracks totalDuration
        end
  end.

(** [sortByMostRecent] on the tracks of the playlist. *)
Fixpoint insertTrackByMostRecent (x : track) (l : list track) : list track :=
  match l with
  | [] => [x]
  | y :: l' =>
      if (added_at x <? added_at y)%Z
      then y :: insertTrackByMostRecent x l'
      else x :: y :: l'
  end.

Definition sortTracksByMostRecent (l : list track) : list track :=
  fold_right insertTrackByMostRecent [] l.

(** How [createPlaylist] ends once the tracks of the playlist are read: it
    writes a playlist of [filledTracks], after the first loop or after the
    second one, or it reports that there is not enough music. *)
Inductive createPlaylist_outcome :=
  | Created (filledTracks : list filledTrack) (usingSecondary : bool)
  | NotEnoughMusic.

Definition createPlaylist (candidates : list trackWithTempo) (selectedDuration : N)
    (playlistTracks : list track) : createPlaylist_outcome :=
  let sorted := sortTracksByMostRecent playlistTracks in
  let '(filledTracks, totalDuration) :=
    firstPass candidates selectedDuration sorted [] 0%N in
  if fills selectedDuration totalDuration then Created filledTracks false
  else
    let '(filledTracks', totalDuration') :=
      secondPass candidates selectedDuration sorted filledTracks totalDuration in
    if fills selectedDuration totalDuration' then Created filledTracks' true
    else NotEnoughMusic.

(** The playlist tracks that have a candidate, each with its candidate. *)
Definition matching (candidates : list trackWithTempo) (playlistTracks : list track)
    : list filledTrack :=
  omap (fun t =>
          match findCandidate candidates t with
          | Some m => Some {| fromPlaylist := t; fromCandidates := m |}
          | None => None
          end) playlistTracks.

Definition filledDuration (l : list filledTrack) : N :=
  fold_right (fun f acc => (durationOrZero (fromPlaylist f) + acc)%N) 0%N l.

(** ** The earlier version: fixed batches of five *)

Module Batched.

(** What the analysis of the track at position [i] of the list gives: the
    tempo, or [None] when [getTrackBPMWithGemini] returns [null] or
    throws. *)
Definition analysis : Type := nat -> option Q.

(** The callback of [batch.map]: when the analysis of the track settles with
    a tempo, [tempos[track.id] = bpm]. *)
Definition settle (bpmOf : analysis) (tempos : gmap string Q) (it : nat * track)
    : gmap string Q :=
  match bpmOf (fst it) with
  | Some bpm => <[track_id (snd it) := bpm]> tempos
  | None => tempos
  end.

(** [tracks.slice(i, i + batchSize)], each track with its position. *)
Definition batchAt (tracks : list track) (i : nat) : list (nat * track) :=
  combine (seq i 5) (firstn 5 (skipn i tracks)).

(** The [for] loop over the batches.  The five analyses of a batch run
    together and [Promise.all] waits for all of them; [order] is the order
    in which they settle.  The result is the dictionary, the positions of
    the tracks analysed, in the order the analyses were started, and the
    milliseconds slept; [None] when the fuel runs out. *)
Fixpoint batchLoop (fuel : nat) (bpmOf : analysis)
    (order : list (nat * track) -> list (nat * track)) (tracks : list track)
    (i : nat) (tempos : gmap string Q) (started : list nat) (slept : nat)
    : option (gmap string Q * list nat * nat) :=
  match fuel with
  | O => None
  | S fuel' =>
      if (i <? List.length tracks)%nat then
        let batch := batchAt tracks i in
        let tempos' := fold_left (settle bpmOf) (order batch) tempos in
        let slept' :=
          if (i + 5 <? List.length tracks)%nat then slept + 1000 else slept in
        batchLoop fuel' bpmOf order tracks (i + 5) tempos'
          (started ++ List.map fst batch) slept'
      else Some (tempos, started, slept)
  end.

(** [fetchTemposForTracksWithGemini(tracks, ...)] of the earlier version. *)
Definition fetchTemposForTracksWithGemini (bpmOf : analysis)
    (order : list (nat * track) -> list (nat * track)) (tracks : list track)
    : option (gmap string Q * list nat * nat) :=
  match tracks with
  | [] => Some (∅, [], 0)
  | _ :: _ => batchLoop (S (List.length tracks)) bpmOf order tracks 0 ∅ [] 0
  end.

(** [filterTracksByTempo(tracks, tempos, minBpm, maxBpm)] of the earlier
    version: the tracks whose tempo is truthy and in range, each with its
    tempo. *)
Definition filterTracksByTempo (tracks : list track) (tempos : gmap string Q)
    (minBpm maxBpm : Q) : list (track * Q) :=
  List.map
    (fun t => (t, default 0%Q (tempos !! track_id t)))
    (List.filter
       (fun t =>
          match tempos !! track_id t with
          | None => false
          | Some tempo => truthy tempo && inRangeb minBpm maxBpm tempo
          end)
       tracks).

End Batched.

(** ** The sequential version of [findMatchingSongs] *)

Module Sequential.

(** [{...track, ..., sourcePlaylist: currentPlaylist.name}] *)
Definition fromPlaylistNamed (name : string) (t : track) : track :=
  {| track_id := track_id t; track_name := track_name t; artist := artist t;
     duration_ms := duration_ms t; added_at := added_at t;
     sourcePlaylist := name |}.

(** [selectedTracks.find(t => t.id === track.id)], as a truth value. *)
Definition alreadySelected (s : session) (t : track) : bool :=
  existsb (fun r => String.eqb (track_id (base r)) (track_id t)) (selectedTracks s).

(** The [for] loop over the tracks of one playlist.  [analysis k] is what
    the [k]-th call of [getTrackBPMWithGemini] of the scan gives, [None]
    when it returns [null] or throws; [scanned] are the tracks analysed so
    far.  The loop ends at a [break] or with the list. *)
Fixpoint scanTracks (minTempo maxTempo : Q) (analysis : nat -> option Q)
    (name : string) (tracks : list track) (s : session) (scanned : list track)
    : session * list track :=
  match tracks with
  | [] => (s, scanned)
  | t :: rest =>
      if targetReached s then (s, scanned)
      else if alreadySelected s t
      then scanTracks minTempo maxTempo analysis name rest s scanned
      else
        let scanned' := scanned ++ [t] in
        match analysis (List.length scanned) with
        | Some bpm =>
            if anyVariantInRange minTempo maxTempo bpm then
              let s' := accept s (withTempo (fromPlaylistNamed name t)
                                    minTempo maxTempo bpm) in
              if targetReached s' then (s', scanned')
              else scanTracks minTempo maxTempo analysis name rest s' scanned'
            else scanTracks minTempo maxTempo analysis name rest s scanned'
        | None => scanTracks minTempo maxTempo analysis name rest s scanned'
        end
  end.

(** The [for] loop over the playlists, each given by its name and the
    tracks read from it: the tracks are sorted, most recently added first,
    and scanned. *)
Fixpoint scanPlaylists (minTempo maxTempo : Q) (analysis : nat -> option Q)
    (sortedPlaylists : list (string * list track)) (s : session)
    (scanned : list track) : session * list track :=
  match sortedPlaylists with
  | [] => (s, scanned)
  | (name, allPlaylistTracks) :: rest =>
      if targetReached s then (s, scanned)
      else
        let '(s', scanned') :=
          scanTracks minTempo maxTempo analysis name
            (sortTracksByMostRecent allPlaylistTracks) s scanned in
        scanPlaylists minTempo maxTempo analysis rest s' scanned'
  end.

End Sequential.

(** No track id is selected twice. *)
Definition selectionWithoutRepeats (s : session) : Prop :=
  NoDup (List.map (fun r => track_id (base r)) (selectedTracks s)).

(** What a scan keeps: no id twice in the selection, every track selected
    comes from a playlist and carries its name, and every track analysed
    comes from a playlist. *)
Definition scanKeeps (source : string -> track -> Prop) (s : session)
    (scanned : list track) : Prop :=
  selectionWithoutRepeats s /\
  Forall (fun r => exists name t, source name t /\
                   base r = Sequential.fromPlaylistNamed name t) (selectedTracks s) /\
  Forall (fun t => exists name, source name t) scanned.

(** A track of a playlist of the list, with the name of that playlist. *)
Definition inPlaylists (sortedPlaylists : list (string * list track))
    (name : string) (t : track) : Prop :=
  exists tracks, In (name, tracks) sortedPlaylists /\ In t tracks.

(** ** The fallback on the saved tracks and the log of answers *)

(** Estimates of the primary phase that settle late: each one calls
    [processTrackForSelection]. *)
Definition settleLate (minTempo maxTempo : Q) (s : session)
    (late : list (track * option Q)) : session :=
  fold_left
    (fun s e => snd (processTrackForSelection minTempo maxTempo s (fst e) (snd e)))
    late s.

(** The secondary phase of [findMatchingSongs]: when the primary phase has
    selected something without reaching the target and [includeSaved] is
    set, the saved tracks are loaded, those whose id is not in the
    selection are analysed, and the saved-tracks loop scans them.
    [savedTempos] is the dictionary that [fetchTemposForTracksWithGemini]
    returned for them.  Analyses of the primary phase may still settle
    while the function waits for the saved tracks ([whileLoading]) and for
    their tempos ([whileAnalysing]). *)
Definition secondaryPhase (minTempo maxTempo : Q) (includeSaved : bool)
    (savedTempos : gmap string Q) (saved : list track)
    (whileLoading whileAnalysing : list (track * option Q)) (s : session)
    : session :=
  if negb (targetReached s) && (0 <? List.length (selectedTracks s))%nat then
    if includeSaved then
      let s0 := settleLate minTempo maxTempo s whileLoading in
      let existingTrackIds : gset string :=
        list_to_set (List.map (fun r => track_id (base r)) (selectedTracks s0)) in
      let uniqueSavedTracks :=
        List.filter (fun t => negb (bool_decide (track_id t ∈ existingTrackIds)))
          saved in
      let s1 := settleLate minTempo maxTempo s0 whileAnalysing in
      savedTracksLoop minTempo maxTempo savedTempos uniqueSavedTracks s1
    else s
  else s.

(** [addGeminiLog(logEntry)]: the new entry first, then the first 49 of the
    entries before. *)
Definition addGeminiLog {A : Type} (logs : list A) (logEntry : A) : list A :=
  logEntry :: firstn 49 logs.

(** * Theorems *)

(** ** TempoMatcher *)

Lemma inRangeb_true minBpm maxBpm x :
  inRangeb minBpm maxBpm x = true <-> in_range minBpm maxBpm x.
Proof.
  unfold inRangeb, in_range.
  rewrite andb_true_iff, !Qle_bool_iff. reflexivity.
Qed.

Lemma inRangeb_false minBpm maxBpm x :
  inRangeb minBpm maxBpm x = false <-> ~ in_range minBpm maxBpm x.
Proof.
  rewrite <- inRangeb_true. destruct (inRangeb minBpm maxBpm x); split; intro H;
    try reflexivity; try discriminate; try (exfalso; apply H; reflexivity).
Qed.

Lemma matcherAnswer_spec minBpm maxBpm t :
  TempoMatcher_spec minBpm maxBpm t (matcherAnswer minBpm maxBpm t).
Proof.
  unfold matcherAnswer, anyVariantInRange, selectVariant.
  destruct (inRangeb minBpm maxBpm t) eqn:E1; simpl.
  - apply match_original. now apply inRangeb_true.
  - apply inRangeb_false in E1.
    destruct (inRangeb minBpm maxBpm (t / 2)) eqn:E2; simpl.
    + apply match_half_time; [assumption | now apply inRangeb_true].
    + apply inRangeb_false in E2.
      destruct (inRangeb minBpm maxBpm (t * 2)) eqn:E3.
      * apply match_double_time; try assumption. now apply inRangeb_true.
      * apply inRangeb_false in E3. now apply match_none.
Qed.

Lemma matcherAnswer_is_Some minBpm maxBpm t :
  is_Some (matcherAnswer minBpm maxBpm t) <->
  in_range minBpm maxBpm t \/ in_range minBpm maxBpm (t / 2)%Q
  \/ in_range minBpm maxBpm (t * 2)%Q.
Proof.
  unfold matcherAnswer, anyVariantInRange.
  rewrite <- !inRangeb_true.
  destruct (inRangeb minBpm maxBpm t), (inRangeb minBpm maxBpm (t / 2)),
    (inRangeb minBpm maxBpm (t * 2)); simpl; split; intro H;
    try (eexists; reflexivity); try tauto;
    try (destruct H as [x Hx]; discriminate);
    try (destruct H as [H | [H | H]]; discriminate).
Qed.

Lemma matchResults_answer trk minBpm maxBpm t :
  matchResults trk t (matcherAnswer minBpm maxBpm t) =
  if anyVariantInRange minBpm maxBpm t then [withTempo trk minBpm maxBpm t] else [].
Proof.
  unfold matcherAnswer, withTempo.
  destruct (anyVariantInRange minBpm maxBpm t); [|reflexivity].
  simpl. destruct (selectVariant minBpm maxBpm t). reflexivity.
Qed.

(** Every track that survives the [filter] of [filterTracksByTempo] has a
    tempo in the dictionary, so the [map] never reads [undefined]. *)
Lemma filter_keeps_resolved (tracks : list track) (tempos : gmap string Q)
    minBpm maxBpm r :
  In r (filterTracksByTempo tracks tempos (minBpm, maxBpm)) ->
  tempos !! track_id (base r) = Some (originalTempo r).
Proof.
  unfold filterTracksByTempo. rewrite in_map_iff.
  intros [t [<- Hin]]. apply filter_In in Hin as [_ Hin]. simpl.
  destruct (tempos !! track_id t); [reflexivity | discriminate].
Qed.

Lemma filterTracksByTempo_single trk (tempos : gmap string Q) minBpm maxBpm t :
  tempos !! track_id trk = Some t ->
  truthy t = true ->
  filterTracksByTempo [trk] tempos (minBpm, maxBpm) =
  matchResults trk t (matcherAnswer minBpm maxBpm t).
Proof.
  intros Hl Ht. rewrite matchResults_answer.
  unfold filterTracksByTempo. simpl. rewrite Hl, Ht.
  destruct (anyVariantInRange minBpm maxBpm t); simpl; [|reflexivity].
  rewrite Hl. reflexivity.
Qed.

Lemma processTrackForSelection_selected minBpm maxBpm s trk t :
  (currentDurationMs s < targetDurationMs s)%N ->
  selectedTracks (snd (processTrackForSelection minBpm maxBpm s trk (Some t))) =
  selectedTracks s ++ matchResults trk t (matcherAnswer minBpm maxBpm t).
Proof.
  intros Hlt. rewrite matchResults_answer. unfold processTrackForSelection.
  apply N.leb_gt in Hlt. rewrite Hlt.
  destruct (anyVariantInRange minBpm maxBpm t); simpl;
    [reflexivity | now rewrite app_nil_r].
Qed.

(** The decision is made track by track: filtering a list is filtering its
    pieces. *)
Lemma filterTracksByTempo_app l1 l2 (tempos : gmap string Q) range :
  filterTracksByTempo (l1 ++ l2) tempos range =
  filterTracksByTempo l1 tempos range ++ filterTracksByTempo l2 tempos range.
Proof.
  destruct range as [minBpm maxBpm]. unfold filterTracksByTempo.
  now rewrite List.filter_app, List.map_app.
Qed.

(** An unresolved tempo (no entry, or a falsy one) is never matched. *)
Lemma filterTracksByTempo_unresolved trk (tempos : gmap string Q) range :
  (tempos !! track_id trk = None
   \/ exists t, tempos !! track_id trk = Some t /\ truthy t = false) ->
  filterTracksByTempo [trk] tempos range = [].
Proof.
  destruct range as [minBpm maxBpm]. unfold filterTracksByTempo. simpl.
  intros [-> | [t [-> ->]]]; reflexivity.
Qed.

(** C1.  For every tempo [t] and range [[minBpm, maxBpm]] there is one
    matcher answer [r], fixed by the priority order original, half-time,
    double-time over the inclusive range, such that: [r] is a result exactly
    when [t], [t/2] or [t*2] lies in the range; [filterTracksByTempo] maps a
    track whose resolved (truthy) tempo is [t] to exactly the match results
    of [r]; [processTrackForSelection], while the target duration is not yet
    reached, appends exactly those results to the selection; each result
    carries the raw tempo [t].  [filterTracksByTempo] decides track by
    track.  With range [150,170] and raw tempo 78 both accept the track as
    the double-time variant with display tempo 156 and original tempo 78. *)
Theorem tempo_matcher_accepts_iff_variant_in_range :
  (forall (trk : track) (t minBpm maxBpm : Q),
    exists r : option (Q * tempo_type),
      TempoMatcher_spec minBpm maxBpm t r /\
      (is_Some r <->
         in_range minBpm maxBpm t \/ in_range minBpm maxBpm (t / 2)%Q
         \/ in_range minBpm maxBpm (t * 2)%Q) /\
      (forall tempos : gmap string Q,
          tempos !! track_id trk = Some t ->
          truthy t = true ->
          filterTracksByTempo [trk] tempos (minBpm, maxBpm) = matchResults trk t r) /\
      (forall s : session,
          (currentDurationMs s < targetDurationMs s)%N ->
          selectedTracks
            (snd (processTrackForSelection minBpm maxBpm s trk (Some t))) =
          selectedTracks s ++ matchResults trk t r)) /\
  (forall (l1 l2 : list track) (tempos : gmap string Q) (range : Q * Q),
      filterTracksByTempo (l1 ++ l2) tempos range =
      filterTracksByTempo l1 tempos range ++ filterTracksByTempo l2 tempos range) /\
  (let trk := sampleTrack "a" 200000 in
   let accepted :=
     {| base := trk; tempo := 156; originalTempo := 78; tempoType := double_time |} in
   filterTracksByTempo [trk] {[ "a" := 78%Q ]} (150%Q, 170%Q) = [accepted] /\
   selectedTracks
     (snd (processTrackForSelection 150 170 (freshSession 1800000) trk (Some 78%Q)))
   = [accepted]).
Proof.
  split.
  - intros trk t minBpm maxBpm. exists (matcherAnswer minBpm maxBpm t).
    split; [apply matcherAnswer_spec|].
    split; [apply matcherAnswer_is_Some|].
    split.
    + intros tempos Hl Ht. now apply filterTracksByTempo_single.
    + intros s Hs. now apply processTrackForSelection_selected.
  - split; [apply filterTracksByTempo_app|]. split; reflexivity.
Qed.

(** C1 at scenario A: range [150,170], raw tempo 78, a fresh session with a
    target of thirty minutes. *)
Lemma tempo_matcher_scenario_A :
  exists r : option (Q * tempo_type),
    TempoMatcher_spec 150 170 78 r /\
    filterTracksByTempo [sampleTrack "a" 200000] {[ "a" := 78%Q ]} (150%Q, 170%Q)
    = matchResults (sampleTrack "a" 200000) 78 r /\
    selectedTracks
      (snd (processTrackForSelection 150 170 (freshSession 1800000)
              (sampleTrack "a" 200000) (Some 78%Q)))
    = matchResults (sampleTrack "a" 200000) 78 r.
Proof.
  destruct (proj1 tempo_matcher_accepts_iff_variant_in_range
              (sampleTrack "a" 200000) 78%Q 150%Q 170%Q) as [r [Hs [_ [Hf Hp]]]].
  exists r. split; [exact Hs|]. split.
  - apply Hf; reflexivity.
  - apply (Hp (freshSession 1800000)). reflexivity.
Defined.

Lemma half_as_product (t : Q) : (t / 2 == t * (1 # 2))%Q.
Proof. unfold Qdiv. reflexivity. Qed.

(** In a range narrower than an octave no two candidates of a positive
    tempo fit together. *)
Lemma narrow_range_separates (minBpm maxBpm t : Q) :
  (0 < t)%Q -> (maxBpm < 2 * minBpm)%Q ->
  ~ (in_range minBpm maxBpm t /\ in_range minBpm maxBpm (t / 2)%Q) /\
  ~ (in_range minBpm maxBpm t /\ in_range minBpm maxBpm (t * 2)%Q) /\
  ~ (in_range minBpm maxBpm (t / 2)%Q /\ in_range minBpm maxBpm (t * 2)%Q).
Proof.
  intros Hpos Hnarrow. unfold in_range.
  repeat split; intros [[H1 H2] [H3 H4]]; try rewrite half_as_product in *; lra.
Qed.

Lemma withTempo_sound minBpm maxBpm trk t :
  anyVariantInRange minBpm maxBpm t = true ->
  matchResultSound minBpm maxBpm (withTempo trk minBpm maxBpm t).
Proof.
  intros Hany. unfold matchResultSound, withTempo, selectVariant; simpl.
  unfold anyVariantInRange in Hany.
  assert (Hsep := narrow_range_separates minBpm maxBpm t).
  destruct (inRangeb minBpm maxBpm t) eqn:E1;
    [apply inRangeb_true in E1 | apply inRangeb_false in E1];
  (destruct (inRangeb minBpm maxBpm (t / 2)) eqn:E2;
    [apply inRangeb_true in E2 | apply inRangeb_false in E2]);
  (destruct (inRangeb minBpm maxBpm (t * 2)) eqn:E3;
    [apply inRangeb_true in E3 | apply inRangeb_false in E3]);
  simpl in *; try discriminate;
  (split; [tauto|]); (split; [assumption|]);
  intros Hpos Hnarrow; specialize (Hsep Hpos Hnarrow);
  unfold exactly_one; tauto.
Qed.

(** C10, as it is stated, fails: with range [60,130] the tempo 120 is
    accepted (as the original variant) by both accept paths, and two of the
    three candidates, 120 and 120/2, lie in the range. *)
Lemma match_result_with_two_candidates_in_range :
  let trk := sampleTrack "a" 200000 in
  let r := {| base := trk; tempo := 120; originalTempo := 120; tempoType := original |} in
  filterTracksByTempo [trk] {[ "a" := 120%Q ]} (60%Q, 130%Q) = [r] /\
  selectedTracks
    (snd (processTrackForSelection 60 130 (freshSession 1800000) trk (Some 120%Q)))
  = [r] /\
  in_range 60 130 (originalTempo r) /\ in_range 60 130 (originalTempo r / 2)%Q /\
  ~ exactly_one (in_range 60 130 (originalTempo r))
      (in_range 60 130 (originalTempo r / 2)%Q)
      (in_range 60 130 (originalTempo r * 2)%Q).
Proof.
  simpl.
  assert (H1 : in_range 60 130 120) by (apply inRangeb_true; reflexivity).
  assert (H2 : in_range 60 130 (120 / 2)) by (apply inRangeb_true; reflexivity).
  repeat split; try reflexivity; try apply H1; try apply H2.
  unfold exactly_one. tauto.
Qed.

(** C10, amended.  Every match result produced by [filterTracksByTempo], and
    every result [processTrackForSelection] adds to the selection, has at
    least one of [t], [t/2], [t*2] in the inclusive range, where [t] is its
    raw tempo; its display tempo lies in the range; and when the range is
    narrower than an octave ([maxBpm < 2 * minBpm]) and [t] is positive,
    exactly one of the three candidates lies in the range. *)
Theorem match_result_has_candidate_in_range :
  forall (minBpm maxBpm : Q) (r : trackWithTempo),
    (exists (tracks : list track) (tempos : gmap string Q),
        In r (filterTracksByTempo tracks tempos (minBpm, maxBpm)))
    \/ (exists (s : session) (trk : track) (bpm : option Q),
          In r (selectedTracks (snd (processTrackForSelection minBpm maxBpm s trk bpm)))
          /\ ~ In r (selectedTracks s)) ->
    matchResultSound minBpm maxBpm r.
Proof.
  intros minBpm maxBpm r [[tracks [tempos Hin]] | [s [trk [bpm [Hin Hnew]]]]].
  - unfold filterTracksByTempo in Hin. apply in_map_iff in Hin as [t [<- Hin]].
    apply filter_In in Hin as [_ Hf].
    destruct (tempos !! track_id t) as [q|]; [|discriminate]. simpl.
    destruct (truthy q); [|discriminate]. now apply withTempo_sound.
  - unfold processTrackForSelection in Hin.
    destruct (targetDurationMs s <=? currentDurationMs s)%N; [contradiction|].
    destruct bpm as [q|]; [|contradiction].
    destruct (anyVariantInRange minBpm maxBpm q) eqn:Hany; [|contradiction].
    simpl in Hin. apply in_app_or in Hin as [Hin | [<- | []]]; [contradiction|].
    now apply withTempo_sound.
Qed.

(** C10, amended, at the match result of scenario A. *)
Lemma match_result_has_candidate_in_range_witness :
  matchResultSound 150 170
    {| base := sampleTrack "a" 200000; tempo := 156; originalTempo := 78;
       tempoType := double_time |}.
Proof.
  apply match_result_has_candidate_in_range. left.
  exists [sampleTrack "a" 200000], {[ "a" := 78%Q ]}.
  vm_compute. left. reflexivity.
Defined.

(** ** DurationTargetAssembler *)

Lemma totalDuration_app l1 l2 :
  totalDuration (l1 ++ l2) = (totalDuration l1 + totalDuration l2)%N.
Proof.
  induction l1 as [|r l1 IH]; simpl; [reflexivity|].
  rewrite IH. lia.
Qed.

Lemma insertByMostRecent_perm x l : Permutation (x :: l) (insertByMostRecent x l).
Proof.
  induction l as [|y l IH]; simpl; [reflexivity|].
  destruct (added_at (base x) <? added_at (base y))%Z; [|reflexivity].
  rewrite perm_swap. now apply perm_skip.
Qed.

Lemma sortByMostRecent_perm l : Permutation l (sortByMostRecent l).
Proof.
  induction l as [|x l IH]; simpl; [reflexivity|].
  rewrite <- insertByMostRecent_perm. now apply perm_skip.
Qed.

Lemma totalDuration_perm l1 l2 :
  Permutation l1 l2 -> totalDuration l1 = totalDuration l2.
Proof.
  induction 1; simpl; try lia.
Qed.

Lemma accept_invariant s r :
  durationInvariant s -> durationInvariant (accept s r).
Proof.
  unfold durationInvariant. intros H. simpl.
  rewrite totalDuration_app, H. simpl. lia.
Qed.

Lemma accept_grows s r : (currentDurationMs s <= currentDurationMs (accept s r))%N.
Proof. simpl. lia. Qed.

Lemma processTrackForSelection_invariant minTempo maxTempo s t bpm :
  durationInvariant s ->
  durationInvariant (snd (processTrackForSelection minTempo maxTempo s t bpm)).
Proof.
  intros H. unfold processTrackForSelection.
  destruct (targetDurationMs s <=? currentDurationMs s)%N; [exact H|].
  destruct bpm as [q|]; [|exact H].
  destruct (anyVariantInRange minTempo maxTempo q); [|exact H].
  now apply accept_invariant.
Qed.

Lemma processTrackForSelection_grows minTempo maxTempo s t bpm :
  (currentDurationMs s <=
   currentDurationMs (snd (processTrackForSelection minTempo maxTempo s t bpm)))%N.
Proof.
  unfold processTrackForSelection.
  destruct (targetDurationMs s <=? currentDurationMs s)%N; [simpl; lia|].
  destruct bpm as [q|]; [|simpl; lia].
  destruct (anyVariantInRange minTempo maxTempo q); [|simpl; lia].
  apply accept_grows.
Qed.

Lemma savedTracksLoop_invariant minTempo maxTempo savedTempos tracks :
  forall s, durationInvariant s ->
            durationInvariant (savedTracksLoop minTempo maxTempo savedTempos tracks s).
Proof.
  induction tracks as [|t rest IH]; intros s H; simpl; [exact H|].
  destruct (targetReached s); [exact H|].
  destruct (savedTempos !! track_id t) as [bpm|]; [|now apply IH].
  destruct (anyVariantInRange minTempo maxTempo bpm); [|now apply IH].
  pose proof (accept_invariant s (withTempoSaved t minTempo maxTempo bpm) H) as H'.
  destruct (targetReached _); [exact H' | now apply IH].
Qed.

Lemma savedTracksLoop_grows minTempo maxTempo savedTempos tracks :
  forall s, (currentDurationMs s <=
             currentDurationMs (savedTracksLoop minTempo maxTempo savedTempos tracks s))%N.
Proof.
  induction tracks as [|t rest IH]; intros s; simpl; [lia|].
  destruct (targetReached s); [lia|].
  destruct (savedTempos !! track_id t) as [bpm|]; [|apply IH].
  destruct (anyVariantInRange minTempo maxTempo bpm); [|apply IH].
  pose proof (accept_grows s (withTempoSaved t minTempo maxTempo bpm)) as H'.
  destruct (targetReached _); [exact H'|].
  etransitivity; [exact H' | apply IH].
Qed.

(** The states the loop passes through are its results on the prefixes of
    the list: scanning [l1 ++ l2] is scanning [l1], then [l2]. *)
Lemma savedTracksLoop_app minTempo maxTempo savedTempos l1 l2 :
  forall s,
    savedTracksLoop minTempo maxTempo savedTempos (l1 ++ l2) s =
    savedTracksLoop minTempo maxTempo savedTempos l2
      (savedTracksLoop minTempo maxTempo savedTempos l1 s).
Proof.
  assert (Hstop : forall l s, targetReached s = true ->
            savedTracksLoop minTempo maxTempo savedTempos l s = s).
  { intros [|t l] s Hs; simpl; [reflexivity | now rewrite Hs]. }
  induction l1 as [|t rest IH]; intros s; simpl; [reflexivity|].
  destruct (targetReached s) eqn:Hs; [now rewrite Hstop|].
  destruct (savedTempos !! track_id t) as [bpm|]; [|apply IH].
  destruct (anyVariantInRange minTempo maxTempo bpm); [|apply IH].
  destruct (targetReached (accept s _)) eqn:Hs'; [now rewrite Hstop | apply IH].
Qed.

Lemma applyEvent_invariant minTempo maxTempo s e :
  durationInvariant s -> durationInvariant (applyEvent minTempo maxTempo s e).
Proof.
  intros H. destruct e as [t bpm| |savedTempos tracks]; simpl.
  - now apply processTrackForSelection_invariant.
  - unfold durationInvariant in *. simpl.
    rewrite H. apply totalDuration_perm, sortByMostRecent_perm.
  - now apply savedTracksLoop_invariant.
Qed.

Lemma applyEvent_grows minTempo maxTempo s e :
  (currentDurationMs s <= currentDurationMs (applyEvent minTempo maxTempo s e))%N.
Proof.
  destruct e as [t bpm| |savedTempos tracks]; simpl.
  - apply processTrackForSelection_grows.
  - lia.
  - apply savedTracksLoop_grows.
Qed.

Lemma runSession_invariant minTempo maxTempo evs :
  forall s, durationInvariant s -> durationInvariant (runSession minTempo maxTempo s evs).
Proof.
  induction evs as [|e evs IH]; intros s H; simpl; [exact H|].
  apply IH. now apply applyEvent_invariant.
Qed.

Lemma runSession_grows minTempo maxTempo evs :
  forall s, (currentDurationMs s <= currentDurationMs (runSession minTempo maxTempo s evs))%N.
Proof.
  induction evs as [|e evs IH]; intros s; simpl; [lia|].
  etransitivity; [apply applyEvent_grows | apply IH].
Qed.

Lemma runSession_app minTempo maxTempo s evs1 evs2 :
  runSession minTempo maxTempo s (evs1 ++ evs2) =
  runSession minTempo maxTempo (runSession minTempo maxTempo s evs1) evs2.
Proof. unfold runSession. apply fold_left_app. Qed.

(** C9.  Start a scan session with any target duration and let any sequence
    of events happen to it: estimates of the primary phase handled by
    [processTrackForSelection] in any order, the sort of the selection, and
    the saved-tracks loop of the secondary phase on any list of tracks.
    After every prefix of the sequence, and so after every accept, the
    counter [currentDurationMs] is the sum of [duration_ms || 0] over
    [selectedTracks]; and the counter never decreases from one point of the
    scan to a later one. *)
Theorem accumulated_duration_is_sum_of_selection :
  forall (minTempo maxTempo : Q) (target : N) (past future : list session_event),
    let s := runSession minTempo maxTempo (freshSession target) past in
    let s' := runSession minTempo maxTempo (freshSession target) (past ++ future) in
    currentDurationMs s = totalDuration (selectedTracks s) /\
    (currentDurationMs s <= currentDurationMs s')%N.
Proof.
  intros minTempo maxTempo target past future s s'. split.
  - apply runSession_invariant. reflexivity.
  - subst s s'. rewrite runSession_app. apply runSession_grows.
Qed.

(** ** TempoOracleClient *)

(** The number extraction on sample answers. *)
Example matchDecimal_samples :
  matchDecimal "128 BPM" = Some "128" /\
  matchDecimal "about 120.5 bpm (Tunebat)" = Some "120.5" /\
  matchDecimal "unknown" = None.
Proof. repeat split. Qed.

(** The parser rounds what it reads to a number: a long run of nines below
    300 reads as 300, and an integer above 2^53 as its even neighbour. *)
Example parseFloat_samples :
  parseFloat "128" = Finite 128 /\
  parseFloat "120.5" = Finite (241 # 2) /\
  parseFloat "299.99999999999999999" = Finite 300 /\
  parseFloat "9007199254740993" = Finite 9007199254740992 /\
  parseFloat "0.1" = Finite (3602879701896397 # 36028797018963968) /\
  parseFloat "1e23" = Finite 99999999999999991611392 /\
  parseFloat "-1.5e1" = Finite (-15) /\
  parseFloat "1.7976931348623159e308" = Infinity false /\
  parseFloat "2e-324" = Finite 0 /\
  parseFloat "unknown" = NaN /\
  parseFloat "  -Infinity" = Infinity true.
Proof. repeat split; vm_compute; reflexivity. Qed.

(** So an answer that rounds to 300 is not a valid tempo. *)
Example rounded_answer_is_not_valid :
  validBpm (parseFloat "299.99999999999999999") = false /\
  validBpm (parseFloat "299.99") = true.
Proof. split; vm_compute; reflexivity. Qed.

Example validBpm_samples :
  validBpm (Finite 128) = true /\ validBpm (Finite 300) = false /\
  validBpm (Finite 0) = false /\ validBpm NaN = false /\
  validBpm (Infinity false) = false.
Proof. repeat split. Qed.

Lemma Qltb_lt x y : Qltb x y = true <-> (x < y)%Q.
Proof.
  unfold Qltb. rewrite negb_true_iff. split.
  - intros H. apply Qnot_le_lt. intros Hle.
    apply Qle_bool_iff in Hle. congruence.
  - intros H. destruct (Qle_bool y x) eqn:E; [|reflexivity].
    apply Qle_bool_iff in E. exfalso. now apply (Qlt_not_le x y).
Qed.

(** A valid tempo lies strictly between 0 and 300. *)
Lemma validValue_bounds x q : validValue x = Some q -> (0 < q)%Q /\ (q < 300)%Q.
Proof.
  destruct x as [|n|q']; simpl; try discriminate.
  unfold validBpm. simpl.
  destruct (Qltb 0 q') eqn:E1; simpl; [|discriminate].
  destruct (Qltb q' 300) eqn:E2; simpl; [|discriminate].
  intros [= <-]. split; now apply Qltb_lt.
Qed.

Lemma validValue_validBpm x : validBpm x = true <-> is_Some (validValue x).
Proof.
  destruct x as [|n|q]; simpl.
  - split; [discriminate | intros [? ?]; discriminate].
  - unfold validBpm; simpl. destruct n; simpl;
      (split; [discriminate | intros [? ?]; discriminate]).
  - destruct (validBpm (Finite q)); split; intros H; try reflexivity;
      try discriminate; try (eexists; reflexivity).
    destruct H; discriminate.
Qed.

Lemma apiCalls_app evs1 evs2 : apiCalls (evs1 ++ evs2) = apiCalls evs1 ++ apiCalls evs2.
Proof. apply omap_app. Qed.

Lemma tierFailures_app evs1 evs2 :
  tierFailures (evs1 ++ evs2) = tierFailures evs1 ++ tierFailures evs2.
Proof. apply omap_app. Qed.

Lemma apiCalls_statusUpdate env u : apiCalls (statusUpdate env u) = [].
Proof. unfold statusUpdate. now destruct (hasLiveStatus env). Qed.

Lemma apiCalls_geminiLog env e : apiCalls (geminiLog env e) = [].
Proof. unfold geminiLog. now destruct (hasGeminiLog env). Qed.

Lemma tierFailures_statusUpdate env u : tierFailures (statusUpdate env u) = [].
Proof. unfold statusUpdate. now destruct (hasLiveStatus env). Qed.

Lemma tierFailures_geminiLog env e : tierFailures (geminiLog env e) = [].
Proof. unfold geminiLog. now destruct (hasGeminiLog env). Qed.

Create Rewrite HintDb oracle.
#[local] Hint Rewrite apiCalls_app tierFailures_app apiCalls_statusUpdate
  apiCalls_geminiLog tierFailures_statusUpdate tierFailures_geminiLog
  app_nil_r : oracle.

(** A tier issues its call unless the signal is set when the tier begins. *)
Lemma tryTier_calls env t :
  apiCalls (fst (tryTier env t)) = if aborted env (BeforeTier t) then [] else [t].
Proof.
  unfold tryTier, tierBody, statusUpdate, geminiLog.
  destruct (aborted env (BeforeTier t)), (hasLiveStatus env), (hasGeminiLog env);
    try reflexivity;
    (destruct (generateContent env t) as [m|result]; [reflexivity|]);
    (destruct (aborted env (AfterCall t)); [reflexivity|]);
    (destruct (extractBPMData result (modelName t)) as [m|d]; [reflexivity|]);
    destruct (validValue (bpm d)); reflexivity.
Qed.

(** A tier returns a value only if its call answered with that valid
    value. *)
Lemma tryTier_value env t q :
  snd (tryTier env t) = Some q -> answerValue env t = Some q.
Proof.
  unfold tryTier, tierBody, answerValue.
  destruct (aborted env (BeforeTier t)); [discriminate|].
  destruct (generateContent env t) as [m|result]; simpl; [discriminate|].
  destruct (aborted env (AfterCall t)); simpl; [discriminate|].
  destruct (extractBPMData result (modelName t)) as [m|d]; simpl; [discriminate|].
  destruct (validValue (bpm d)); simpl; [tauto | discriminate].
Qed.

(** Without cancellation a tier returns exactly what its call is worth. *)
Lemma tryTier_not_aborted env t :
  aborted env (BeforeTier t) = false ->
  aborted env (AfterCall t) = false ->
  snd (tryTier env t) = answerValue env t.
Proof.
  intros H1 H2. unfold tryTier, tierBody, answerValue. rewrite H1.
  destruct (generateContent env t) as [m|result]; simpl; [reflexivity|].
  rewrite H2.
  destruct (extractBPMData result (modelName t)) as [m|d]; simpl; [reflexivity|].
  destruct (validValue (bpm d)); reflexivity.
Qed.

(** The shape of a run that gets past the two opening checks. *)
Lemma getTrackBPMWithGemini_started env :
  geminiApiKey env <> "" ->
  aborted env BeforeStart = false ->
  getTrackBPMWithGemini env =
  let ev0 := statusUpdate env initialStatus in
  match tryTier env PRIMARY with
  | (ev1, Some q) => (ev0 ++ ev1, inr (Some q))
  | (ev1, None) =>
      match tryTier env SECONDARY with
      | (ev2, Some q) => (ev0 ++ ev1 ++ ev2, inr (Some q))
      | (ev2, None) =>
          match tryTier env TERTIARY with
          | (ev3, Some q) => (ev0 ++ ev1 ++ ev2 ++ ev3, inr (Some q))
          | (ev3, None) =>
              (ev0 ++ ev1 ++ ev2 ++ ev3 ++ [AllTiersFailed]
                 ++ statusUpdate env (setFinal None noUpdate)
                 ++ geminiLog env allFailedLogEntry,
               inr None)
          end
      end
  end.
Proof.
  intros Hkey Hstart. unfold getTrackBPMWithGemini. rewrite Hstart.
  destruct (geminiApiKey env); [contradiction | reflexivity].
Qed.

Lemma tryTier_split env t :
  tryTier env t = (fst (tryTier env t), snd (tryTier env t)).
Proof. now destruct (tryTier env t). Qed.

(** Without cancellation: the result is the first valid answer in tier
    order, and the calls made are the tiers up to it. *)
Lemma getTrackBPMWithGemini_not_aborted env :
  geminiApiKey env <> "" ->
  (forall c, aborted env c = false) ->
  snd (getTrackBPMWithGemini env) =
    inr (match answerValue env PRIMARY with
         | Some q => Some q
         | None =>
             match answerValue env SECONDARY with
             | Some q => Some q
             | None => answerValue env TERTIARY
             end
         end) /\
  apiCalls (fst (getTrackBPMWithGemini env)) =
    match answerValue env PRIMARY with
    | Some _ => [PRIMARY]
    | None =>
        match answerValue env SECONDARY with
        | Some _ => [PRIMARY; SECONDARY]
        | None => [PRIMARY; SECONDARY; TERTIARY]
        end
    end.
Proof.
  intros Hkey Hno.
  rewrite (getTrackBPMWithGemini_started env Hkey (Hno BeforeStart)).
  pose proof (fun t => tryTier_not_aborted env t (Hno _) (Hno _)) as Hval.
  pose proof (tryTier_calls env) as Hcalls.
  cbv zeta.
  rewrite (tryTier_split env PRIMARY), (tryTier_split env SECONDARY),
    (tryTier_split env TERTIARY).
  rewrite !Hval.
  destruct (answerValue env PRIMARY) as [q1|]; cbn [fst snd].
  { split; [reflexivity|]. autorewrite with oracle.
    rewrite Hcalls, Hno. reflexivity. }
  destruct (answerValue env SECONDARY) as [q2|]; cbn [fst snd].
  { split; [reflexivity|]. autorewrite with oracle.
    rewrite !Hcalls, !Hno. reflexivity. }
  destruct (answerValue env TERTIARY) as [q3|]; cbn [fst snd];
    (split; [reflexivity|]); autorewrite with oracle;
    rewrite !Hcalls, !Hno; reflexivity.
Qed.

Lemma answerValue_bounds env t q :
  answerValue env t = Some q -> (0 < q)%Q /\ (q < 300)%Q.
Proof.
  unfold answerValue. destruct (generateContent env t) as [m|r]; [discriminate|].
  destruct (extractBPMData r (modelName t)) as [m|d]; [discriminate|].
  apply validValue_bounds.
Qed.

(** C4, as it is stated, fails: it speaks of every execution, but when the
    user cancels while the call of the first tier is in flight, that call
    still yields "128", a number strictly between 0 and 300, and the
    function does not return it: the check after the call throws inside
    the tier, the later tiers are not called, and the result is [null]. *)
Lemma valid_answer_lost_to_cancellation :
  let run := getTrackBPMWithGemini cancelledDuringFirstCall in
  answerValue cancelledDuringFirstCall PRIMARY = Some 128%Q /\
  snd run = inr None /\
  snd run <> inr (Some 128%Q) /\
  apiCalls (fst run) = [PRIMARY].
Proof. repeat split; discriminate. Qed.

(** C4, amended.  In every run of [getTrackBPMWithGemini] that gets an API
    key and sees no cancellation: if the call of a tier answers with a
    number that parses to a value strictly between 0 and 300, and no earlier
    tier did, the function returns that value and calls no later tier; if a
    tier's call fails (it rejects, the answer is missing or empty, or the
    number is not valid), the next tier is called; after three failures all
    three tiers were called.  When the first tier answers "unknown" and the
    second "128 BPM", the function returns 128 and the third tier is never
    called, whatever it would have answered. *)
Theorem tier_fallback_returns_first_valid_answer :
  (forall env : oracle_env,
      geminiApiKey env <> "" ->
      (forall c, aborted env c = false) ->
      let run := getTrackBPMWithGemini env in
      (forall v, answerValue env PRIMARY = Some v ->
         snd run = inr (Some v) /\ apiCalls (fst run) = [PRIMARY]
         /\ (0 < v)%Q /\ (v < 300)%Q) /\
      (answerValue env PRIMARY = None ->
       forall v, answerValue env SECONDARY = Some v ->
         snd run = inr (Some v) /\ apiCalls (fst run) = [PRIMARY; SECONDARY]
         /\ (0 < v)%Q /\ (v < 300)%Q) /\
      (answerValue env PRIMARY = None ->
       answerValue env SECONDARY = None ->
         snd run = inr (answerValue env TERTIARY)
         /\ apiCalls (fst run) = [PRIMARY; SECONDARY; TERTIARY])) /\
  (forall third : call_outcome,
      answerValue (scenarioB third) PRIMARY = None /\
      snd (getTrackBPMWithGemini (scenarioB third)) = inr (Some 128%Q) /\
      apiCalls (fst (getTrackBPMWithGemini (scenarioB third))) = [PRIMARY; SECONDARY]).
Proof.
  split.
  - intros env Hkey Hno run.
    destruct (getTrackBPMWithGemini_not_aborted env Hkey Hno) as [Hres Hcalls].
    fold run in Hres, Hcalls. split; [|split].
    + intros v H1. rewrite Hres, Hcalls, H1.
      destruct (answerValue_bounds env PRIMARY v H1). tauto.
    + intros H1 v H2. rewrite Hres, Hcalls, H1, H2.
      destruct (answerValue_bounds env SECONDARY v H2). tauto.
    + intros H1 H2. rewrite Hres, Hcalls, H1, H2. tauto.
  - intros third. repeat split.
Qed.

(** C4 at scenario B, with a third tier whose call would reject. *)
Lemma tier_fallback_scenario_B :
  snd (getTrackBPMWithGemini (scenarioB (Rejected "never called"))) = inr (Some 128%Q)
  /\ apiCalls (fst (getTrackBPMWithGemini (scenarioB (Rejected "never called"))))
     = [PRIMARY; SECONDARY]
  /\ (0 < 128)%Q /\ (128 < 300)%Q.
Proof.
  assert (Hkey : geminiApiKey (scenarioB (Rejected "never called")) <> "")
    by discriminate.
  assert (Hno : forall c, aborted (scenarioB (Rejected "never called")) c = false)
    by reflexivity.
  destruct (proj1 tier_fallback_returns_first_valid_answer _ Hkey Hno)
    as [_ [H2 _]].
  apply H2; reflexivity.
Defined.

(** Past the two opening checks the function always returns: every throw
    inside a tier is caught by that tier's own [catch]. *)
Lemma getTrackBPMWithGemini_returns env :
  geminiApiKey env <> "" ->
  aborted env BeforeStart = false ->
  exists v, snd (getTrackBPMWithGemini env) = inr v.
Proof.
  intros Hkey Hstart. rewrite (getTrackBPMWithGemini_started env Hkey Hstart).
  cbv zeta.
  destruct (tryTier env PRIMARY) as [ev1 [q1|]]; [eexists; reflexivity|].
  destruct (tryTier env SECONDARY) as [ev2 [q2|]]; [eexists; reflexivity|].
  destruct (tryTier env TERTIARY) as [ev3 [q3|]]; eexists; reflexivity.
Qed.

Lemma getTrackBPMWithGemini_null env :
  geminiApiKey env <> "" ->
  aborted env BeforeStart = false ->
  (forall t, answerValue env t = None) ->
  snd (getTrackBPMWithGemini env) = inr None.
Proof.
  intros Hkey Hstart Hnone.
  rewrite (getTrackBPMWithGemini_started env Hkey Hstart). cbv zeta.
  destruct (tryTier env PRIMARY) as [ev1 [q1|]] eqn:E1.
  { pose proof (tryTier_value env PRIMARY q1) as H. rewrite E1 in H.
    specialize (H eq_refl). rewrite Hnone in H. discriminate. }
  destruct (tryTier env SECONDARY) as [ev2 [q2|]] eqn:E2.
  { pose proof (tryTier_value env SECONDARY q2) as H. rewrite E2 in H.
    specialize (H eq_refl). rewrite Hnone in H. discriminate. }
  destruct (tryTier env TERTIARY) as [ev3 [q3|]] eqn:E3.
  { pose proof (tryTier_value env TERTIARY q3) as H. rewrite E3 in H.
    specialize (H eq_refl). rewrite Hnone in H. discriminate. }
  reflexivity.
Qed.

(** A tier whose call rejects records one failure, with the error of the
    call, and one status record marked "error". *)
Lemma tryTier_rejected env t m :
  aborted env (BeforeTier t) = false ->
  generateContent env t = Rejected m ->
  tryTier env t =
  (statusUpdate env (setTier t "sending..." noUpdate) ++ [ApiCall t]
     ++ [TierFailed t m] ++ statusUpdate env (failureUpdate t "error"), None).
Proof.
  intros Ha Hr. unfold tryTier, tierBody. rewrite Ha, Hr.
  rewrite <- app_assoc. reflexivity.
Qed.

(** C5.  In every run of [getTrackBPMWithGemini] with a non-empty API key
    that is not cancelled before it starts: the function returns and does
    not throw, whatever the tiers do; if no tier's call gives a valid tempo
    (it rejects, or the answer is missing, empty, not a number or out of
    bounds) the function returns [null]; and when the calls of all three
    tiers reject, the three rejections are caught and recorded one per tier,
    in tier order and with the error of the call: exactly three [TierFailed]
    records on the console, exactly three status records marked "error" when
    a status callback is given, followed by the single closing
    [AllTiersFailed] record. *)
Theorem all_tiers_failed_returns_null :
  forall env : oracle_env,
    geminiApiKey env <> "" ->
    aborted env BeforeStart = false ->
    let run := getTrackBPMWithGemini env in
    (exists v, snd run = inr v) /\
    ((forall t, answerValue env t = None) -> snd run = inr None) /\
    (forall m1 m2 m3,
        (forall t, aborted env (BeforeTier t) = false) ->
        generateContent env PRIMARY = Rejected m1 ->
        generateContent env SECONDARY = Rejected m2 ->
        generateContent env TERTIARY = Rejected m3 ->
        snd run = inr None /\
        tierFailures (fst run) = [(PRIMARY, m1); (SECONDARY, m2); (TERTIARY, m3)] /\
        (hasLiveStatus env = true -> List.length (statusErrors (fst run)) = 3%nat) /\
        List.length (List.filter (fun e => match e with AllTiersFailed => true | _ => false end)
                  (fst run)) = 1%nat).
Proof.
  intros env Hkey Hstart run. split; [|split].
  - now apply getTrackBPMWithGemini_returns.
  - now apply getTrackBPMWithGemini_null.
  - intros m1 m2 m3 Hno H1 H2 H3. subst run.
    rewrite (getTrackBPMWithGemini_started env Hkey Hstart). cbv zeta.
    rewrite (tryTier_rejected env PRIMARY m1 (Hno _) H1),
      (tryTier_rejected env SECONDARY m2 (Hno _) H2),
      (tryTier_rejected env TERTIARY m3 (Hno _) H3).
    unfold statusUpdate, geminiLog.
    destruct (hasLiveStatus env), (hasGeminiLog env); cbn [fst snd];
      repeat split; try reflexivity; intros; discriminate.
Qed.

(** C5 at scenario C: the three calls reject with the same transport
    error. *)
Lemma all_tiers_failed_scenario_C :
  snd (getTrackBPMWithGemini scenarioC) = inr None /\
  tierFailures (fst (getTrackBPMWithGemini scenarioC)) =
    [(PRIMARY, "fetch failed"); (SECONDARY, "fetch failed"); (TERTIARY, "fetch failed")].
Proof.
  assert (Hkey : geminiApiKey scenarioC <> "") by discriminate.
  destruct (all_tiers_failed_returns_null scenarioC Hkey eq_refl)
    as [_ [_ H]].
  destruct (H "fetch failed" "fetch failed" "fetch failed"
              (fun t => eq_refl) eq_refl eq_refl eq_refl) as [Hr [Hf _]].
  split; assumption.
Defined.

(** Whatever the signal reads at the checks inside the tiers, a call that
    started never reports a cancellation: [processTrack] sees no exception,
    so its result is not marked cancelled. *)
Lemma processTrack_started_not_cancelled env trk (tempos : gmap string Q) :
  geminiApiKey env <> "" ->
  aborted env BeforeStart = false ->
  cancelled (fst (processTrack env trk tempos)) = false.
Proof.
  intros Hkey Hstart. unfold processTrack.
  destruct (getTrackBPMWithGemini_returns env Hkey Hstart) as [v Hv].
  rewrite Hv. destruct v; reflexivity.
Qed.

(** C6 on the code.  The signal is set while the first tier's call is in
    flight.  The check after the call throws, the tier's own [catch]
    swallows the error, the later tiers throw at their opening check and
    swallow that too, and the function returns [null] after recording
    [AllTiersFailed]: the same outcome as when all three calls reject, and
    [processTrack] does not mark the result cancelled.  Only the check
    before the start reaches the caller as a cancellation.  And no call that
    got past that first check is ever reported as cancelled. *)
Theorem cancellation_inside_tier_reported_as_all_failed :
  snd (getTrackBPMWithGemini cancelledDuringFirstCall) = inr None /\
  snd (getTrackBPMWithGemini cancelledDuringFirstCall)
    = snd (getTrackBPMWithGemini scenarioC) /\
  apiCalls (fst (getTrackBPMWithGemini cancelledDuringFirstCall)) = [PRIMARY] /\
  tierFailures (fst (getTrackBPMWithGemini cancelledDuringFirstCall)) =
    [(PRIMARY, "Request cancelled after PRIMARY API call");
     (SECONDARY, "Request cancelled during SECONDARY tier");
     (TERTIARY, "Request cancelled during TERTIARY tier")] /\
  In AllTiersFailed (fst (getTrackBPMWithGemini cancelledDuringFirstCall)) /\
  cancelled (fst (processTrack cancelledDuringFirstCall (sampleTrack "a" 200000) ∅))
    = false /\
  snd (getTrackBPMWithGemini cancelledBeforeStart)
    = inl "Request cancelled before starting" /\
  cancelled (fst (processTrack cancelledBeforeStart (sampleTrack "a" 200000) ∅))
    = true /\
  (forall (env : oracle_env) (trk : track) (tempos : gmap string Q),
      geminiApiKey env <> "" ->
      aborted env BeforeStart = false ->
      cancelled (fst (processTrack env trk tempos)) = false).
Proof.
  repeat split; try reflexivity.
  - vm_compute. tauto.
  - intros env trk tempos. apply processTrack_started_not_cancelled.
Qed.

(** ** ConcurrentScanScheduler *)

Lemma refillers_le_size (m : gmap nat on_settle) : refillers m <= size m.
Proof. apply map_size_filter. Qed.

Lemma refillers_delete_le (m : gmap nat on_settle) p :
  refillers (delete p m) <= refillers m.
Proof.
  unfold refillers. rewrite map_filter_delete, map_size_delete.
  destruct (filter _ m !! p); simpl; lia.
Qed.

Lemma refillers_delete_StartNext (m : gmap nat on_settle) p :
  m !! p = Some StartNext -> S (refillers (delete p m)) = refillers m.
Proof.
  intros Hp. unfold refillers. rewrite map_filter_delete.
  assert (Hf : filter (fun kv : nat * on_settle => kv.2 = StartNext) m !! p
               = Some StartNext)
    by (apply map_lookup_filter_Some; split; [exact Hp | reflexivity]).
  rewrite map_size_delete, Hf. simpl.
  assert (size (filter (fun kv : nat * on_settle => kv.2 = StartNext) m) <> 0).
  { apply map_size_ne_0_lookup. exists p. rewrite Hf. eauto. }
  lia.
Qed.

Lemma refillers_insert_DeleteOnly (m : gmap nat on_settle) i :
  refillers (<[i := DeleteOnly]> m) <= refillers m.
Proof.
  unfold refillers. rewrite map_filter_insert_False by (simpl; discriminate).
  apply (refillers_delete_le m i).
Qed.

Lemma size_insert_le (m : gmap nat on_settle) i k :
  size (<[i := k]> m) <= S (size m).
Proof. rewrite map_size_insert. destruct (m !! i); simpl; lia. Qed.

Lemma batchInvariant_start n s :
  batchInvariant n s ->
  (currentIndex s <? n)%nat && (size (activePromises s) <? maxConcurrent)%nat = true ->
  batchInvariant n (startNextTrack StartNext s).
Proof.
  intros (Hsize & Hmax & Hn & Hfresh & Hstarted) Hguard.
  apply andb_true_iff in Hguard as [Hlt Hroom].
  apply Nat.ltb_lt in Hlt. apply Nat.ltb_lt in Hroom.
  unfold batchInvariant, startNextTrack;
    cbn [currentIndex activePromises started].
  repeat split.
  - rewrite map_size_insert_None by (apply Hfresh; lia). lia.
  - lia.
  - lia.
  - intros p Hp. rewrite lookup_insert_ne by lia. apply Hfresh. lia.
  - rewrite Hstarted, seq_S. reflexivity.
Qed.

Lemma initialBatch_invariant n fuel :
  forall s, batchInvariant n s -> batchInvariant n (initialBatch fuel n s).
Proof.
  induction fuel as [|fuel IH]; intros s H; simpl; [exact H|].
  destruct ((currentIndex s <? n)%nat && (size (activePromises s) <? maxConcurrent)%nat)
    eqn:Hguard; [|exact H].
  destruct (signalAborted s); [exact H|].
  apply IH. now apply batchInvariant_start.
Qed.

Lemma initialBatch_flags n fuel :
  forall s, signalAborted (initialBatch fuel n s) = signalAborted s
            /\ returned (initialBatch fuel n s) = returned s.
Proof.
  induction fuel as [|fuel IH]; intros s; simpl; [tauto|].
  destruct ((currentIndex s <? n)%nat && (size (activePromises s) <? maxConcurrent)%nat);
    [|tauto].
  destruct (signalAborted s) eqn:Ha; [tauto|].
  destruct (IH (startNextTrack StartNext s)) as [H1 H2].
  rewrite H1, H2. simpl. tauto.
Qed.

(** The fuel is enough: the initial loop stops because its condition is
    false or because of the [break], never because the fuel ran out. *)
Lemma initialBatch_exit n fuel :
  forall s, n <= fuel + currentIndex s ->
    let s' := initialBatch fuel n s in
    (currentIndex s' <? n)%nat && (size (activePromises s') <? maxConcurrent)%nat = false
    \/ signalAborted s' = true.
Proof.
  induction fuel as [|fuel IH]; intros s Hfuel; simpl.
  - left. apply andb_false_iff. left. apply Nat.ltb_ge. simpl in Hfuel. lia.
  - destruct ((currentIndex s <? n)%nat && (size (activePromises s) <? maxConcurrent)%nat)
      eqn:Hguard; [|now left].
    destruct (signalAborted s) eqn:Ha; [now right|].
    apply IH. simpl. lia.
Qed.

Lemma emptyScheduler_batchInvariant n a :
  batchInvariant n {| currentIndex := 0; activePromises := ∅; started := [];
                      signalAborted := a; returned := false |}.
Proof.
  unfold batchInvariant, maxConcurrent;
    cbn [currentIndex activePromises started].
  rewrite map_size_empty. repeat split; lia.
Qed.

(** Without cancellation the initial loop starts the first
    [min tracksLength maxConcurrent] tracks. *)
Lemma startScheduler_count n :
  currentIndex (startScheduler n false) = Nat.min n maxConcurrent.
Proof.
  destruct n as [|n]; [reflexivity|].
  unfold startScheduler. cbn [currentIndex].
  set (s0 := {| currentIndex := 0; activePromises := ∅; started := [];
                signalAborted := false; returned := false |}).
  pose proof (initialBatch_invariant (S n) (S n) s0
                (emptyScheduler_batchInvariant _ _))
    as (Hsize & Hmax & Hn & _ & _).
  destruct (initialBatch_exit (S n) (S n) s0) as [Hexit | Hab].
  - simpl. lia.
  - apply andb_false_iff in Hexit as [Hexit | Hexit];
      apply Nat.ltb_ge in Hexit; lia.
  - destruct (initialBatch_flags (S n) (S n) s0) as [Hf _].
    rewrite Hf in Hab. discriminate.
Qed.

Lemma startScheduler_invariant n a : schedInvariant (startScheduler n a).
Proof.
  destruct n as [|n].
  - unfold schedInvariant, startScheduler, refillers;
      cbn [currentIndex activePromises started signalAborted returned].
    rewrite map_filter_empty, map_size_empty. unfold maxConcurrent.
    repeat split; try lia.
  - unfold startScheduler.
    set (s0 := {| currentIndex := 0; activePromises := ∅; started := [];
                  signalAborted := a; returned := false |}).
    pose proof (initialBatch_invariant (S n) (S n) s0
                  (emptyScheduler_batchInvariant _ _))
      as (Hsize & Hmax & Hn & _ & Hstarted).
    pose proof (refillers_le_size (activePromises (initialBatch (S n) (S n) s0))).
    unfold schedInvariant; cbn [currentIndex activePromises started
                                  signalAborted returned].
    split; [lia|]. split; [unfold maxConcurrent in *; lia|].
    split; [assumption|].
    intros Hret Hna. unfold keepsWaiting in Hret. rewrite Hna in Hret.
    rewrite andb_true_r in Hret. apply negb_true_iff, Nat.ltb_ge in Hret.
    apply map_size_empty_inv. lia.
Qed.

Lemma in_flight_nonempty (m : gmap nat on_settle) p k :
  m !! p = Some k -> size m <> 0 /\ m <> ∅.
Proof.
  intros Hp. split.
  - apply map_size_ne_0_lookup. exists p. rewrite Hp. eauto.
  - intros ->. rewrite lookup_empty in Hp. discriminate.
Qed.

Lemma schedStep_invariant n s e s' :
  schedInvariant s -> schedStep n s e = Some s' -> schedInvariant s'.
Proof.
  intros (Hcap & Hrefill & Hstarted & Hret) Hstep.
  destruct e as [p| |]; cbn [schedStep] in Hstep.
  - destruct (activePromises s !! p) as [k|] eqn:Hp; [|discriminate].
    destruct (in_flight_nonempty _ _ _ Hp) as [Hsize Hne].
    assert (Hdel : size (delete p (activePromises s)) = pred (size (activePromises s)))
      by (apply map_size_delete_Some; eauto).
    assert (Hquiet : returned s = true -> signalAborted s = false -> False)
      by (intros H1 H2; apply Hne; now apply Hret).
    destruct k.
    + pose proof (refillers_delete_StartNext _ _ Hp) as Hone.
      cbn [setActive currentIndex signalAborted] in Hstep.
      destruct ((currentIndex s <? n)%nat && negb (signalAborted s));
        injection Hstep as <-; unfold schedInvariant, startNextTrack, setActive;
        cbn [currentIndex activePromises started signalAborted returned].
      * pose proof (size_insert_le (delete p (activePromises s)) (currentIndex s)
                      DeleteOnly).
        pose proof (refillers_insert_DeleteOnly (delete p (activePromises s))
                      (currentIndex s)).
        split; [lia|]. split; [lia|].
        split; [rewrite Hstarted, seq_S; reflexivity|].
        intros H1 H2. destruct (Hquiet H1 H2).
      * split; [lia|]. split; [lia|]. split; [assumption|].
        intros H1 H2. destruct (Hquiet H1 H2).
    + injection Hstep as <-. unfold schedInvariant, setActive;
        cbn [currentIndex activePromises started signalAborted returned].
      pose proof (refillers_delete_le (activePromises s) p).
      split; [lia|]. split; [lia|]. split; [assumption|].
      intros H1 H2. destruct (Hquiet H1 H2).
  - injection Hstep as <-. unfold schedInvariant;
      cbn [currentIndex activePromises started signalAborted returned].
    repeat split; try assumption. discriminate.
  - destruct (returned s) eqn:Hr; injection Hstep as <-.
    + unfold schedInvariant. rewrite Hr. tauto.
    + unfold schedInvariant;
        cbn [currentIndex activePromises started signalAborted returned].
      repeat split; try assumption.
      intros Hw Hna. unfold keepsWaiting in Hw. rewrite Hna in Hw.
      rewrite andb_true_r in Hw. apply negb_true_iff, Nat.ltb_ge in Hw.
      apply map_size_empty_inv. lia.
Qed.

Lemma schedRun_invariant n evs :
  forall s s', schedInvariant s -> schedRun n s evs = Some s' -> schedInvariant s'.
Proof.
  induction evs as [|e evs IH]; intros s s' Hinv Hrun; simpl in Hrun.
  - now injection Hrun as <-.
  - destruct (schedStep n s e) as [s1|] eqn:Hstep; [|discriminate].
    apply (IH s1); [|assumption]. now apply (schedStep_invariant n s e).
Qed.

(** Every state a call of the scheduler reaches satisfies the invariant. *)
Lemma reachable_invariant n a evs s :
  schedRun n (startScheduler n a) evs = Some s -> schedInvariant s.
Proof. apply schedRun_invariant, startScheduler_invariant. Qed.

(** C3.  For every number of tracks, whether or not the signal is already
    set when the call starts, and for every sequence of events the event
    loop delivers (promises settling in any order, the user aborting at any
    moment, the waiting loop waking up), the number of [processTrack]
    promises in flight is at most [maxConcurrent] = 30 in the state
    reached. *)
Theorem in_flight_operations_never_exceed_cap :
  forall (tracksLength : nat) (abortedAtStart : bool)
         (evs : list sched_event) (s : scheduler),
    schedRun tracksLength (startScheduler tracksLength abortedAtStart) evs = Some s ->
    size (activePromises s) <= maxConcurrent /\ maxConcurrent = 30.
Proof.
  intros n a evs s Hrun. split; [|reflexivity].
  now destruct (reachable_invariant n a evs s Hrun) as [Hcap _].
Qed.

(** C3 on 61 tracks after seventeen promises have settled: the window is
    full. *)
Lemma in_flight_cap_witness :
  exists s : scheduler,
    schedRun 61 (startScheduler 61 false) (settleRange 0 17) = Some s /\
    size (activePromises s) = 30 /\
    size (activePromises s) <= maxConcurrent.
Proof.
  destruct (schedRun 61 (startScheduler 61 false) (settleRange 0 17)) as [s|] eqn:Hrun;
    [|vm_compute in Hrun; discriminate].
  exists s. split; [reflexivity|]. split.
  - vm_compute in Hrun. injection Hrun as <-. vm_compute. reflexivity.
  - apply (in_flight_operations_never_exceed_cap 61 false (settleRange 0 17) s Hrun).
Defined.

(** C2 on the code.  The callback attached to a promise that a callback
    started only removes that promise; it starts nothing.  So the window is
    refilled once per promise of the initial loop and then drains: in every
    state the scheduler reaches, at most [2 * maxConcurrent] = 60 tracks
    were ever started, and the tracks started are the first ones of the
    list.  With 61 tracks and no cancellation: when promise 30 settles after
    the initial thirty, 29 promises are in flight, track 60 waits, and
    nothing is started; after all sixty promises have settled the waiting
    loop wakes up and the function returns with nothing in flight, without
    having started track 60; and no sequence of events ever starts it.
    What does hold: when the function has returned and the signal is not
    set, no promise is in flight. *)
Theorem rolling_window_abandons_items_beyond_sixty :
  (forall (tracksLength : nat) (abortedAtStart : bool)
          (evs : list sched_event) (s : scheduler),
      schedRun tracksLength (startScheduler tracksLength abortedAtStart) evs = Some s ->
      currentIndex s <= 2 * maxConcurrent /\
      started s = seq 0 (currentIndex s) /\
      (returned s = true -> signalAborted s = false -> activePromises s = ∅)) /\
  (exists s : scheduler,
      schedRun 61 (startScheduler 61 false) (settleRange 0 30 ++ [Settle 30]) = Some s /\
      size (activePromises s) = 29 /\ currentIndex s = 60 /\ returned s = false) /\
  (exists s : scheduler,
      schedRun 61 (startScheduler 61 false) (settleRange 0 60 ++ [Wake]) = Some s /\
      returned s = true /\ signalAborted s = false /\ activePromises s = ∅ /\
      started s = seq 0 60) /\
  (forall (evs : list sched_event) (s : scheduler),
      schedRun 61 (startScheduler 61 false) evs = Some s -> ~ In 60 (started s)).
Proof.
  split; [|split; [|split]].
  - intros n a evs s Hrun.
    destruct (reachable_invariant n a evs s Hrun) as (_ & Hrefill & Hstarted & Hret).
    split; [lia|]. split; assumption.
  - destruct (schedRun 61 (startScheduler 61 false) (settleRange 0 30 ++ [Settle 30]))
      as [s|] eqn:Hrun; [|vm_compute in Hrun; discriminate].
    exists s. split; [reflexivity|].
    vm_compute in Hrun. injection Hrun as <-. repeat split.
  - destruct (schedRun 61 (startScheduler 61 false) (settleRange 0 60 ++ [Wake]))
      as [s|] eqn:Hrun; [|vm_compute in Hrun; discriminate].
    exists s. split; [reflexivity|].
    vm_compute in Hrun. injection Hrun as <-. repeat split.
  - intros evs s Hrun.
    destruct (reachable_invariant 61 false evs s Hrun) as (_ & Hrefill & Hstarted & _).
    rewrite Hstarted, in_seq. unfold maxConcurrent in Hrefill. lia.
Qed.

(** ** RateLimitedCatalogClient *)

Lemma countFetches_app evs1 evs2 :
  countFetches (evs1 ++ evs2) = countFetches evs1 + countFetches evs2.
Proof. unfold countFetches. now rewrite List.filter_app, List.length_app. Qed.

Lemma countRefreshes_app evs1 evs2 :
  countRefreshes (evs1 ++ evs2) = countRefreshes evs1 + countRefreshes evs2.
Proof. unfold countRefreshes. now rewrite List.filter_app, List.length_app. Qed.

(** One 401 answer met by a successful refresh: one more fetch, one more
    refresh, and the outcome is that of the retransmitted request. *)
Lemma spGet_unauthorized path res fetches refreshes :
  status res = 401 ->
  let first := spGet path (Response res :: fetches) (RefreshOk :: refreshes) in
  let again := spGet path fetches refreshes in
  snd first = snd again /\
  countFetches (fst first) = S (countFetches (fst again)) /\
  countRefreshes (fst first) = S (countRefreshes (fst again)).
Proof.
  intros H401. cbn [spGet]. rewrite H401. cbn [Nat.eqb refreshSpotifyToken].
  destruct (spGet path fetches refreshes) as [evs result].
  cbn [fst snd]. rewrite !countFetches_app, !countRefreshes_app.
  repeat split.
Qed.

Lemma spPost_unauthorized path res fetches refreshes :
  status res = 401 ->
  let first := spPost path (Response res :: fetches) (RefreshOk :: refreshes) in
  let again := spPost path fetches refreshes in
  snd first = snd again /\
  countFetches (fst first) = S (countFetches (fst again)) /\
  countRefreshes (fst first) = S (countRefreshes (fst again)).
Proof.
  intros H401. cbn [spPost]. rewrite H401. cbn [Nat.eqb refreshSpotifyToken].
  destruct (spPost path fetches refreshes) as [evs result].
  cbn [fst snd]. rewrite !countFetches_app, !countRefreshes_app.
  repeat split.
Qed.

(** Any number of 401 answers in a row, each met by a successful refresh:
    as many refreshes and retransmissions as there were 401 answers. *)
Lemma spGet_unauthorized_run path l :
  Forall is401 l ->
  forall fetches refreshes,
    let first := spGet path (l ++ fetches)
                   (repeat RefreshOk (List.length l) ++ refreshes) in
    let again := spGet path fetches refreshes in
    snd first = snd again /\
    countFetches (fst first) = List.length l + countFetches (fst again) /\
    countRefreshes (fst first) = List.length l + countRefreshes (fst again).
Proof.
  induction 1 as [|f l [res [-> H401]] _ IH]; intros fetches refreshes.
  - repeat split.
  - destruct (IH fetches refreshes) as (IH1 & IH2 & IH3).
    destruct (spGet_unauthorized path res (l ++ fetches)
                (repeat RefreshOk (List.length l) ++ refreshes) H401)
      as (H1 & H2 & H3).
    cbn zeta in *. cbn [List.length repeat app].
    rewrite H1, H2, H3, IH1, IH2, IH3. repeat split.
Qed.

Lemma spPost_unauthorized_run path l :
  Forall is401 l ->
  forall fetches refreshes,
    let first := spPost path (l ++ fetches)
                   (repeat RefreshOk (List.length l) ++ refreshes) in
    let again := spPost path fetches refreshes in
    snd first = snd again /\
    countFetches (fst first) = List.length l + countFetches (fst again) /\
    countRefreshes (fst first) = List.length l + countRefreshes (fst again).
Proof.
  induction 1 as [|f l [res [-> H401]] _ IH]; intros fetches refreshes.
  - repeat split.
  - destruct (IH fetches refreshes) as (IH1 & IH2 & IH3).
    destruct (spPost_unauthorized path res (l ++ fetches)
                (repeat RefreshOk (List.length l) ++ refreshes) H401)
      as (H1 & H2 & H3).
    cbn zeta in *. cbn [List.length repeat app].
    rewrite H1, H2, H3, IH1, IH2, IH3. repeat split.
Qed.

(** A refresh that fails: its error reaches the caller, after one fetch and
    one refresh; the request is not sent again. *)
Lemma spGet_refresh_fails path res fetches o refreshes message :
  status res = 401 ->
  refreshError o = Some message ->
  let run := spGet path (Response res :: fetches) (o :: refreshes) in
  snd run = Threw message /\
  countFetches (fst run) = 1 /\ countRefreshes (fst run) = 1.
Proof.
  intros H401 Herr. cbn [spGet]. rewrite H401. cbn [Nat.eqb].
  destruct o; cbn in Herr; try discriminate; injection Herr as <-;
    repeat split.
Qed.

Lemma spPost_refresh_fails path res fetches o refreshes message :
  status res = 401 ->
  refreshError o = Some message ->
  let run := spPost path (Response res :: fetches) (o :: refreshes) in
  snd run = Threw message /\
  countFetches (fst run) = 1 /\ countRefreshes (fst run) = 1.
Proof.
  intros H401 Herr. cbn [spPost]. rewrite H401. cbn [Nat.eqb].
  destruct o; cbn in Herr; try discriminate; injection Herr as <-;
    repeat split.
Qed.

(** C7, as it is stated, fails: a request answered 401, 401, 200 makes
    [spGet], and [spPost], refresh the token twice and send the request
    three times; the second 401 is met by a second refresh-and-retry. *)
Lemma second_unauthorized_response_refreshes_again :
  let get := spGet "me" [unauthorized; unauthorized; success "{}"]
               [RefreshOk; RefreshOk] in
  let post := spPost "users/u/playlists" [unauthorized; unauthorized; success "{}"]
                [RefreshOk; RefreshOk] in
  snd get = Returned "{}" /\ countRefreshes (fst get) = 2 /\ countFetches (fst get) = 3
  /\ snd post = Returned "{}" /\ countRefreshes (fst post) = 2
  /\ countFetches (fst post) = 3
  /\ ~ (countRefreshes (fst get) = 1) /\ ~ (countRefreshes (fst post) = 1).
Proof. repeat split; discriminate. Qed.

(** C7, amended.  For [spGet] and for [spPost]: a 401 answer makes the
    client refresh the token once and send the same request again, and the
    outcome of the request is the outcome of that retransmission; if the
    refresh fails, its error ("Refresh failed" when the token endpoint
    answers with an error status) is thrown to the caller and the request
    is not sent again; and the refresh-and-retry is repeated for every
    further 401 answer, without a cap: after [k] consecutive 401 answers,
    each met by a successful refresh, the client has refreshed [k] times and
    retransmitted [k] times. *)
Theorem unauthorized_response_refreshes_once_and_retransmits :
  forall (path : string) (l fetches : list fetch_outcome)
         (refreshes : list refresh_outcome),
    Forall is401 l ->
    (let first := spGet path (l ++ fetches)
                    (repeat RefreshOk (List.length l) ++ refreshes) in
     let again := spGet path fetches refreshes in
     snd first = snd again /\
     countFetches (fst first) = List.length l + countFetches (fst again) /\
     countRefreshes (fst first) = List.length l + countRefreshes (fst again)) /\
    (let first := spPost path (l ++ fetches)
                    (repeat RefreshOk (List.length l) ++ refreshes) in
     let again := spPost path fetches refreshes in
     snd first = snd again /\
     countFetches (fst first) = List.length l + countFetches (fst again) /\
     countRefreshes (fst first) = List.length l + countRefreshes (fst again)) /\
    (forall (res : http_response) (o : refresh_outcome) (message : string),
        status res = 401 ->
        refreshError o = Some message ->
        (let run := spGet path (Response res :: fetches) (o :: refreshes) in
         snd run = Threw message /\
         countFetches (fst run) = 1 /\ countRefreshes (fst run) = 1) /\
        (let run := spPost path (Response res :: fetches) (o :: refreshes) in
         snd run = Threw message /\
         countFetches (fst run) = 1 /\ countRefreshes (fst run) = 1)) /\
    refreshError RefreshNotOk = Some "Refresh failed".
Proof.
  intros path l fetches refreshes Hl.
  split; [now apply spGet_unauthorized_run|].
  split; [now apply spPost_unauthorized_run|].
  split; [|reflexivity].
  intros res o message H401 Herr. split.
  - now apply spGet_refresh_fails.
  - now apply spPost_refresh_fails.
Qed.

(** C7, amended, at one 401 answer followed by a success, and at a refused
    refresh. *)
Lemma unauthorized_response_witness :
  snd (spGet "me" [unauthorized; success "{}"] [RefreshOk]) = Returned "{}" /\
  countRefreshes (fst (spGet "me" [unauthorized; success "{}"] [RefreshOk])) = 1 /\
  snd (spGet "me" [unauthorized; success "{}"] [RefreshNotOk]) = Threw "Refresh failed".
Proof.
  assert (H401 : Forall is401 [unauthorized]).
  { constructor; [|constructor]. eexists. split; reflexivity. }
  destruct (unauthorized_response_refreshes_once_and_retransmits
              "me" [unauthorized] [success "{}"] [] H401)
    as ((H1 & _ & H3) & _ & Hfail & Hmsg).
  split; [exact H1|]. split; [exact H3|].
  destruct (Hfail {| status := 401; retryAfter := None; body := "" |}
              RefreshNotOk "Refresh failed" eq_refl Hmsg) as [(Hthrow & _) _].
  exact Hthrow.
Defined.

(** *** Pagination *)

(** [loadPlaylists] always returns: the fuel given to its loop is enough. *)
Lemma loadPlaylistsLoop_returns {A : Type} (server : listing A) maxPlaylists fuel :
  forall out sent,
    maxPlaylists <= fuel + List.length out ->
    exists r, loadPlaylistsLoop (S fuel) server maxPlaylists out sent = Some r.
Proof.
  induction fuel as [|fuel IH]; intros out sent Hfuel;
    cbn [loadPlaylistsLoop].
  - destruct (List.length out <? maxPlaylists)%nat eqn:E; [|eauto].
    apply Nat.ltb_lt in E. simpl in Hfuel. lia.
  - destruct (List.length out <? maxPlaylists)%nat; [|eauto].
    destruct ((List.length (server _) =? 20)%nat
              && (List.length (out ++ server _) <? maxPlaylists)%nat) eqn:E; [|eauto].
    apply IH. apply andb_true_iff in E as [E _]. apply Nat.eqb_eq in E.
    rewrite List.length_app, E. lia.
Qed.

Lemma loadPlaylists_returns {A : Type} (server : listing A) maxPlaylists :
  exists r, loadPlaylists server maxPlaylists = Some r.
Proof. apply loadPlaylistsLoop_returns. simpl. lia. Qed.

Lemma stopsAtFirstShortPage_snoc {A : Type} (server : listing A) size sent rq :
  Forall (fun r => limit r = size /\ List.length (server r) = size) sent ->
  limit rq = size -> List.length (server rq) <> size ->
  stopsAtFirstShortPage server size (sent ++ [rq]).
Proof.
  induction 1 as [|r sent [Hl Hf] _ IH]; intros Hrq Hshort; cbn [app].
  - simpl. tauto.
  - specialize (IH Hrq Hshort).
    remember (sent ++ [rq]) as rest eqn:E. destruct rest as [|p rest].
    + destruct sent; discriminate.
    + cbn [stopsAtFirstShortPage]. tauto.
Qed.

(** The sibling listing does what the specification says: the requests
    [getAllSavedTracks] sends all ask for 10 items, and it stops at the
    first page that does not hold 10. *)
Lemma getAllSavedTracksLoop_stops {A : Type} (server : listing A) select fuel :
  forall offset items sent result,
    Forall (fun r => limit r = 10 /\ List.length (server r) = 10) sent ->
    getAllSavedTracksLoop fuel server select offset items sent = Some result ->
    stopsAtFirstShortPage server 10 (snd result).
Proof.
  induction fuel as [|fuel IH]; intros offset items sent result Hsent Hrun;
    cbn [getAllSavedTracksLoop] in Hrun; [discriminate|].
  cbv zeta in Hrun.
  destruct (List.length (server {| limit := 10; offset := offset |}) =? 10)%nat eqn:E.
  - apply Nat.eqb_eq in E. eapply IH; [|exact Hrun].
    apply Forall_app. split; [assumption|]. constructor; [|constructor]. now split.
  - apply Nat.eqb_neq in E. injection Hrun as <-. cbn [snd].
    now apply stopsAtFirstShortPage_snoc.
Qed.

Lemma getAllSavedTracks_stops {A : Type} (server : listing A) select fuel result :
  getAllSavedTracks fuel server select = Some result ->
  stopsAtFirstShortPage server 10 (snd result).
Proof. apply getAllSavedTracksLoop_stops. constructor. Qed.

Lemma sliceServer_length {A : Type} (all : list A) (l o : nat) :
  List.length (sliceServer all {| limit := l; offset := o |})
  = Nat.min l (List.length all - o).
Proof.
  unfold sliceServer. cbn [limit offset].
  now rewrite List.length_firstn, List.length_skipn.
Qed.

(** On a server that holds a finite list the loop returns, given fuel for
    one round per ten items and one more. *)
Lemma getAllSavedTracksLoop_returns {A : Type} (all : list A) select fuel :
  forall start items sent,
    List.length all < start + 10 * S fuel ->
    exists r, getAllSavedTracksLoop (S fuel) (sliceServer all) select start items sent
              = Some r.
Proof.
  induction fuel as [|fuel IH]; intros start items sent Hfuel;
    cbn [getAllSavedTracksLoop]; cbv zeta; rewrite sliceServer_length.
  - destruct (Nat.min 10 (List.length all - start) =? 10)%nat eqn:E; [|eauto].
    apply Nat.eqb_eq in E. lia.
  - destruct (Nat.min 10 (List.length all - start) =? 10)%nat eqn:E; [|eauto].
    apply IH. lia.
Qed.

(** C8 on the code.  [loadPlaylists] asks for pages of 50 and tests the
    page length against 20.  For a user with 70 playlists the first page is
    full, 50 items of 50, and the loop stops: the 20 remaining playlists are
    never requested.  For a user with 20 playlists the first page is short,
    20 items of 50, and the loop asks for another page.  The sibling
    [getAllSavedTracks] asks for pages of 10, tests against 10, and so stops
    exactly at the first short page, on every server. *)
Theorem loadPlaylists_tests_page_length_against_twenty :
  (let server := sliceServer (seq 0 70) in
   let first := {| limit := 50; offset := 0 |} in
   loadPlaylists server 100 = Some (seq 0 50, [first]) /\
   List.length (server first) = limit first /\
   ~ stopsAtFirstShortPage server 50 [first]) /\
  (let server := sliceServer (seq 0 20) in
   let first := {| limit := 50; offset := 0 |} in
   let second := {| limit := 50; offset := 20 |} in
   loadPlaylists server 100 = Some (seq 0 20, [first; second]) /\
   List.length (server first) = 20 /\
   ~ stopsAtFirstShortPage server 50 [first; second]) /\
  (forall (A : Type) (server : listing A) (select : A -> option track)
          (fuel : nat) (result : list track * list page_request),
      getAllSavedTracks fuel server select = Some result ->
      stopsAtFirstShortPage server 10 (snd result)).
Proof.
  split; [|split].
  - cbv zeta. split; [reflexivity|]. split; [reflexivity|].
    simpl. intros [_ H]. apply H. reflexivity.
  - cbv zeta. split; [reflexivity|]. split; [reflexivity|].
    simpl. intros [_ [H _]]. discriminate.
  - intros A server select fuel result. apply getAllSavedTracks_stops.
Qed.

(** ** Tiny helpers *)

Lemma chunkLoop_spec {A : Type} (arr : list A) (size : nat) :
  0 < size ->
  forall fuel i out,
    List.length arr - i < fuel ->
    exists rest,
      chunkLoop fuel arr size i out = Some (out ++ rest) /\
      concat rest = skipn i arr /\
      Forall (fun c => 1 <= List.length c <= size) rest /\
      Forall (fun c => List.length c = size) (removelast rest).
Proof.
  intros Hsize. induction fuel as [|fuel IH]; intros i out Hfuel; [lia|].
  cbn [chunkLoop]. destruct (i <? List.length arr)%nat eqn:Hi.
  - apply Nat.ltb_lt in Hi.
    destruct (IH (i + size) (out ++ [firstn size (skipn i arr)])) as
      (rest & Hrun & Hcat & Hlen & Hfull); [lia|].
    exists (firstn size (skipn i arr) :: rest).
    split; [rewrite Hrun, <- app_assoc; reflexivity|].
    split.
    { cbn [concat]. rewrite Hcat.
      replace (i + size) with (size + i) by lia.
      rewrite <- List.skipn_skipn. apply List.firstn_skipn. }
    split.
    { constructor; [|exact Hlen].
      rewrite List.length_firstn, List.length_skipn. lia. }
    destruct rest as [|c rest]; [constructor|].
    cbn [removelast]. constructor; [|exact Hfull].
    rewrite List.length_firstn, List.length_skipn.
    (* a further chunk exists, so the index after this one is inside *)
    assert (Hmore : i + size < List.length arr).
    { destruct (Nat.lt_ge_cases (i + size) (List.length arr)) as [|Hge]; [assumption|].
      rewrite List.skipn_all2 in Hcat by lia.
      apply (f_equal (@List.length A)) in Hcat.
      cbn [concat] in Hcat. rewrite List.length_app in Hcat.
      apply Forall_inv in Hlen. cbn [List.length] in Hcat. lia. }
    lia.
  - apply Nat.ltb_ge in Hi. exists []. rewrite app_nil_r.
    split; [reflexivity|]. split; [|split; constructor].
    cbn [concat]. now rewrite List.skipn_all2.
Qed.

Lemma chunkLoop_zero_size {A : Type} (arr : list A) :
  arr <> [] -> forall fuel out, chunkLoop fuel arr 0 0 out = None.
Proof.
  intros Hne. induction fuel as [|fuel IH]; intros out; [reflexivity|].
  cbn [chunkLoop]. destruct arr as [|x arr]; [contradiction|].
  cbn [List.length Nat.ltb Nat.leb Nat.add]. apply IH.
Qed.

(** X1.  [chunk(arr, size)] with a positive [size] returns, and the chunks
    it returns are a partition of [arr] in order: their concatenation is
    [arr], no chunk is empty or longer than [size], and every chunk but the
    last has exactly [size] elements.  With [size] zero and a non-empty
    [arr] the loop never ends, whatever the number of rounds. *)
Theorem chunk_partitions_the_list :
  forall (A : Type) (arr : list A),
    (forall size : nat,
        0 < size ->
        exists out : list (list A),
          chunk arr size = Some out /\
          concat out = arr /\
          Forall (fun c => 1 <= List.length c <= size) out /\
          Forall (fun c => List.length c = size) (removelast out)) /\
    (arr <> [] -> forall fuel : nat, chunkLoop fuel arr 0 0 [] = None).
Proof.
  intros A arr. split.
  - intros size Hsize.
    destruct (chunkLoop_spec arr size Hsize (S (List.length arr)) 0 [])
      as (rest & Hrun & Hcat & Hlen & Hfull); [lia|].
    exists rest. repeat split; assumption.
  - intros Hne fuel. now apply chunkLoop_zero_size.
Qed.

(** X1 on 250 URIs in chunks of 100. *)
Lemma chunk_partitions_witness :
  exists out : list (list nat),
    chunk (seq 0 250) 100 = Some out /\ concat out = seq 0 250 /\
    List.map (@List.length nat) out = [100; 100; 50].
Proof.
  destruct (proj1 (chunk_partitions_the_list nat (seq 0 250)) 100) as
    (out & Hrun & Hcat & _); [lia|].
  exists out. split; [exact Hrun|]. split; [exact Hcat|].
  vm_compute in Hrun. injection Hrun as <-. reflexivity.
Defined.

Lemma fold_setAdd_spec {A : Type} `{EqDecision A} (l : list A) :
  forall acc : list A,
    exists added : list A,
      fold_left setAdd l acc = acc ++ added /\
      sublist added l /\
      NoDup added /\
      (forall x, x ∈ added <-> x ∈ l /\ x ∉ acc).
Proof.
  induction l as [|x l IH]; intros acc.
  - exists []. rewrite app_nil_r.
    split; [reflexivity|]. split; [constructor|]. split; [constructor|].
    intros y. split; [intros Hy | intros [Hy _]]; inversion Hy.
  - cbn [fold_left]. unfold setAdd at 2. case_bool_decide as Hx.
    + destruct (IH acc) as (added & Hrun & Hsub & Hnd & Hmem).
      exists added. split; [exact Hrun|]. split; [now apply sublist_cons|].
      split; [exact Hnd|]. intros y. rewrite Hmem, elem_of_cons.
      split; [tauto|]. intros [[-> | Hy] Hnot]; tauto.
    + destruct (IH (acc ++ [x])) as (added & Hrun & Hsub & Hnd & Hmem).
      exists (x :: added). split; [rewrite Hrun, <- app_assoc; reflexivity|].
      split; [now apply sublist_skip|].
      split.
      { apply NoDup_cons. split; [|exact Hnd].
        rewrite Hmem. intros [_ Hnot]. apply Hnot.
        apply elem_of_app. right. apply list_elem_of_singleton. reflexivity. }
      intros y. rewrite !elem_of_cons, Hmem, elem_of_app, list_elem_of_singleton.
      destruct (decide (y = x)) as [-> | Hne]; tauto.
Qed.

Lemma fold_setAdd_NoDup {A : Type} `{EqDecision A} (l : list A) :
  forall acc : list A, NoDup (acc ++ l) -> fold_left setAdd l acc = acc ++ l.
Proof.
  induction l as [|x l IH]; intros acc Hnd; [now rewrite app_nil_r|].
  cbn [fold_left]. unfold setAdd at 2. case_bool_decide as Hx.
  - apply NoDup_app in Hnd as (_ & Hdisj & _). exfalso.
    apply (Hdisj x Hx). apply elem_of_cons. now left.
  - rewrite IH; rewrite <- app_assoc; [reflexivity | exact Hnd].
Qed.

(** X2.  [uniq(arr)] keeps one copy of every member of [arr] and nothing
    else: the result has no duplicates, has the same members as [arr], is a
    subsequence of [arr] (the order of [arr] is kept), and a list without
    duplicates, so also a result of [uniq], is left as it is. *)
Theorem uniq_removes_duplicates_only :
  forall (A : Type) (EqA : EqDecision A) (arr : list A),
    NoDup (uniq arr) /\
    (forall x, x ∈ uniq arr <-> x ∈ arr) /\
    sublist (uniq arr) arr /\
    (NoDup arr -> uniq arr = arr) /\
    uniq (uniq arr) = uniq arr.
Proof.
  intros A EqA arr.
  destruct (fold_setAdd_spec arr []) as (added & Hrun & Hsub & Hnd & Hmem).
  cbn [app] in Hrun. unfold uniq. rewrite Hrun.
  split; [exact Hnd|]. split.
  { intros x. rewrite Hmem. split; [tauto|]. intros Hx. split; [exact Hx|].
    intros Hnil. inversion Hnil. }
  split; [exact Hsub|]. split.
  - intros Harr. rewrite <- Hrun. now apply (fold_setAdd_NoDup arr []).
  - now apply (fold_setAdd_NoDup added []).
Qed.

(** *** PKCE helpers *)

Lemma stripPadding_keep c s :
  Ascii.eqb c "="%char = false ->
  stripPadding (String c s) = String c (stripPadding s).
Proof.
  intros Hc. cbn [stripPadding]. rewrite Hc. now destruct (stripPadding s).
Qed.

(** Every base64 digit is one character, not the padding sign, and after
    the two replacements it is a base64url character. *)
Lemma base64Digit_url (n : nat) :
  n < 64 ->
  exists c : ascii,
    replaceAll "/"%char "_"%char (replaceAll "+"%char "-"%char (base64Digit n))
    = String c EmptyString /\
    Ascii.eqb c "="%char = false /\ isBase64UrlChar c = true.
Proof.
  intros Hn.
  do 64 (destruct n as [|n]; [eexists; repeat split|]).
  lia.
Qed.

Lemma replaceAll_append from to s1 s2 :
  replaceAll from to (String.append s1 s2) =
  String.append (replaceAll from to s1) (replaceAll from to s2).
Proof. induction s1 as [|c s1 IH]; simpl; [reflexivity | now rewrite IH]. Qed.

Lemma nat_of_ascii_bound (a : ascii) : nat_of_ascii a < 256.
Proof. apply nat_ascii_bounded. Qed.

(** Induction on a list of bytes three at a time, as [btoa] reads it. *)
Lemma triples_ind (P : list ascii -> Prop) :
  P [] -> (forall a, P [a]) -> (forall a b, P [a; b]) ->
  (forall a b c rest, P rest -> P (a :: b :: c :: rest)) ->
  forall l, P l.
Proof.
  intros H0 H1 H2 H3 l.
  assert (H : P l /\ (forall a, P (a :: l)) /\ (forall a b, P (a :: b :: l))).
  { induction l as [|c l (IH0 & IH1 & IH2)]; [repeat split; auto|].
    split; [apply IH1|]. split; [intros a; apply IH2|].
    intros a b. now apply H3. }
  apply H.
Qed.

Lemma append_single (c : ascii) (s : string) :
  String.append (String c EmptyString) s = String c s.
Proof. reflexivity. Qed.

Lemma base64urlencode_three a b c rest :
  exists c1 c2 c3 c4 : ascii,
    base64urlencode (a :: b :: c :: rest) =
    String c1 (String c2 (String c3 (String c4 (base64urlencode rest)))) /\
    isBase64UrlChar c1 && isBase64UrlChar c2 && isBase64UrlChar c3
    && isBase64UrlChar c4 = true.
Proof.
  pose proof (nat_of_ascii_bound a) as Ha.
  pose proof (nat_of_ascii_bound b) as Hb.
  pose proof (nat_of_ascii_bound c) as Hc.
  destruct (base64Digit_url (nat_of_ascii a / 4)) as (c1 & E1 & N1 & U1).
  { apply Nat.Div0.div_lt_upper_bound. lia. }
  destruct (base64Digit_url (nat_of_ascii a mod 4 * 16 + nat_of_ascii b / 16))
    as (c2 & E2 & N2 & U2).
  { pose proof (Nat.mod_upper_bound (nat_of_ascii a) 4).
    assert (nat_of_ascii b / 16 < 16) by (apply Nat.Div0.div_lt_upper_bound; lia).
    lia. }
  destruct (base64Digit_url (nat_of_ascii b mod 16 * 4 + nat_of_ascii c / 64))
    as (c3 & E3 & N3 & U3).
  { pose proof (Nat.mod_upper_bound (nat_of_ascii b) 16).
    assert (nat_of_ascii c / 64 < 4) by (apply Nat.Div0.div_lt_upper_bound; lia).
    lia. }
  destruct (base64Digit_url (nat_of_ascii c mod 64)) as (c4 & E4 & N4 & U4).
  { apply Nat.mod_upper_bound. lia. }
  exists c1, c2, c3, c4. split.
  - unfold base64urlencode. cbn [btoa]. cbv zeta.
    rewrite !replaceAll_append, E1, E2, E3, E4. rewrite !append_single.
    now rewrite !stripPadding_keep.
  - now rewrite U1, U2, U3, U4.
Qed.

Lemma base64urlencode_one a :
  exists c1 c2 : ascii,
    base64urlencode [a] = String c1 (String c2 EmptyString) /\
    isBase64UrlChar c1 && isBase64UrlChar c2 = true.
Proof.
  pose proof (nat_of_ascii_bound a) as Ha.
  destruct (base64Digit_url (nat_of_ascii a / 4)) as (c1 & E1 & N1 & U1).
  { apply Nat.Div0.div_lt_upper_bound. lia. }
  destruct (base64Digit_url (nat_of_ascii a mod 4 * 16)) as (c2 & E2 & N2 & U2).
  { pose proof (Nat.mod_upper_bound (nat_of_ascii a) 4). lia. }
  exists c1, c2. split.
  - unfold base64urlencode. cbn [btoa]. cbv zeta.
    rewrite !replaceAll_append, E1, E2. rewrite !append_single.
    now rewrite !stripPadding_keep.
  - now rewrite U1, U2.
Qed.

Lemma base64urlencode_two a b :
  exists c1 c2 c3 : ascii,
    base64urlencode [a; b] = String c1 (String c2 (String c3 EmptyString)) /\
    isBase64UrlChar c1 && isBase64UrlChar c2 && isBase64UrlChar c3 = true.
Proof.
  pose proof (nat_of_ascii_bound a) as Ha.
  pose proof (nat_of_ascii_bound b) as Hb.
  destruct (base64Digit_url (nat_of_ascii a / 4)) as (c1 & E1 & N1 & U1).
  { apply Nat.Div0.div_lt_upper_bound. lia. }
  destruct (base64Digit_url (nat_of_ascii a mod 4 * 16 + nat_of_ascii b / 16))
    as (c2 & E2 & N2 & U2).
  { pose proof (Nat.mod_upper_bound (nat_of_ascii a) 4).
    assert (nat_of_ascii b / 16 < 16) by (apply Nat.Div0.div_lt_upper_bound; lia).
    lia. }
  destruct (base64Digit_url (nat_of_ascii b mod 16 * 4)) as (c3 & E3 & N3 & U3).
  { pose proof (Nat.mod_upper_bound (nat_of_ascii b) 16). lia. }
  exists c1, c2, c3. split.
  - unfold base64urlencode. cbn [btoa]. cbv zeta.
    rewrite !replaceAll_append, E1, E2, E3. rewrite !append_single.
    now rewrite !stripPadding_keep.
  - now rewrite U1, U2, U3.
Qed.

(** X3.  For every byte array, [base64urlencode] returns a text made only
    of letters, digits, [-] and [_] (no [+], [/] or padding), whose length
    is four thirds of the number of bytes, rounded up; so the code
    challenge made from a 32-byte SHA-256 digest has 43 characters. *)
Theorem base64urlencode_is_unpadded_base64url :
  forall a : list ascii,
    allChars isBase64UrlChar (base64urlencode a) = true /\
    String.length (base64urlencode a) = (4 * List.length a + 2) / 3 /\
    (List.length a = 32 -> String.length (base64urlencode a) = 43).
Proof.
  intros a.
  assert (H : allChars isBase64UrlChar (base64urlencode a) = true /\
              String.length (base64urlencode a) = (4 * List.length a + 2) / 3).
  { induction a as [|x|x y|x y z rest [IH1 IH2]] using triples_ind.
    - split; reflexivity.
    - destruct (base64urlencode_one x) as (c1 & c2 & -> & Hu).
      cbn [allChars String.length List.length]. rewrite andb_true_r.
      split; [exact Hu | reflexivity].
    - destruct (base64urlencode_two x y) as (c1 & c2 & c3 & -> & Hu).
      cbn [allChars String.length List.length]. rewrite andb_true_r.
      split; [|reflexivity].
      rewrite <- andb_assoc in Hu. exact Hu.
    - destruct (base64urlencode_three x y z rest) as (c1 & c2 & c3 & c4 & -> & Hu).
      cbn [allChars String.length List.length]. rewrite IH1, IH2, andb_true_r.
      split.
      + rewrite <- !andb_assoc in Hu. exact Hu.
      + replace (4 * S (S (S (List.length rest))) + 2)
          with (4 * List.length rest + 2 + 4 * 3) by lia.
        rewrite Nat.div_add by lia. lia. }
  destruct H as [H1 H2]. repeat split; try assumption.
  intros H32. rewrite H2, H32. reflexivity.
Qed.

(** Whatever the index, [possible.charAt] gives nothing or one unreserved
    character; inside the alphabet it gives one. *)
Lemma charAt_possible (i : nat) :
  (charAt possible i = EmptyString /\ 66 <= i) \/
  (exists c, charAt possible i = String c EmptyString
             /\ isUnreservedChar c = true /\ i < 66).
Proof.
  do 66 (destruct i as [|i]; [right; eexists; repeat split; lia|]).
  left. split; [reflexivity | lia].
Qed.

Lemma randomIndex_in_range (r : Q) :
  (0 <= r)%Q -> (r < 1)%Q ->
  Z.to_nat (Qfloor (r * inject_Z (Z.of_nat (String.length possible)))) < 66.
Proof.
  intros H0 H1.
  change (inject_Z (Z.of_nat (String.length possible))) with (inject_Z 66).
  assert (Hlt : (Qfloor (r * inject_Z 66) < 66)%Z).
  { rewrite Zlt_Qlt. eapply Qle_lt_trans; [apply Qfloor_le|].
    assert (E : (inject_Z 66 == 66)%Q) by reflexivity.
    rewrite E. lra. }
  lia.
Qed.

Lemma randStringFrom_chars random length :
  forall i,
    allChars isUnreservedChar (randStringFrom random i length) = true /\
    String.length (randStringFrom random i length) <= length.
Proof.
  induction length as [|length IH]; intros i; [split; [reflexivity | simpl; lia]|].
  cbn [randStringFrom]. destruct (IH (S i)) as [IH1 IH2].
  destruct (charAt_possible
              (Z.to_nat (Qfloor (random i * inject_Z (Z.of_nat (String.length possible))))))
    as [[-> _] | (c & -> & Hc & _)].
  - change (String.append EmptyString ?s) with s. split; [exact IH1 | lia].
  - rewrite append_single. cbn [allChars String.length]. rewrite Hc, IH1.
    split; [reflexivity | lia].
Qed.

Lemma randStringFrom_length random length :
  forall i,
    (forall j, i <= j < i + length -> (0 <= random j)%Q /\ (random j < 1)%Q) ->
    String.length (randStringFrom random i length) = length.
Proof.
  induction length as [|length IH]; intros i Hr; [reflexivity|].
  cbn [randStringFrom].
  destruct (Hr i) as [H0 H1]; [lia|].
  pose proof (randomIndex_in_range (random i) H0 H1) as Hidx.
  destruct (charAt_possible
              (Z.to_nat (Qfloor (random i * inject_Z (Z.of_nat (String.length possible))))))
    as [[_ Hge] | (c & -> & _ & _)]; [lia|].
  rewrite append_single. cbn [String.length]. f_equal.
  apply IH. intros j Hj. apply Hr. lia.
Qed.

(** X4.  [randString(length)] never produces a character outside the
    unreserved set (letters, digits, [-] [.] [_] [~]) and never more than
    [length] characters; when every value of [Math.random()] it draws lies
    in the interval from 0 (included) to 1 (excluded), it produces exactly
    [length] characters. *)
Theorem randString_is_unreserved_text_of_requested_length :
  forall (random : nat -> Q) (length : nat),
    allChars isUnreservedChar (randString random length) = true /\
    String.length (randString random length) <= length /\
    ((forall i, i < length -> (0 <= random i)%Q /\ (random i < 1)%Q) ->
     String.length (randString random length) = length).
Proof.
  intros random length. unfold randString.
  destruct (randStringFrom_chars random length 0) as [H1 H2].
  split; [exact H1|]. split; [exact H2|].
  intros Hr. apply randStringFrom_length. intros j Hj. apply Hr. lia.
Qed.

(** X4 on a code verifier of 64 characters drawn from the values
    0, 1/64, 2/64, ... *)
Lemma randString_witness :
  String.length (randString (fun i => (Z.of_nat i # 64)%Q) 64) = 64.
Proof.
  apply (randString_is_unreserved_text_of_requested_length
           (fun i => (Z.of_nat i # 64)%Q) 64).
  intros i Hi. split.
  - unfold Qle. simpl. lia.
  - unfold Qlt. simpl. lia.
Defined.

(** ** More on the scan session *)

Lemma insertByMostRecent_sorted x l :
  StronglySorted newerFirst l -> StronglySorted newerFirst (insertByMostRecent x l).
Proof.
  induction 1 as [|y l Hs IH Hall]; cbn [insertByMostRecent].
  - repeat constructor.
  - destruct (added_at (base x) <? added_at (base y))%Z eqn:E.
    + apply Z.ltb_lt in E. constructor; [exact IH|].
      rewrite List.Forall_forall. intros z Hz.
      apply (Permutation_in _ (Permutation_sym (insertByMostRecent_perm x l))) in Hz.
      destruct Hz as [<- | Hz].
      * unfold newerFirst. lia.
      * rewrite List.Forall_forall in Hall. now apply Hall.
    + apply Z.ltb_ge in E. constructor; [now constructor|].
      constructor; [exact E|].
      rewrite List.Forall_forall in *. intros z Hz. specialize (Hall z Hz).
      unfold newerFirst in *. lia.
Qed.

(** X5.  The sort of the selection at the end of the primary phase returns
    the same tracks, each as often as before, ordered from the most recently
    added to the least recently added. *)
Theorem selection_sorted_most_recent_first :
  forall l : list trackWithTempo,
    Permutation l (sortByMostRecent l) /\
    StronglySorted newerFirst (sortByMostRecent l).
Proof.
  intros l. split; [apply sortByMostRecent_perm|].
  induction l as [|x l IH]; [constructor|].
  cbn [sortByMostRecent fold_right]. now apply insertByMostRecent_sorted.
Qed.

Lemma processTrackForSelection_target minTempo maxTempo s t bpm :
  targetDurationMs (snd (processTrackForSelection minTempo maxTempo s t bpm))
  = targetDurationMs s.
Proof.
  unfold processTrackForSelection.
  destruct (targetDurationMs s <=? currentDurationMs s)%N; [reflexivity|].
  destruct bpm as [q|]; [|reflexivity].
  destruct (anyVariantInRange minTempo maxTempo q); reflexivity.
Qed.

Lemma savedTracksLoop_target minTempo maxTempo savedTempos tracks :
  forall s, targetDurationMs (savedTracksLoop minTempo maxTempo savedTempos tracks s)
            = targetDurationMs s.
Proof.
  induction tracks as [|t rest IH]; intros s; cbn [savedTracksLoop]; [reflexivity|].
  destruct (targetReached s); [reflexivity|].
  destruct (savedTempos !! track_id t) as [bpm|]; [|apply IH].
  destruct (anyVariantInRange minTempo maxTempo bpm); [|apply IH].
  destruct (targetReached (accept s _)); [reflexivity | now rewrite IH].
Qed.

Lemma accept_overshoot s r :
  (currentDurationMs s < targetDurationMs s)%N ->
  overshootsByLessThanOneTrack (accept s r).
Proof.
  intros Hlt. right. exists r. cbn [accept selectedTracks currentDurationMs
                                      targetDurationMs].
  split; [apply in_or_app; right; now left | lia].
Qed.

Lemma processTrackForSelection_overshoot minTempo maxTempo s t bpm :
  overshootsByLessThanOneTrack s ->
  overshootsByLessThanOneTrack (snd (processTrackForSelection minTempo maxTempo s t bpm)).
Proof.
  intros H. unfold processTrackForSelection.
  destruct (targetDurationMs s <=? currentDurationMs s)%N eqn:E; [exact H|].
  destruct bpm as [q|]; [|exact H].
  destruct (anyVariantInRange minTempo maxTempo q); [|exact H].
  apply accept_overshoot. now apply N.leb_gt.
Qed.

Lemma savedTracksLoop_overshoot minTempo maxTempo savedTempos tracks :
  forall s, overshootsByLessThanOneTrack s ->
            overshootsByLessThanOneTrack
              (savedTracksLoop minTempo maxTempo savedTempos tracks s).
Proof.
  induction tracks as [|t rest IH]; intros s H; cbn [savedTracksLoop]; [exact H|].
  destruct (targetReached s) eqn:E; [exact H|].
  destruct (savedTempos !! track_id t) as [bpm|]; [|now apply IH].
  destruct (anyVariantInRange minTempo maxTempo bpm); [|now apply IH].
  assert (H' : overshootsByLessThanOneTrack
                 (accept s (withTempoSaved t minTempo maxTempo bpm))).
  { apply accept_overshoot. unfold targetReached in E. now apply N.leb_gt. }
  destruct (targetReached (accept s _)); [exact H' | now apply IH].
Qed.

Lemma applyEvent_overshoot minTempo maxTempo s e :
  overshootsByLessThanOneTrack s ->
  overshootsByLessThanOneTrack (applyEvent minTempo maxTempo s e).
Proof.
  intros H. destruct e as [t bpm| |savedTempos tracks]; cbn [applyEvent].
  - now apply processTrackForSelection_overshoot.
  - destruct H as [H | (r & Hin & Hlt)].
    + left. cbn [selectedTracks]. now rewrite H.
    + right. exists r. cbn [selectedTracks currentDurationMs targetDurationMs].
      split; [|exact Hlt].
      now apply (Permutation_in _ (sortByMostRecent_perm (selectedTracks s))).
  - now apply savedTracksLoop_overshoot.
Qed.

(** Once the target is reached no estimate and no saved-tracks scan changes
    the session. *)
Lemma target_reached_freezes minTempo maxTempo s :
  (targetDurationMs s <= currentDurationMs s)%N ->
  (forall t bpm, applyEvent minTempo maxTempo s (PrimaryEstimate t bpm) = s) /\
  (forall savedTempos tracks,
      applyEvent minTempo maxTempo s (SavedTracksScan savedTempos tracks) = s).
Proof.
  intros Hle. apply N.leb_le in Hle. split.
  - intros t bpm. cbn [applyEvent]. unfold processTrackForSelection.
    now rewrite Hle.
  - intros savedTempos [|t tracks]; cbn [applyEvent savedTracksLoop];
      [reflexivity|]. unfold targetReached. now rewrite Hle.
Qed.

Lemma runSession_overshoot minTempo maxTempo evs :
  forall s, overshootsByLessThanOneTrack s ->
            overshootsByLessThanOneTrack (runSession minTempo maxTempo s evs).
Proof.
  induction evs as [|e evs IH]; intros s H; [exact H|].
  cbn [runSession fold_left]. apply IH. now apply applyEvent_overshoot.
Qed.

(** X6.  First fit: at every point of a scan the selection overshoots the
    target duration by less than one track (it is empty, or the counter
    minus the duration of one selected track is below the target); and once
    the counter has reached the target, no further estimate and no
    saved-tracks scan changes the session. *)
Theorem selection_overshoots_target_by_less_than_one_track :
  forall (minTempo maxTempo : Q) (target : N) (evs : list session_event),
    let s := runSession minTempo maxTempo (freshSession target) evs in
    overshootsByLessThanOneTrack s /\
    ((targetDurationMs s <= currentDurationMs s)%N ->
     (forall t bpm, applyEvent minTempo maxTempo s (PrimaryEstimate t bpm) = s) /\
     (forall savedTempos tracks,
         applyEvent minTempo maxTempo s (SavedTracksScan savedTempos tracks) = s)).
Proof.
  intros minTempo maxTempo target evs s. split.
  - apply runSession_overshoot. now left.
  - apply target_reached_freezes.
Qed.

(** A property that every accepted record has holds of the whole
    selection, at every point of a scan. *)
Lemma runSession_Forall (P : trackWithTempo -> Prop) minTempo maxTempo :
  (forall trk t, anyVariantInRange minTempo maxTempo t = true ->
                 P (withTempo trk minTempo maxTempo t)) ->
  (forall trk t, anyVariantInRange minTempo maxTempo t = true ->
                 P (withTempoSaved trk minTempo maxTempo t)) ->
  forall evs s,
    Forall P (selectedTracks s) ->
    Forall P (selectedTracks (runSession minTempo maxTempo s evs)).
Proof.
  intros Hprimary Hsaved.
  assert (Hacc : forall s r, Forall P (selectedTracks s) -> P r ->
                             Forall P (selectedTracks (accept s r))).
  { intros s r H Hr. cbn [accept selectedTracks]. apply Forall_app.
    split; [exact H | constructor; [exact Hr | constructor]]. }
  induction evs as [|e evs IH]; intros s H; [exact H|].
  cbn [runSession fold_left]. apply IH.
  destruct e as [t bpm| |savedTempos tracks]; cbn [applyEvent].
  - unfold processTrackForSelection.
    destruct (targetDurationMs s <=? currentDurationMs s)%N; [exact H|].
    destruct bpm as [q|]; [|exact H].
    destruct (anyVariantInRange minTempo maxTempo q) eqn:E; [|exact H].
    cbn [snd]. apply Hacc; [exact H | now apply Hprimary].
  - cbn [selectedTracks].
    rewrite List.Forall_forall in *. intros r Hr. apply H.
    now apply (Permutation_in _ (Permutation_sym (sortByMostRecent_perm _))).
  - clear IH. revert s H. induction tracks as [|t rest IHt]; intros s H;
      cbn [savedTracksLoop]; [exact H|].
    destruct (targetReached s); [exact H|].
    destruct (savedTempos !! track_id t) as [bpm|]; [|now apply IHt].
    destruct (anyVariantInRange minTempo maxTempo bpm) eqn:E; [|now apply IHt].
    pose proof (Hacc s _ H (Hsaved t bpm E)) as H'.
    destruct (targetReached (accept s _)); [exact H' | now apply IHt].
Qed.

Lemma selectVariant_variant minBpm maxBpm t :
  fst (selectVariant minBpm maxBpm t) = t
  \/ fst (selectVariant minBpm maxBpm t) = (t / 2)%Q
  \/ fst (selectVariant minBpm maxBpm t) = (t * 2)%Q.
Proof.
  unfold selectVariant.
  destruct (inRangeb minBpm maxBpm t); [now left|].
  destruct (inRangeb minBpm maxBpm (t / 2)); [right; now left|].
  destruct (inRangeb minBpm maxBpm (t * 2)); [right; now right | now left].
Qed.

(** X7.  At every point of a scan, in the primary and in the secondary
    phase, every track of the selection has a display tempo inside the
    configured range, and that display tempo is its raw tempo, half of it or
    twice it. *)
Theorem every_selected_track_is_in_range :
  forall (minTempo maxTempo : Q) (target : N) (evs : list session_event)
         (r : trackWithTempo),
    In r (selectedTracks (runSession minTempo maxTempo (freshSession target) evs)) ->
    in_range minTempo maxTempo (tempo r) /\ displayTempoIsVariant r.
Proof.
  intros minTempo maxTempo target evs r Hin.
  pose proof (runSession_Forall
                (fun r => in_range minTempo maxTempo (tempo r)
                          /\ displayTempoIsVariant r) minTempo maxTempo) as H.
  assert (Hall : Forall (fun r => in_range minTempo maxTempo (tempo r)
                                  /\ displayTempoIsVariant r)
                   (selectedTracks
                      (runSession minTempo maxTempo (freshSession target) evs))).
  { apply H; [| |constructor].
    - intros trk t Hany. split.
      + now destruct (withTempo_sound minTempo maxTempo trk t Hany) as (_ & Hr & _).
      + apply selectVariant_variant.
    - intros trk t Hany. split.
      + now destruct (withTempo_sound minTempo maxTempo (fromSavedTracks trk) t Hany)
          as (_ & Hr & _).
      + apply selectVariant_variant. }
  rewrite List.Forall_forall in Hall. now apply Hall.
Qed.

(** X7 on a target of thirty minutes, range [150,170], after one estimate of
    78. *)
Lemma every_selected_track_witness :
  let r := {| base := sampleTrack "a" 200000; tempo := 156; originalTempo := 78;
              tempoType := double_time |} in
  in_range 150 170 (tempo r) /\ displayTempoIsVariant r.
Proof.
  cbv zeta.
  apply (every_selected_track_is_in_range 150 170 1800000
           [PrimaryEstimate (sampleTrack "a" 200000) (Some 78%Q)]).
  left. reflexivity.
Defined.

(** ** More on the scheduler *)

Lemma refillers_insert_DeleteOnly_fresh (m : gmap nat on_settle) i :
  m !! i = None -> refillers (<[i := DeleteOnly]> m) = refillers m.
Proof.
  intros Hi. unfold refillers.
  rewrite map_filter_insert_not'; [reflexivity | simpl; discriminate |].
  intros y Hy. rewrite Hi in Hy. discriminate.
Qed.

Lemma refillers_insert_StartNext_fresh (m : gmap nat on_settle) i :
  m !! i = None -> refillers (<[i := StartNext]> m) = S (refillers m).
Proof.
  intros Hi. unfold refillers.
  rewrite map_filter_insert_True by reflexivity.
  apply map_size_insert_None. apply map_lookup_filter_None. now left.
Qed.

Lemma refillers_delete_DeleteOnly (m : gmap nat on_settle) p :
  m !! p = Some DeleteOnly -> refillers (delete p m) = refillers m.
Proof.
  intros Hp. unfold refillers. rewrite map_filter_delete.
  apply map_size_delete_None. apply map_lookup_filter_None. right.
  intros k Hk. rewrite Hp in Hk. injection Hk as <-. simpl. discriminate.
Qed.

(** In the initial loop every promise in flight is one that refills. *)
Lemma initialBatch_refillers n fuel :
  forall s,
    batchInvariant n s ->
    refillers (activePromises s) = currentIndex s ->
    refillers (activePromises (initialBatch fuel n s))
    = currentIndex (initialBatch fuel n s).
Proof.
  induction fuel as [|fuel IH]; intros s Hinv Href; cbn [initialBatch];
    [exact Href|].
  destruct ((currentIndex s <? n)%nat && (size (activePromises s) <? maxConcurrent)%nat)
    eqn:Hguard; [|exact Href].
  destruct (signalAborted s); [exact Href|].
  apply IH; [now apply batchInvariant_start|].
  unfold startNextTrack; cbn [activePromises currentIndex].
  destruct Hinv as (_ & _ & _ & Hfresh & _).
  rewrite refillers_insert_StartNext_fresh by (apply Hfresh; lia).
  now rewrite Href.
Qed.

Lemma refillers_empty : refillers (∅ : gmap nat on_settle) = 0.
Proof. unfold refillers. now rewrite map_filter_empty, map_size_empty. Qed.

Lemma startScheduler_uncancelled n : uncancelledInvariant n (startScheduler n false).
Proof.
  destruct n as [|n].
  - unfold uncancelledInvariant, startScheduler;
      cbn [signalAborted currentIndex activePromises].
    rewrite refillers_empty. repeat split; lia.
  - pose proof (startScheduler_count (S n)) as Hcount.
    unfold startScheduler in *. cbn [currentIndex] in Hcount.
    set (s0 := {| currentIndex := 0; activePromises := ∅; started := [];
                  signalAborted := false; returned := false |}) in *.
    pose proof (initialBatch_invariant (S n) (S n) s0
                  (emptyScheduler_batchInvariant _ _))
      as (Hsize & Hmax & Hn & Hfresh & _).
    pose proof (initialBatch_refillers (S n) (S n) s0
                  (emptyScheduler_batchInvariant _ _) refillers_empty) as Href.
    destruct (initialBatch_flags (S n) (S n) s0) as [Hflag _].
    unfold uncancelledInvariant;
      cbn [signalAborted currentIndex activePromises].
    rewrite Href, Hcount. split; [exact Hflag|]. split.
    { intros p Hp. apply Hfresh. lia. }
    split; lia.
Qed.

Lemma schedStep_uncancelled n s e s' :
  isUserAbort e = false ->
  uncancelledInvariant n s -> schedStep n s e = Some s' ->
  uncancelledInvariant n s'.
Proof.
  intros He (Hna & Hfresh & Hle & Hcount) Hstep.
  destruct e as [p| |]; [|discriminate|]; cbn [schedStep] in Hstep.
  - destruct (activePromises s !! p) as [k|] eqn:Hp; [|discriminate].
    assert (Hfresh' : forall q, currentIndex s <= q ->
                                delete p (activePromises s) !! q = None).
    { intros q Hq. destruct (decide (p = q)) as [->|Hne];
        [apply lookup_delete_eq | rewrite lookup_delete_ne by exact Hne; now apply Hfresh]. }
    destruct k.
    + pose proof (refillers_delete_StartNext _ _ Hp) as Hone.
      cbn [setActive currentIndex signalAborted] in Hstep. rewrite Hna in Hstep.
      rewrite andb_true_r in Hstep.
      destruct (currentIndex s <? n)%nat eqn:Hlt; injection Hstep as <-;
        unfold uncancelledInvariant, startNextTrack, setActive;
        cbn [currentIndex activePromises signalAborted].
      * apply Nat.ltb_lt in Hlt.
        rewrite refillers_insert_DeleteOnly_fresh by (apply Hfresh'; lia).
        split; [exact Hna|]. split.
        { intros q Hq. rewrite lookup_insert_ne by lia. apply Hfresh'. lia. }
        split; lia.
      * apply Nat.ltb_ge in Hlt.
        split; [exact Hna|]. split; [exact Hfresh'|]. split; lia.
    + injection Hstep as <-. unfold uncancelledInvariant, setActive;
        cbn [currentIndex activePromises signalAborted].
      rewrite (refillers_delete_DeleteOnly _ _ Hp).
      split; [exact Hna|]. split; [exact Hfresh'|]. split; assumption.
  - destruct (returned s); injection Hstep as <-;
      unfold uncancelledInvariant; cbn [currentIndex activePromises signalAborted];
      repeat split; assumption.
Qed.

Lemma schedRun_uncancelled n evs :
  forall s s',
    forallb (fun e => negb (isUserAbort e)) evs = true ->
    uncancelledInvariant n s -> schedRun n s evs = Some s' ->
    uncancelledInvariant n s'.
Proof.
  induction evs as [|e evs IH]; intros s s' Hevs Hinv Hrun; cbn [schedRun] in Hrun.
  - now injection Hrun as <-.
  - cbn [forallb] in Hevs. apply andb_true_iff in Hevs as [He Hevs].
    apply negb_true_iff in He.
    destruct (schedStep n s e) as [s1|] eqn:Hstep; [|discriminate].
    apply (IH s1 s' Hevs); [|exact Hrun].
    now apply (schedStep_uncancelled n s e).
Qed.

(** X8.  In a call that is never cancelled, whatever the order in which the
    promises settle: the number of tracks started is the initial batch plus
    one per settled promise of that batch, as far as the list reaches; so
    when nothing is in flight any more, exactly the first
    [min tracksLength 60] tracks have been started, each once and in list
    order, the waiting loop returns at its next wake-up, and a list of at
    most 60 tracks has been processed completely. *)
Theorem uncancelled_call_processes_first_sixty_tracks :
  forall (tracksLength : nat) (evs : list sched_event) (s : scheduler),
    forallb (fun e => negb (isUserAbort e)) evs = true ->
    schedRun tracksLength (startScheduler tracksLength false) evs = Some s ->
    currentIndex s =
      Nat.min tracksLength
        (2 * Nat.min tracksLength maxConcurrent - refillers (activePromises s)) /\
    (activePromises s = ∅ ->
     started s = seq 0 (Nat.min tracksLength (2 * maxConcurrent)) /\
     (tracksLength <= 2 * maxConcurrent -> started s = seq 0 tracksLength) /\
     exists s', schedStep tracksLength s Wake = Some s' /\ returned s' = true).
Proof.
  intros n evs s Hevs Hrun.
  pose proof (schedRun_uncancelled n evs _ s Hevs (startScheduler_uncancelled n) Hrun)
    as (Hna & _ & _ & Hcount).
  destruct (reachable_invariant n false evs s Hrun) as (_ & _ & Hstarted & _).
  split; [exact Hcount|].
  intros Hempty. rewrite Hempty, refillers_empty in Hcount.
  assert (Hidx : currentIndex s = Nat.min n (2 * maxConcurrent))
    by (unfold maxConcurrent in *; lia).
  split; [now rewrite Hstarted, Hidx|]. split.
  - intros Hsmall. rewrite Hstarted, Hidx. f_equal. lia.
  - cbn [schedStep]. destruct (returned s) eqn:Hr; [eexists; split; eauto|].
    eexists. split; [reflexivity|]. cbn [returned]. unfold keepsWaiting.
    now rewrite Hempty, map_size_empty.
Qed.

(** X8 on 45 tracks whose promises settle in list order. *)
Lemma uncancelled_call_witness :
  exists s : scheduler,
    schedRun 45 (startScheduler 45 false) (settleRange 0 45) = Some s /\
    activePromises s = ∅ /\ started s = seq 0 45.
Proof.
  destruct (schedRun 45 (startScheduler 45 false) (settleRange 0 45)) as [s|] eqn:Hrun;
    [|vm_compute in Hrun; discriminate].
  exists s. split; [reflexivity|].
  assert (Hempty : activePromises s = ∅).
  { vm_compute in Hrun. injection Hrun as <-. reflexivity. }
  split; [exact Hempty|].
  destruct (uncancelled_call_processes_first_sixty_tracks 45 (settleRange 0 45) s
              eq_refl Hrun) as [_ H].
  destruct (H Hempty) as (_ & H45 & _). apply H45. unfold maxConcurrent. lia.
Defined.

Lemma initialBatch_aborted n fuel s :
  signalAborted s = true -> initialBatch fuel n s = s.
Proof.
  intros Ha. destruct fuel as [|fuel]; cbn [initialBatch]; [reflexivity|].
  rewrite Ha. now destruct (_ && _).
Qed.

Lemma schedStep_after_abort n s e s' :
  signalAborted s = true -> schedStep n s e = Some s' ->
  signalAborted s' = true /\ started s' = started s /\
  currentIndex s' = currentIndex s /\
  size (activePromises s') <= size (activePromises s).
Proof.
  intros Ha Hstep. destruct e as [p| |]; cbn [schedStep] in Hstep.
  - destruct (activePromises s !! p) as [k|] eqn:Hp; [|discriminate].
    assert (Hdel : size (delete p (activePromises s)) <= size (activePromises s))
      by (rewrite map_size_delete, Hp; simpl; lia).
    cbn [setActive currentIndex signalAborted] in Hstep. rewrite Ha in Hstep.
    rewrite andb_false_r in Hstep.
    destruct k; injection Hstep as <-; cbn; repeat split; assumption.
  - injection Hstep as <-. cbn. repeat split; lia.
  - destruct (returned s); injection Hstep as <-; cbn; repeat split;
      try assumption; lia.
Qed.

(** X9.  Cancelling stops new work: from the moment the signal is set, no
    event starts another track (the list of started tracks stays as it is
    and the number of promises in flight only goes down); and a call made
    with the signal already set starts nothing and returns at once. *)
Theorem cancellation_stops_new_tracks :
  forall (tracksLength : nat),
    (forall (evs : list sched_event) (s s' : scheduler),
        signalAborted s = true ->
        schedRun tracksLength s evs = Some s' ->
        signalAborted s' = true /\ started s' = started s /\
        size (activePromises s') <= size (activePromises s)) /\
    started (startScheduler tracksLength true) = [] /\
    activePromises (startScheduler tracksLength true) = ∅ /\
    returned (startScheduler tracksLength true) = true.
Proof.
  intros n. split.
  - induction evs as [|e evs IH]; intros s s' Ha Hrun; cbn [schedRun] in Hrun.
    + injection Hrun as <-. repeat split; [assumption | lia].
    + destruct (schedStep n s e) as [s1|] eqn:Hstep; [|discriminate].
      destruct (schedStep_after_abort n s e s1 Ha Hstep) as (Ha1 & Hs1 & _ & Hsz1).
      destruct (IH s1 s' Ha1 Hrun) as (Ha' & Hs' & Hsz').
      repeat split; [assumption | congruence | lia].
  - destruct n as [|n]; [repeat split|].
    unfold startScheduler. rewrite initialBatch_aborted by reflexivity.
    repeat split.
Qed.

(** X9 on 61 tracks: the user aborts after five promises have settled, then
    the other promises settle. *)
Lemma cancellation_stops_new_tracks_witness :
  exists s s' : scheduler,
    schedRun 61 (startScheduler 61 false) (settleRange 0 5 ++ [UserAbort]) = Some s /\
    schedRun 61 s (settleRange 5 30) = Some s' /\
    started s' = started s /\ started s = seq 0 35.
Proof.
  destruct (schedRun 61 (startScheduler 61 false) (settleRange 0 5 ++ [UserAbort]))
    as [s|] eqn:Hrun; [|vm_compute in Hrun; discriminate].
  assert (Ha : signalAborted s = true)
    by (vm_compute in Hrun; injection Hrun as <-; reflexivity).
  assert (Hst : started s = seq 0 35)
    by (vm_compute in Hrun; injection Hrun as <-; reflexivity).
  destruct (schedRun 61 s (settleRange 5 30)) as [s'|] eqn:Hrun'.
  - exists s, s'. split; [reflexivity|]. split; [exact Hrun'|].
    destruct (proj1 (cancellation_stops_new_tracks 61) (settleRange 5 30) s s'
                Ha Hrun') as (_ & Hs & _).
    split; [exact Hs | exact Hst].
  - exfalso. vm_compute in Hrun. injection Hrun as <-.
    vm_compute in Hrun'. discriminate.
Defined.

(** ** More on the oracle client *)

Lemma hasDigit_trimStart s : hasDigit s = false -> hasDigit (trimStart s) = false.
Proof.
  induction s as [|c s IH]; cbn [trimStart hasDigit]; [reflexivity|].
  intros H. apply orb_false_iff in H as [Hc Hs].
  destruct (isWhiteSpace c); [now apply IH|].
  cbn [hasDigit]. now rewrite Hc, Hs.
Qed.

Lemma matchDecimal_no_digit s : hasDigit s = false -> matchDecimal s = None.
Proof.
  induction s as [|c s IH]; cbn [matchDecimal hasDigit]; [reflexivity|].
  intros H. apply orb_false_iff in H as [Hc Hs]. rewrite Hc. now apply IH.
Qed.

Lemma takeDigits_no_digit s : hasDigit s = false -> takeDigits s = (EmptyString, s).
Proof.
  destruct s as [|c s]; cbn [takeDigits hasDigit]; [reflexivity|].
  intros H. apply orb_false_iff in H as [Hc _]. now rewrite Hc.
Qed.

Lemma takeSign_no_digit s :
  hasDigit s = false -> hasDigit (snd (takeSign s)) = false.
Proof.
  intros H. unfold takeSign.
  destruct s as [|c s]; [reflexivity|].
  cbn [hasDigit] in H. apply orb_false_iff in H as [Hc Hs].
  destruct c as [[] [] [] [] [] [] [] []]; cbn [snd hasDigit];
    try assumption; rewrite ?Hc, ?Hs; reflexivity.
Qed.

(** Without a digit to read, [parseFloat] gives [NaN] or an infinity. *)
Lemma parseFloat_no_digit s :
  hasDigit s = false ->
  parseFloat s = NaN \/ exists negative, parseFloat s = Infinity negative.
Proof.
  intros H. unfold parseFloat.
  pose proof (takeSign_no_digit _ (hasDigit_trimStart s H)) as Hbody.
  destruct (takeSign (trimStart s)) as [negative body]. cbn [snd] in Hbody.
  destruct (String.prefix "Infinity" body); [right; eauto|].
  rewrite (takeDigits_no_digit body Hbody).
  destruct body as [|c rest]; [now left|].
  cbn [hasDigit] in Hbody. apply orb_false_iff in Hbody as [_ Hrest].
  destruct (Ascii.eqb_spec c "."%char) as [->|Hne].
  - rewrite (takeDigits_no_digit rest Hrest). now left.
  - left. destruct c as [[] [] [] [] [] [] [] []]; try reflexivity.
    now contradiction Hne.
Qed.

Lemma validBpm_not_finite x :
  (x = NaN \/ exists negative, x = Infinity negative) -> validBpm x = false.
Proof.
  intros [-> | [[] ->]]; reflexivity.
Qed.

(** X10.  An answer whose text holds no digit is never accepted as a tempo:
    the regular expression finds nothing, and the fallback that parses the
    whole text can only give [NaN] or an infinity, which the validity test
    rejects.  So the tier that got this answer fails, whatever the text
    says. *)
Theorem answer_without_digit_is_never_valid :
  forall (r : response) (model : string),
    hasDigit (readText r) = false ->
    (forall d, extractBPMData (Some r) model = inr d ->
               validBpm (bpm d) = false /\ validValue (bpm d) = None) /\
    (forall env t, generateContent env t = Fulfilled (Some r) ->
                   answerValue env t = None /\ snd (tryTier env t) = None).
Proof.
  intros r model Hno.
  assert (Hextract : forall m d, extractBPMData (Some r) m = inr d ->
                                 validBpm (bpm d) = false).
  { intros m d. unfold extractBPMData.
    destruct (readText r) as [|c text] eqn:Htext; [discriminate|].
    rewrite (matchDecimal_no_digit _ Hno). intros [= <-]. cbn [bpm].
    apply validBpm_not_finite. now apply parseFloat_no_digit. }
  assert (Hvalue : forall m d, extractBPMData (Some r) m = inr d ->
                               validValue (bpm d) = None).
  { intros m d Hd. pose proof (Hextract m d Hd) as Hv.
    destruct (bpm d); cbn [validValue]; [reflexivity | reflexivity |].
    now rewrite Hv. }
  split.
  - intros d Hd. split; [now apply (Hextract model) | now apply (Hvalue model)].
  - intros env t Hcall.
    assert (Hans : answerValue env t = None).
    { unfold answerValue. rewrite Hcall.
      destruct (extractBPMData (Some r) (modelName t)) as [m|d] eqn:Hd;
        [reflexivity | now apply (Hvalue (modelName t))]. }
    split; [exact Hans|].
    destruct (snd (tryTier env t)) as [q|] eqn:Hq; [|reflexivity].
    apply tryTier_value in Hq. congruence.
Qed.

(** X10 on the answer "unknown". *)
Lemma answer_without_digit_witness :
  answerValue (scenarioB (Rejected "never called")) PRIMARY = None.
Proof.
  apply (proj2 (answer_without_digit_is_never_valid
                  {| responseText := Some "unknown"; candidateText := None;
                     groundingSources := []; groundingQueries := [] |}
                  "gemini-2.5-flash-lite" eq_refl)
           (scenarioB (Rejected "never called")) PRIMARY eq_refl).
Defined.

(** A tier that returns a value made its call and saw no cancellation after
    it. *)
Lemma tryTier_value_called env t q :
  snd (tryTier env t) = Some q ->
  aborted env (BeforeTier t) = false /\ aborted env (AfterCall t) = false.
Proof.
  unfold tryTier, tierBody.
  destruct (aborted env (BeforeTier t)); [discriminate|].
  destruct (generateContent env t) as [m|result]; cbn [snd]; [discriminate|].
  destruct (aborted env (AfterCall t)); cbn [snd]; [discriminate | tauto].
Qed.

Lemma apiCalls_tier_sublist env t :
  sublist (apiCalls (fst (tryTier env t))) [t].
Proof.
  rewrite tryTier_calls. destruct (aborted env (BeforeTier t)).
  - apply sublist_nil_l.
  - reflexivity.
Qed.

Lemma in_apiCalls_tier env t :
  aborted env (BeforeTier t) = false -> In t (apiCalls (fst (tryTier env t))).
Proof. intros H. rewrite tryTier_calls, H. now left. Qed.

(** The calls of a run that got past the opening checks: those of the first
    tier, then those of the second and of the third when they were
    reached; and a value returned is the value of a tier whose calls are
    among them. *)
Lemma getTrackBPMWithGemini_calls env :
  geminiApiKey env <> "" ->
  aborted env BeforeStart = false ->
  exists c2 c3 : list tier,
    apiCalls (fst (getTrackBPMWithGemini env))
    = apiCalls (fst (tryTier env PRIMARY)) ++ c2 ++ c3 /\
    (c2 = [] \/ c2 = apiCalls (fst (tryTier env SECONDARY))) /\
    (c3 = [] \/ c3 = apiCalls (fst (tryTier env TERTIARY))) /\
    (forall v, snd (getTrackBPMWithGemini env) = inr (Some v) ->
       snd (tryTier env PRIMARY) = Some v
       \/ (snd (tryTier env SECONDARY) = Some v
           /\ c2 = apiCalls (fst (tryTier env SECONDARY)))
       \/ (snd (tryTier env TERTIARY) = Some v
           /\ c3 = apiCalls (fst (tryTier env TERTIARY)))).
Proof.
  intros Hkey Hstart.
  rewrite (getTrackBPMWithGemini_started env Hkey Hstart). cbv zeta.
  rewrite (tryTier_split env PRIMARY), (tryTier_split env SECONDARY),
    (tryTier_split env TERTIARY).
  destruct (snd (tryTier env PRIMARY)) as [q1|]; cbn [fst snd].
  { exists [], []. autorewrite with oracle. cbn [app].
    repeat split; try (now left). intros v [= <-]. now left. }
  destruct (snd (tryTier env SECONDARY)) as [q2|]; cbn [fst snd].
  { exists (apiCalls (fst (tryTier env SECONDARY))), [].
    autorewrite with oracle. cbn [app].
    repeat split; try (now left); try (now right).
    intros v [= <-]. right. left. now split. }
  destruct (snd (tryTier env TERTIARY)) as [q3|]; cbn [fst snd].
  { exists (apiCalls (fst (tryTier env SECONDARY))),
      (apiCalls (fst (tryTier env TERTIARY))).
    autorewrite with oracle. cbn [app].
    repeat split; try (now right).
    intros v [= <-]. right. right. now split. }
  exists (apiCalls (fst (tryTier env SECONDARY))),
    (apiCalls (fst (tryTier env TERTIARY))).
  autorewrite with oracle. cbn [app].
  repeat split; try (now right); discriminate.
Qed.

(** X11.  Whatever the tiers answer and whenever the signal is set: the
    calls [getTrackBPMWithGemini] issues are a subsequence of primary,
    secondary, tertiary, so at most three, at most one per tier and in tier
    order; a tier that finds the signal set when it begins issues no call;
    and a tempo the function returns is always strictly between 0 and 300
    and is the valid answer of a tier that was called and that saw no
    cancellation after its call. *)
Theorem returned_tempo_is_valid_answer_of_called_tier :
  forall env : oracle_env,
    let run := getTrackBPMWithGemini env in
    sublist (apiCalls (fst run)) [PRIMARY; SECONDARY; TERTIARY] /\
    (forall t, aborted env (BeforeTier t) = true -> ~ In t (apiCalls (fst run))) /\
    (forall v, snd run = inr (Some v) ->
       (0 < v)%Q /\ (v < 300)%Q /\
       exists t, answerValue env t = Some v /\ In t (apiCalls (fst run))
                 /\ aborted env (AfterCall t) = false).
Proof.
  intros env run. subst run.
  destruct (string_dec (geminiApiKey env) "") as [Hkey | Hkey].
  { unfold getTrackBPMWithGemini. rewrite Hkey. cbn [fst snd].
    split; [apply sublist_nil_l|]. split; [intros t _ []|]. discriminate. }
  destruct (aborted env BeforeStart) eqn:Hstart.
  { unfold getTrackBPMWithGemini. rewrite Hstart.
    destruct (geminiApiKey env); [contradiction|]. cbn [fst snd].
    split; [apply sublist_nil_l|]. split; [intros t _ []|]. discriminate. }
  destruct (getTrackBPMWithGemini_calls env Hkey Hstart)
    as (c2 & c3 & Hcalls & Hc2 & Hc3 & Hres).
  rewrite Hcalls.
  assert (Hsub2 : sublist c2 [SECONDARY])
    by (destruct Hc2 as [-> | ->]; [apply sublist_nil_l | apply apiCalls_tier_sublist]).
  assert (Hsub3 : sublist c3 [TERTIARY])
    by (destruct Hc3 as [-> | ->]; [apply sublist_nil_l | apply apiCalls_tier_sublist]).
  assert (Hnot : forall t t', aborted env (BeforeTier t) = true ->
                              ~ In t (apiCalls (fst (tryTier env t')))).
  { intros t t' Ht Hin. rewrite tryTier_calls in Hin.
    destruct (aborted env (BeforeTier t')) eqn:Ht'; [destruct Hin|].
    destruct Hin as [-> | []]. congruence. }
  split; [|split].
  - change [PRIMARY; SECONDARY; TERTIARY] with ([PRIMARY] ++ [SECONDARY] ++ [TERTIARY]).
    repeat apply sublist_app; try assumption. apply apiCalls_tier_sublist.
  - intros t Ht Hin.
    apply in_app_or in Hin as [Hin | Hin]; [now apply (Hnot t _ Ht) in Hin|].
    apply in_app_or in Hin as [Hin | Hin].
    + destruct Hc2 as [-> | ->]; [destruct Hin | now apply (Hnot t _ Ht) in Hin].
    + destruct Hc3 as [-> | ->]; [destruct Hin | now apply (Hnot t _ Ht) in Hin].
  - intros v Hv.
    assert (Hfrom : exists t, snd (tryTier env t) = Some v /\
                              In t (apiCalls (fst (tryTier env PRIMARY)) ++ c2 ++ c3)).
    { destruct (Hres v Hv) as [H1 | [[H2 ->] | [H3 ->]]].
      - exists PRIMARY. split; [exact H1|]. apply in_or_app. left.
        apply in_apiCalls_tier. now destruct (tryTier_value_called _ _ _ H1).
      - exists SECONDARY. split; [exact H2|]. apply in_or_app. right.
        apply in_or_app. left.
        apply in_apiCalls_tier. now destruct (tryTier_value_called _ _ _ H2).
      - exists TERTIARY. split; [exact H3|]. apply in_or_app. right.
        apply in_or_app. right.
        apply in_apiCalls_tier. now destruct (tryTier_value_called _ _ _ H3). }
    destruct Hfrom as (t & Ht & Hin).
    pose proof (tryTier_value env t v Ht) as Hans.
    destruct (answerValue_bounds env t v Hans) as [Hlo Hhi].
    destruct (tryTier_value_called env t v Ht) as [_ Hafter].
    split; [exact Hlo|]. split; [exact Hhi|].
    exists t. repeat split; assumption.
Qed.

(** X11 on the run that is cancelled while the first call is in flight: one
    call, and no tempo returned. *)
Lemma returned_tempo_witness :
  ~ In SECONDARY (apiCalls (fst (getTrackBPMWithGemini cancelledDuringFirstCall))).
Proof.
  apply (proj1 (proj2 (returned_tempo_is_valid_answer_of_called_tier
                         cancelledDuringFirstCall)) SECONDARY).
  reflexivity.
Defined.

(** *** The first number of the text decides *)

Lemma append_empty_r s : String.append s EmptyString = s.
Proof.
  induction s as [|c s IH]; [reflexivity|].
  change (String.append (String c s) EmptyString)
    with (String c (String.append s EmptyString)).
  now rewrite IH.
Qed.

Lemma matchDecimal_skip pre s :
  hasDigit pre = false -> matchDecimal (String.append pre s) = matchDecimal s.
Proof.
  induction pre as [|c pre IH]; [reflexivity|].
  cbn [hasDigit]. intros H. apply orb_false_iff in H as [Hc Hpre].
  change (String.append (String c pre) s) with (String c (String.append pre s)).
  cbn [matchDecimal]. rewrite Hc. now apply IH.
Qed.

Lemma takeDigits_append ds rest :
  allChars isDigit ds = true -> headIs isDigit rest = false ->
  takeDigits (String.append ds rest) = (ds, rest).
Proof.
  induction ds as [|c ds IH]; intros Hds Hrest.
  - change (String.append EmptyString rest) with rest.
    destruct rest as [|c rest]; [reflexivity|].
    cbn [headIs] in Hrest. cbn [takeDigits]. now rewrite Hrest.
  - cbn [allChars] in Hds. apply andb_true_iff in Hds as [Hc Hds].
    change (String.append (String c ds) rest) with (String c (String.append ds rest)).
    cbn [takeDigits]. rewrite Hc, (IH Hds Hrest). reflexivity.
Qed.

(** A digit is no white space, no sign, no dot and not the first letter of
    "Infinity". *)
Lemma digit_is_plain c :
  isDigit c = true ->
  isWhiteSpace c = false /\
  (forall s, takeSign (String c s) = (false, String c s)) /\
  (forall s, String.prefix "Infinity" (String c s) = false) /\
  isDot c = false.
Proof.
  destruct c as [[] [] [] [] [] [] [] []]; intros H;
    try discriminate H; repeat split.
Qed.

(** Multiplying by ten to the power zero leaves the value as it is
    written. *)
Lemma times_power_zero (x : Q) : (x * Qpower 10 0)%Q = x.
Proof.
  destruct x as [a b]. unfold Qmult. cbn [Qpower Qnum Qden].
  now rewrite Z.mul_1_r, Pos.mul_1_r.
Qed.

Lemma decimalValue_integer ip :
  decimalValue ip EmptyString = inject_Z (digitsValue 0 ip).
Proof.
  unfold decimalValue. rewrite append_empty_r. reflexivity.
Qed.

(** [parseFloat] on the text the regular expression matched: digits, then
    possibly a dot and digits. *)
Lemma parseFloat_integer ip :
  allChars isDigit ip = true -> ip <> EmptyString ->
  parseFloat ip = toDouble (inject_Z (digitsValue 0 ip)).
Proof.
  intros Hip Hne. destruct ip as [|c ip]; [contradiction|].
  pose proof Hip as Hall. cbn [allChars] in Hip.
  apply andb_true_iff in Hip as [Hc _].
  destruct (digit_is_plain c Hc) as (Hws & Hsign & Hinf & _).
  unfold parseFloat. cbn [trimStart]. rewrite Hws, Hsign, Hinf.
  pose proof (takeDigits_append (String c ip) EmptyString Hall eq_refl) as Htake.
  rewrite append_empty_r in Htake. rewrite Htake.
  cbv zeta. now rewrite times_power_zero, decimalValue_integer.
Qed.

Lemma parseFloat_decimal ip fp :
  allChars isDigit ip = true -> ip <> EmptyString -> allChars isDigit fp = true ->
  parseFloat (String.append ip (String "."%char fp)) = toDouble (decimalValue ip fp).
Proof.
  intros Hip Hne Hfp. destruct ip as [|c ip]; [contradiction|].
  pose proof Hip as Hall. cbn [allChars] in Hip.
  apply andb_true_iff in Hip as [Hc _].
  destruct (digit_is_plain c Hc) as (Hws & Hsign & Hinf & _).
  unfold parseFloat.
  change (String.append (String c ip) (String "."%char fp))
    with (String c (String.append ip (String "."%char fp))).
  cbn [trimStart]. rewrite Hws, Hsign, Hinf.
  change (String c (String.append ip (String "."%char fp)))
    with (String.append (String c ip) (String "."%char fp)).
  rewrite (takeDigits_append (String c ip) (String "."%char fp) Hall eq_refl).
  pose proof (takeDigits_append fp EmptyString Hfp eq_refl) as Htake.
  rewrite append_empty_r in Htake. rewrite Htake.
  cbv zeta. rewrite times_power_zero. now destruct fp.
Qed.

(** *** Rounding *)

Lemma binade_le (n d : positive) :
  (binade n d <= Z.log2 (Zpos n) - Z.log2 (Zpos d))%Z.
Proof.
  unfold binade.
  destruct (Zpos n * 2 ^ Z.max 0 (- (Z.log2 (Zpos n) - Z.log2 (Zpos d)))
            <? Zpos d * 2 ^ Z.max 0 (Z.log2 (Zpos n) - Z.log2 (Zpos d)))%Z; lia.
Qed.

Lemma roundHalfEven_whole (num : Z) : roundHalfEven num 1 = num.
Proof.
  unfold roundHalfEven. rewrite Z.mod_1_r, Z.div_1_r. reflexivity.
Qed.

(** An integer below 2^53 is a number: rounding leaves it as it is. *)
Lemma toDouble_integer (v : Z) :
  (0 <= v < 2 ^ 53)%Z -> toDouble (inject_Z v) = Finite (inject_Z v).
Proof.
  intros [Hpos Hlt]. destruct v as [|n|n]; [reflexivity| |lia].
  unfold toDouble. cbn [inject_Z Qnum Qden]. unfold nearestDouble.
  pose proof (binade_le n 1) as Hb. change (Z.log2 1) with 0%Z in Hb.
  assert (Hlog : (Z.log2 (Zpos n) < 53)%Z) by (apply Z.log2_lt_pow2; lia).
  set (ulp := Z.max (binade n 1 - 52) (-1074)).
  assert (Hulp : (ulp <= 0)%Z) by (unfold ulp; lia).
  rewrite (Z.max_l 0 ulp) by lia. rewrite (Z.max_r 0 (- ulp)) by lia.
  change (2 ^ 0)%Z with 1%Z. rewrite !Z.mul_1_r, roundHalfEven_whole.
  assert (Hpow : (0 < 2 ^ (- ulp))%Z) by (apply Z.pow_pos_nonneg; lia).
  replace ((0 <=? ulp)%Z && (2 ^ 1024 <=? Zpos n * 2 ^ (- ulp) * 2 ^ ulp)%Z)
    with false.
  - f_equal. transitivity (Qred (Zpos n # 1)).
    + apply Qred_complete. unfold Qeq. cbn [Qnum Qden].
      rewrite Z2Pos.id by exact Hpow. lia.
    + apply Qcanon.Qred_identity, Z.gcd_1_r.
  - symmetry. apply andb_false_iff.
    destruct (Z.eq_dec ulp 0%Z) as [E | E].
    + right. rewrite E. change (2 ^ (- 0))%Z with 1%Z. change (2 ^ 0)%Z with 1%Z.
      apply Z.leb_gt.
      assert (2 ^ 53 < 2 ^ 1024)%Z by (apply Z.pow_lt_mono_r; lia). lia.
    + left. apply Z.leb_gt. lia.
Qed.

Lemma matchDecimal_integer ip rest :
  allChars isDigit ip = true -> ip <> EmptyString ->
  headIs isDigit rest = false -> headIs isDot rest = false ->
  matchDecimal (String.append ip rest) = Some ip.
Proof.
  intros Hip Hne Hd Hdot. destruct ip as [|c ip]; [contradiction|].
  pose proof (takeDigits_append (String c ip) rest Hip Hd) as Htake.
  cbn [allChars] in Hip. apply andb_true_iff in Hip as [Hc _].
  change (String.append (String c ip) rest) with (String c (String.append ip rest))
    in *.
  cbn [matchDecimal]. rewrite Hc, Htake.
  destruct rest as [|c0 rest]; [reflexivity|].
  cbn [headIs] in Hdot.
  destruct c0 as [[] [] [] [] [] [] [] []]; try reflexivity; discriminate.
Qed.

Lemma matchDecimal_decimal ip fp rest :
  allChars isDigit ip = true -> ip <> EmptyString ->
  allChars isDigit fp = true -> headIs isDigit rest = false ->
  matchDecimal (String.append ip (String "."%char (String.append fp rest)))
  = Some (String.append ip (String "."%char fp)).
Proof.
  intros Hip Hne Hfp Hd. destruct ip as [|c ip]; [contradiction|].
  pose proof (takeDigits_append (String c ip)
                (String "."%char (String.append fp rest)) Hip eq_refl) as Htake.
  cbn [allChars] in Hip. apply andb_true_iff in Hip as [Hc _].
  change (String.append (String c ip) (String "."%char (String.append fp rest)))
    with (String c (String.append ip (String "."%char (String.append fp rest))))
    in *.
  cbn [matchDecimal]. rewrite Hc, Htake.
  now rewrite (takeDigits_append fp rest Hfp Hd).
Qed.

(** What [extractBPMData] reads from a response with a non-empty text. *)
Lemma extractBPMData_bpm r model text :
  readText r = text -> text <> EmptyString ->
  exists d,
    extractBPMData (Some r) model = inr d /\ bpmText d = text /\
    bpm d = match matchDecimal text with
            | Some m =>
                match parseFloat m with
                | NaN => parseFloat text
                | other => other
                end
            | None => parseFloat text
            end.
Proof.
  intros Htext Hne. unfold extractBPMData. rewrite Htext.
  destruct text as [|c text]; [contradiction|].
  eexists. split; [reflexivity|]. split; [reflexivity|]. cbn [bpm].
  destruct (matchDecimal (String c text)) as [m|]; [|reflexivity].
  destruct (parseFloat m); reflexivity.
Qed.

Lemma append_nonempty pre ip rest :
  ip <> EmptyString -> String.append pre (String.append ip rest) <> EmptyString.
Proof.
  intros Hne. destruct pre; [|discriminate].
  destruct ip; [contradiction | discriminate].
Qed.

(** X12.  The tempo of an answer is the first number in its text, rounded
    as JavaScript rounds what it parses, whatever stands before it and
    after it.  When the text is some characters without digits, then a run
    of digits, then something that starts with neither a digit nor a dot,
    the tempo read is the number nearest to the integer the digits write,
    which is that integer when it is below 2^53; when the digits are
    followed by a dot, more digits (possibly none) and something that does
    not start with a digit, the tempo read is the number nearest to the
    decimal.  A sign, a unit or a second number in the text changes
    nothing: "-120" is read as 120 and "120 to 130" as 120. *)
Theorem tempo_is_first_number_of_the_text :
  forall (r : response) (model pre ip : string),
    hasDigit pre = false ->
    allChars isDigit ip = true ->
    ip <> EmptyString ->
    (forall rest,
        readText r = String.append pre (String.append ip rest) ->
        headIs isDigit rest = false -> headIs isDot rest = false ->
        exists d,
          extractBPMData (Some r) model = inr d /\
          bpm d = toDouble (inject_Z (digitsValue 0 ip)) /\
          ((0 <= digitsValue 0 ip < 2 ^ 53)%Z ->
           bpm d = Finite (inject_Z (digitsValue 0 ip)))) /\
    (forall fp rest,
        readText r =
          String.append pre
            (String.append ip (String "."%char (String.append fp rest))) ->
        allChars isDigit fp = true -> headIs isDigit rest = false ->
        exists d,
          extractBPMData (Some r) model = inr d /\
          bpm d = toDouble (decimalValue ip fp)).
Proof.
  assert (Hkeep : forall x y : jsnum,
             x <> NaN ->
             match x with
             | NaN => y
             | Infinity negative => Infinity negative
             | Finite q => Finite q
             end = x)
    by (intros [] y H; [contradiction | reflexivity | reflexivity]).
  assert (Hnum : forall x, toDouble x <> NaN).
  { intros x. unfold toDouble, nearestDouble.
    destruct (Qnum x) as [|n|n]; [discriminate| |];
      destruct (_ && _); discriminate. }
  intros r model pre ip Hpre Hip Hne. split.
  - intros rest Htext Hd Hdot.
    destruct (extractBPMData_bpm r model _ Htext (append_nonempty pre ip rest Hne))
      as (d & Hrun & _ & Hbpm).
    rewrite (matchDecimal_skip pre _ Hpre),
      (matchDecimal_integer ip rest Hip Hne Hd Hdot),
      (parseFloat_integer ip Hip Hne), Hkeep in Hbpm by apply Hnum.
    exists d. split; [exact Hrun|]. split; [exact Hbpm|].
    intros Hsmall. rewrite Hbpm. now apply toDouble_integer.
  - intros fp rest Htext Hfp Hd.
    destruct (extractBPMData_bpm r model _ Htext
                (append_nonempty pre ip _ Hne)) as (d & Hrun & _ & Hbpm).
    rewrite (matchDecimal_skip pre _ Hpre),
      (matchDecimal_decimal ip fp rest Hip Hne Hfp Hd),
      (parseFloat_decimal ip fp Hip Hne Hfp), Hkeep in Hbpm by apply Hnum.
    exists d. split; [exact Hrun | exact Hbpm].
Qed.

(** X12 on the answers "-120 to 130 BPM", read as 120, and
    "299.99999999999999999", read as 300. *)
Lemma tempo_is_first_number_witness :
  (exists d,
      extractBPMData
        (Some {| responseText := Some "-120 to 130 BPM"; candidateText := None;
                 groundingSources := []; groundingQueries := [] |})
        "gemini-2.5-flash-lite" = inr d /\
      bpm d = Finite 120) /\
  (exists d,
      extractBPMData
        (Some {| responseText := Some "299.99999999999999999"; candidateText := None;
                 groundingSources := []; groundingQueries := [] |})
        "gemini-2.5-flash-lite" = inr d /\
      bpm d = Finite 300).
Proof.
  split.
  - destruct (proj1 (tempo_is_first_number_of_the_text
                       {| responseText := Some "-120 to 130 BPM";
                          candidateText := None;
                          groundingSources := []; groundingQueries := [] |}
                       "gemini-2.5-flash-lite" "-" "120" eq_refl eq_refl
                       ltac:(discriminate))
                " to 130 BPM" eq_refl eq_refl eq_refl) as (d & H1 & _ & H3).
    exists d. split; [exact H1|]. apply H3. vm_compute.
    split; [discriminate | reflexivity].
  - destruct (proj2 (tempo_is_first_number_of_the_text
                       {| responseText := Some "299.99999999999999999";
                          candidateText := None;
                          groundingSources := []; groundingQueries := [] |}
                       "gemini-2.5-flash-lite" EmptyString "299" eq_refl eq_refl
                       ltac:(discriminate))
                "99999999999999999" EmptyString eq_refl eq_refl eq_refl)
      as (d & H1 & H2).
    exists d. split; [exact H1|]. rewrite H2. vm_compute. reflexivity.
Defined.

(** ** More on the catalog client *)

Lemma totalSleep_app evs1 evs2 :
  totalSleep (evs1 ++ evs2) = totalSleep evs1 + totalSleep evs2.
Proof. unfold totalSleep. now rewrite List.map_app, list_sum_app. Qed.

(** X13.  Throttling: when the server answers 429, [spGet] does not touch
    the credentials; it sleeps for the announced delay (5 seconds when the
    header is missing) plus 2 seconds and sends the same request again, and
    the outcome of the request is the outcome of that retransmission.
    [spPost] has no such handling: a 429 answer makes it throw at once,
    without sleeping and without a second attempt. *)
Theorem throttled_get_waits_and_retries_post_fails :
  forall (path : string) (res : http_response)
         (fetches : list fetch_outcome) (refreshes : list refresh_outcome),
    status res = 429 ->
    (let first := spGet path (Response res :: fetches) refreshes in
     let again := spGet path fetches refreshes in
     snd first = snd again /\
     countFetches (fst first) = S (countFetches (fst again)) /\
     countRefreshes (fst first) = countRefreshes (fst again) /\
     totalSleep (fst first)
     = default 5 (retryAfter res) * 1000 + 2000 + totalSleep (fst again)) /\
    (let post := spPost path (Response res :: fetches) refreshes in
     snd post = Threw (String.append "POST " (String.append path " failed")) /\
     countFetches (fst post) = 1 /\ countRefreshes (fst post) = 0 /\
     totalSleep (fst post) = 0).
Proof.
  intros path res fetches refreshes H429. split.
  - cbn [spGet]. rewrite H429. cbn [Nat.eqb].
    destruct (spGet path fetches refreshes) as [evs result]. cbn [fst snd].
    rewrite countFetches_app, countRefreshes_app, totalSleep_app.
    repeat split.
  - cbn [spPost]. rewrite H429. cbn [Nat.eqb].
    unfold ok. rewrite H429. repeat split.
Qed.

(** X13 on a 429 answer without header followed by a success. *)
Lemma throttled_get_witness :
  snd (spGet "me" [Response {| status := 429; retryAfter := None; body := "" |};
                   success "{}"] []) = Returned "{}" /\
  totalSleep (fst (spGet "me" [Response {| status := 429; retryAfter := None;
                                            body := "" |}; success "{}"] []))
  = 5 * 1000 + 2000.
Proof.
  destruct (proj1 (throttled_get_waits_and_retries_post_fails "me"
                     {| status := 429; retryAfter := None; body := "" |}
                     [success "{}"] [] eq_refl)) as (H1 & _ & _ & H4).
  split; [exact H1 | exact H4].
Defined.

Lemma count401_cons res fetches :
  count401 (Response res :: fetches)
  = (if (status res =? 401)%nat then 1 else 0) + count401 fetches.
Proof.
  unfold count401. cbn [List.filter]. now destruct (status res =? 401)%nat.
Qed.

Lemma countFetches_cons e evs :
  countFetches (e :: evs)
  = (match e with Fetch => 1 | _ => 0 end) + countFetches evs.
Proof. unfold countFetches. cbn [List.filter]. now destruct e. Qed.

Lemma countRefreshes_cons e evs :
  countRefreshes (e :: evs)
  = (match e with RefreshToken => 1 | _ => 0 end) + countRefreshes evs.
Proof. unfold countRefreshes. cbn [List.filter]. now destruct e. Qed.

Lemma totalSleep_cons e evs :
  totalSleep (e :: evs)
  = (match e with Sleep ms => ms | _ => 0 end) + totalSleep evs.
Proof. reflexivity. Qed.

(** Brings the counters of a trace to sums of the counters of its parts. *)
Ltac count_events :=
  rewrite ?count401_cons, ?countFetches_app, ?countRefreshes_app,
    ?totalSleep_app, ?countFetches_cons, ?countRefreshes_cons, ?totalSleep_cons;
  change (countFetches []) with 0; change (countRefreshes []) with 0;
  change (totalSleep []) with 0.

(** Closes the goals about a run that ends at once. *)
Ltac ends_at_once :=
  cbn; repeat match goal with |- _ /\ _ => split end;
  try lia; try reflexivity; try (intros ? [=]).

Lemma spGet_bounds path fetches :
  forall refreshes,
    let run := spGet path fetches refreshes in
    countFetches (fst run) <= List.length fetches /\
    countRefreshes (fst run) <= count401 fetches /\
    (forall json, snd run = Returned json ->
       exists res, In (Response res) fetches /\ ok res = true /\ body res = json).
Proof.
  induction fetches as [|f fetches IH]; intros refreshes; cbv zeta;
    [ends_at_once|].
  destruct f as [message | res]; cbn [spGet]; [ends_at_once|].
  rewrite count401_cons.
  destruct (status res =? 401)%nat eqn:E401.
  - destruct refreshes as [|o refreshes]; [ends_at_once|].
    destruct o; cbn [refreshSpotifyToken]; [|ends_at_once|ends_at_once].
    destruct (IH refreshes) as (IH1 & IH2 & IH3).
    destruct (spGet path fetches refreshes) as [evs result].
    cbn [fst snd] in *.
    count_events.
    split; [cbn [List.length]; lia|]. split; [lia|].
    intros json Hj. destruct (IH3 json Hj) as (r & Hin & Hok & Hb).
    exists r. repeat split; [now right | assumption | assumption].
  - destruct (status res =? 429)%nat eqn:E429.
    + destruct (IH refreshes) as (IH1 & IH2 & IH3).
      destruct (spGet path fetches refreshes) as [evs result].
      cbn [fst snd] in *.
      count_events.
      split; [cbn [List.length]; lia|]. split; [lia|].
      intros json Hj. destruct (IH3 json Hj) as (r & Hin & Hok & Hb).
      exists r. repeat split; [now right | assumption | assumption].
    + destruct (ok res) eqn:Hok; [|ends_at_once].
      cbn [fst snd]. count_events.
      split; [cbn [List.length]; lia|]. split; [lia|].
      intros json [= <-]. exists res. repeat split; [now left | assumption].
Qed.

Lemma spPost_bounds path fetches :
  forall refreshes,
    let run := spPost path fetches refreshes in
    countFetches (fst run) <= List.length fetches /\
    countRefreshes (fst run) <= count401 fetches /\
    totalSleep (fst run) = 0 /\
    (forall json, snd run = Returned json ->
       exists res, In (Response res) fetches /\ ok res = true /\ body res = json).
Proof.
  induction fetches as [|f fetches IH]; intros refreshes; cbv zeta;
    [ends_at_once|].
  destruct f as [message | res]; cbn [spPost]; [ends_at_once|].
  rewrite count401_cons.
  destruct (status res =? 401)%nat eqn:E401.
  - destruct refreshes as [|o refreshes]; [ends_at_once|].
    destruct o; cbn [refreshSpotifyToken]; [|ends_at_once|ends_at_once].
    destruct (IH refreshes) as (IH1 & IH2 & IH3 & IH4).
    destruct (spPost path fetches refreshes) as [evs result].
    cbn [fst snd] in *.
    count_events.
    split; [cbn [List.length]; lia|]. split; [lia|]. split; [lia|].
    intros json Hj. destruct (IH4 json Hj) as (r & Hin & Hok & Hb).
    exists r. repeat split; [now right | assumption | assumption].
  - destruct (ok res) eqn:Hok; [|ends_at_once].
    cbn [fst snd]. count_events.
    split; [cbn [List.length]; lia|]. split; [lia|].
    split; [reflexivity|].
    intros json [= <-]. exists res. repeat split; [now left | assumption].
Qed.

(** X14.  For every sequence of server answers and refresh outcomes,
    [spGet] and [spPost] return data only from an answer with a success
    status (200 to 299), whose body they return; they refresh the token at
    most once per 401 answer of the server and never otherwise; they send
    the request at most once per answer; and [spPost] never sleeps. *)
Theorem requests_return_only_successful_answers :
  forall (path : string) (fetches : list fetch_outcome)
         (refreshes : list refresh_outcome),
    (let run := spGet path fetches refreshes in
     countFetches (fst run) <= List.length fetches /\
     countRefreshes (fst run) <= count401 fetches /\
     (forall json, snd run = Returned json ->
        exists res, In (Response res) fetches /\ ok res = true /\ body res = json)) /\
    (let run := spPost path fetches refreshes in
     countFetches (fst run) <= List.length fetches /\
     countRefreshes (fst run) <= count401 fetches /\
     totalSleep (fst run) = 0 /\
     (forall json, snd run = Returned json ->
        exists res, In (Response res) fetches /\ ok res = true /\ body res = json)).
Proof.
  intros path fetches refreshes. split.
  - apply spGet_bounds.
  - apply spPost_bounds.
Qed.

(** *** The listings return everything, once *)

Lemma sliceServer_page {A : Type} (all : list A) (l o : nat) :
  sliceServer all {| limit := l; offset := o |} = firstn l (skipn o all).
Proof. reflexivity. Qed.

Lemma getAllSavedTracksLoop_step {A : Type} (server : listing A) select fuel
    start items sent :
  getAllSavedTracksLoop (S fuel) server select start items sent =
  if (List.length (server {| limit := 10; offset := start |}) =? 10)%nat
  then getAllSavedTracksLoop fuel server select (start + 10)
         (items ++ omap select (server {| limit := 10; offset := start |}))
         (sent ++ [{| limit := 10; offset := start |}])
  else Some (items ++ omap select (server {| limit := 10; offset := start |}),
             sent ++ [{| limit := 10; offset := start |}]).
Proof. reflexivity. Qed.

Lemma getAllSavedTracksLoop_complete {A : Type} (all : list A) select fuel :
  forall start items sent,
    List.length all < start + 10 * S fuel ->
    exists sent',
      getAllSavedTracksLoop (S fuel) (sliceServer all) select start items sent
      = Some (items ++ omap select (skipn start all), sent').
Proof.
  induction fuel as [|fuel IH]; intros start items sent Hfuel;
    rewrite getAllSavedTracksLoop_step, sliceServer_length, sliceServer_page.
  - destruct (Nat.min 10 (List.length all - start) =? 10)%nat eqn:E.
    + apply Nat.eqb_eq in E. lia.
    + apply Nat.eqb_neq in E. eexists.
      rewrite List.firstn_all2 by (rewrite List.length_skipn; lia). reflexivity.
  - destruct (Nat.min 10 (List.length all - start) =? 10)%nat eqn:E.
    + destruct (IH (start + 10) (items ++ omap select (firstn 10 (skipn start all)))
                  (sent ++ [{| limit := 10; offset := start |}])) as [sent' Hrun];
        [lia|].
      exists sent'. rewrite Hrun. f_equal. f_equal.
      rewrite <- app_assoc. f_equal. rewrite <- omap_app. f_equal.
      replace (start + 10) with (10 + start) by lia.
      rewrite <- List.skipn_skipn. apply List.firstn_skipn.
    + apply Nat.eqb_neq in E. eexists.
      rewrite List.firstn_all2 by (rewrite List.length_skipn; lia). reflexivity.
Qed.

(** X15.  Against a server that holds a finite library and answers every
    page request with the slice asked for, [getAllSavedTracks] returns
    (given fuel for one round per ten items and one more) exactly the usable
    tracks of the whole library, each once and in the order of the
    library: no page is skipped and none is read twice. *)
Theorem getAllSavedTracks_returns_the_whole_library :
  forall (A : Type) (all : list A) (select : A -> option track) (fuel : nat),
    List.length all < 10 * fuel ->
    exists sent : list page_request,
      getAllSavedTracks fuel (sliceServer all) select = Some (omap select all, sent) /\
      stopsAtFirstShortPage (sliceServer all) 10 sent.
Proof.
  intros A all select fuel Hfuel.
  destruct fuel as [|fuel]; [lia|].
  destruct (getAllSavedTracksLoop_complete all select fuel 0 [] []) as [sent Hrun];
    [lia|].
  exists sent. cbn [app skipn] in Hrun. split; [exact Hrun|].
  apply (getAllSavedTracks_stops (sliceServer all) select (S fuel) _ Hrun).
Qed.

(** X15 on a library of 25 tracks. *)
Lemma getAllSavedTracks_witness :
  exists sent : list page_request,
    getAllSavedTracks 3 (sliceServer (seq 0 25))
      (fun n => Some (sampleTrack "a" (N.of_nat n)))
    = Some (omap (fun n => Some (sampleTrack "a" (N.of_nat n))) (seq 0 25), sent).
Proof.
  destruct (getAllSavedTracks_returns_the_whole_library nat (seq 0 25)
              (fun n => Some (sampleTrack "a" (N.of_nat n))) 3) as (sent & H & _).
  - cbn. lia.
  - exists sent. exact H.
Defined.




(** *** The tracks of the selected playlists *)

Lemma getAllSavedTracksLoop_requests {A : Type} (all : list A) select fuel :
  forall start items sent,
    List.length all < start + 10 * S fuel ->
    getAllSavedTracksLoop (S fuel) (sliceServer all) select start items sent
    = Some (items ++ omap select (skipn start all),
            sent ++ List.map (fun k => {| limit := 10; offset := start + 10 * k |})
                      (seq 0 (S ((List.length all - start) / 10)))).
Proof.
  induction fuel as [|fuel IH]; intros start items sent Hfuel;
    rewrite getAllSavedTracksLoop_step, sliceServer_length, sliceServer_page.
  - destruct (Nat.min 10 (List.length all - start) =? 10)%nat eqn:E.
    + apply Nat.eqb_eq in E. lia.
    + apply Nat.eqb_neq in E.
      rewrite List.firstn_all2 by (rewrite List.length_skipn; lia).
      rewrite Nat.div_small by lia. cbn [seq List.map].
      rewrite Nat.mul_0_r, Nat.add_0_r. reflexivity.
  - destruct (Nat.min 10 (List.length all - start) =? 10)%nat eqn:E.
    + apply Nat.eqb_eq in E.
      rewrite IH by lia. f_equal. f_equal.
      * rewrite <- app_assoc. f_equal. rewrite <- omap_app. f_equal.
        replace (start + 10) with (10 + start) by lia.
        rewrite <- List.skipn_skipn. apply List.firstn_skipn.
      * rewrite <- app_assoc. f_equal.
        replace (List.length all - start)
          with ((List.length all - (start + 10)) + 1 * 10) by lia.
        rewrite Nat.div_add by lia.
        replace ((List.length all - (start + 10)) / 10 + 1)
          with (S ((List.length all - (start + 10)) / 10)) by lia.
        set (n := (List.length all - (start + 10)) / 10).
        change (seq 0 (S (S n))) with (0 :: seq 1 (S n)).
        rewrite <- seq_shift. cbn [List.map app]. rewrite List.map_map.
        rewrite Nat.mul_0_r, Nat.add_0_r. f_equal.
        apply List.map_ext. intros k. f_equal. lia.
    + apply Nat.eqb_neq in E.
      rewrite List.firstn_all2 by (rewrite List.length_skipn; lia).
      rewrite Nat.div_small by lia. cbn [seq List.map].
      rewrite Nat.mul_0_r, Nat.add_0_r. reflexivity.
Qed.

Lemma getAllTracksFromPlaylistsLoop_complete {A : Type}
    (library : string -> list A) select fuel :
  forall ids results sent slept,
    Forall (fun pid => List.length (library pid) < 10 * fuel) ids ->
    getAllTracksFromPlaylistsLoop fuel (fun pid => sliceServer (library pid))
      select ids results sent slept
    = Some (results ++ flat_map (fun pid => omap select (library pid)) ids,
            sent ++ flat_map
                      (fun pid => List.map (pair pid)
                                    (pagesOf 10 (List.length (library pid)))) ids,
            slept
            + 500 * list_sum (List.map (fun pid => S (List.length (library pid) / 10)) ids)
            + 2000 * (List.length ids - 1)).
Proof.
  induction ids as [|pid rest IH]; intros results sent slept Hfuel.
  - cbn. rewrite !app_nil_r. f_equal. f_equal. lia.
  - apply Forall_cons in Hfuel as [Hpid Hrest].
    destruct fuel as [|fuel]; [lia|].
    cbn [getAllTracksFromPlaylistsLoop].
    rewrite getAllSavedTracksLoop_requests by lia.
    rewrite IH by exact Hrest.
    cbn [app skipn flat_map List.map list_sum List.length].
    rewrite Nat.sub_0_r, !List.length_map, List.length_seq, <- !app_assoc.
    unfold pagesOf at 2. cbn [list_sum].
    f_equal. f_equal.
    match goal with
    | |- context [list_sum (?a :: ?l)] =>
        change (list_sum (a :: l)) with (a + list_sum l)
    end.
    destruct rest; cbn [List.length]; lia.
Qed.

(** X17.  Against servers that answer every page request of a playlist with
    the slice asked for, [getAllTracksFromPlaylists(ids)] returns (given
    fuel for the longest playlist) the usable tracks of the playlists, whole
    and in the order of [ids], a playlist named twice being read and
    returned twice; a playlist of n items costs n/10 (rounded down) + 1
    requests, so one more request than full pages; and the call sleeps 500
    ms per request and 2000 ms between two playlists. *)
Theorem getAllTracksFromPlaylists_returns_every_playlist_whole :
  forall (A : Type) (library : string -> list A) (select : A -> option track)
         (ids : list string) (fuel : nat),
    Forall (fun pid => List.length (library pid) < 10 * fuel) ids ->
    getAllTracksFromPlaylists fuel (fun pid => sliceServer (library pid)) select ids
    = Some (flat_map (fun pid => omap select (library pid)) ids,
            flat_map (fun pid => List.map (pair pid)
                                   (pagesOf 10 (List.length (library pid)))) ids,
            500 * list_sum (List.map (fun pid => S (List.length (library pid) / 10)) ids)
            + 2000 * (List.length ids - 1)).
Proof.
  intros A library select ids fuel Hfuel. unfold getAllTracksFromPlaylists.
  rewrite getAllTracksFromPlaylistsLoop_complete by exact Hfuel. reflexivity.
Qed.

(** X17 on two playlists of 20 and 3 items: 3 + 1 requests, 4000 ms. *)
Lemma getAllTracksFromPlaylists_witness :
  let library := fun pid : string => if String.eqb pid "a" then seq 0 20 else seq 20 3 in
  let select := fun n : nat => Some (sampleTrack "t" (N.of_nat n)) in
  exists sent,
    getAllTracksFromPlaylists 3 (fun pid => sliceServer (library pid)) select ["a"; "b"]
    = Some (omap select (seq 0 23), sent, 4000) /\ List.length sent = 4.
Proof.
  cbv zeta. eexists. split.
  - rewrite (getAllTracksFromPlaylists_returns_every_playlist_whole nat
               (fun pid : string => if String.eqb pid "a" then seq 0 20 else seq 20 3)
               (fun n : nat => Some (sampleTrack "t" (N.of_nat n))) ["a"; "b"] 3).
    + reflexivity.
    + repeat constructor; cbn; lia.
  - reflexivity.
Defined.

(** *** The candidates of [loadCandidates] *)

Lemma objectSet_keys {V : Type} (o : list (string * V)) k v :
  List.map fst (objectSet o k v) = setAdd (List.map fst o) k.
Proof.
  induction o as [|[k' v'] o IH]; cbn [objectSet List.map fst].
  - unfold setAdd. case_bool_decide as H; [inversion H | reflexivity].
  - destruct (String.eqb_spec k' k) as [-> | Hne]; cbn [List.map fst].
    + unfold setAdd. case_bool_decide as H; [reflexivity|].
      exfalso. apply H. apply elem_of_cons. now left.
    + rewrite IH. unfold setAdd.
      case_bool_decide as H1; case_bool_decide as H2; try reflexivity.
      * exfalso. apply H2. apply elem_of_cons. now right.
      * exfalso. apply elem_of_cons in H2 as [-> | H2]; [now apply Hne | now apply H1].
Qed.

Lemma objectSet_In {V : Type} (o : list (string * V)) k0 v0 :
  NoDup (List.map fst o) ->
  forall k v,
    In (k, v) (objectSet o k0 v0) <->
    (k = k0 /\ v = v0) \/ (k <> k0 /\ In (k, v) o).
Proof.
  induction o as [|[k' v'] o IH]; intros Hnd k v; cbn [objectSet].
  - cbn. split.
    + intros [H | []]. injection H as <- <-. now left.
    + intros [[-> ->] | [_ []]]. now left.
  - cbn [List.map fst] in Hnd. apply NoDup_cons in Hnd as [Hk' Hnd].
    destruct (String.eqb_spec k' k0) as [-> | Hne].
    + cbn [In]. split.
      * intros [H | H].
        -- injection H as <- <-. now left.
        -- right. split; [|now right]. intros ->. apply Hk'.
           apply list_elem_of_In. apply (in_map fst) in H. exact H.
      * intros [[-> ->] | [Hk [H | H]]].
        -- now left.
        -- injection H as -> _. now contradiction Hk.
        -- now right.
    + cbn [In]. rewrite (IH Hnd). split.
      * intros [H | [[-> ->] | [Hk H]]].
        -- injection H as <- <-. right. split; [exact Hne | now left].
        -- now left.
        -- right. split; [exact Hk | now right].
      * intros [[-> ->] | [Hk [H | H]]].
        -- right. now left.
        -- now left.
        -- right. right. now split.
Qed.

Lemma uniq_snoc {A : Type} `{EqDecision A} (l : list A) (x : A) :
  uniq (l ++ [x]) = setAdd (uniq l) x.
Proof. unfold uniq. now rewrite fold_left_app. Qed.

Lemma uniq_NoDup {A : Type} `{EqDecision A} (l : list A) : NoDup (uniq l).
Proof.
  destruct (fold_setAdd_spec l []) as (added & Hrun & _ & Hnd & _).
  unfold uniq. now rewrite Hrun.
Qed.

(** The object built by the [reduce] of [loadCandidates]: its keys are the
    ids in the order of their first occurrence, and the value under an id
    is the last track of [sources] with that id. *)
Lemma reduce_by_id_spec (sources : list track) :
  let obj := fold_left (fun acc t => objectSet acc (track_id t) t) sources [] in
  List.map fst obj = uniq (List.map track_id sources) /\
  (forall k v, In (k, v) obj <-> track_id v = k /\ lastWithItsId sources v).
Proof.
  induction sources as [|t sources IH] using rev_ind; cbv zeta.
  - split; [reflexivity|]. intros k v. split; [intros [] |].
    intros [_ (pre & post & H & _)]. now destruct pre.
  - cbv zeta in IH. destruct IH as [Hkeys Hvals].
    rewrite fold_left_app. cbn [fold_left].
    set (obj := fold_left (fun acc t => objectSet acc (track_id t) t) sources []) in *.
    split.
    + rewrite objectSet_keys, Hkeys, List.map_app. cbn [List.map].
      now rewrite uniq_snoc.
    + intros k v. rewrite objectSet_In by (rewrite Hkeys; apply uniq_NoDup).
      rewrite Hvals. split.
      * intros [[-> ->] | [Hk [Hid (pre & post & -> & Hpost)]]].
        -- split; [reflexivity|]. exists sources, []. split; [reflexivity | constructor].
        -- split; [exact Hid|]. exists pre, (post ++ [t]).
           split; [now rewrite <- app_assoc|].
           apply Forall_app. split; [exact Hpost|].
           constructor; [|constructor]. congruence.
      * intros [Hid (pre & post & Hsplit & Hpost)].
        destruct post as [|u post _] using rev_ind.
        -- apply app_inj_tail in Hsplit as [_ ->]. now left.
        -- right. rewrite app_comm_cons, app_assoc in Hsplit.
           apply app_inj_tail in Hsplit as [-> ->].
           apply Forall_app in Hpost as [Hpost Hu].
           apply Forall_inv in Hu.
           split; [congruence|]. split; [exact Hid|].
           now exists pre, post.
Qed.

Lemma insertByIndex_perm {V : Type} (p : string * V) l :
  Permutation (p :: l) (insertByIndex p l).
Proof.
  induction l as [|q l IH]; cbn [insertByIndex]; [reflexivity|].
  destruct (digitsValue 0 (fst p) <? digitsValue 0 (fst q))%Z; [reflexivity|].
  rewrite perm_swap. now apply perm_skip.
Qed.

Lemma objectValues_perm {V : Type} (o : list (string * V)) :
  exists entries, objectValues o = List.map snd entries /\ Permutation entries o.
Proof.
  unfold objectValues. eexists. split; [reflexivity|].
  induction o as [|p o IH]; [reflexivity|]. cbn [List.filter].
  destruct (isArrayIndex (fst p)); cbn [negb fold_right].
  - rewrite <- insertByIndex_perm. cbn [app]. now apply perm_skip.
  - rewrite <- Permutation_middle. now apply perm_skip.
Qed.

Lemma objectValues_no_index {V : Type} (o : list (string * V)) :
  Forall (fun p => isArrayIndex (fst p) = false) o -> objectValues o = List.map snd o.
Proof.
  intros H. unfold objectValues.
  assert (Hindex : List.filter (fun p : string * V => isArrayIndex (fst p)) o = []).
  { induction H as [|p o Hp _ IH]; [reflexivity|]. cbn [List.filter]. now rewrite Hp. }
  assert (Hother : List.filter (fun p : string * V => negb (isArrayIndex (fst p))) o = o).
  { clear Hindex. induction H as [|p o Hp _ IH]; [reflexivity|]. cbn [List.filter].
    rewrite Hp. cbn [negb]. now f_equal. }
  now rewrite Hindex, Hother.
Qed.

(** X18.  The removal of duplicates in [loadCandidates] keeps, for every
    track id of [sources], exactly one track: the last one of [sources]
    with that id.  So the result has no two tracks with the same id, and a
    track is in the result if and only if it is the last of its id.  When no
    id is an array index (the ids of the catalog are not), the result lists
    the ids in the order of their first occurrence in [sources]: the track
    kept is the last copy, at the place of the first. *)
Theorem dedupe_keeps_last_track_of_each_id :
  forall sources : list track,
    NoDup (List.map track_id (dedupeById sources)) /\
    (forall t, In t (dedupeById sources) <-> lastWithItsId sources t) /\
    (Forall (fun t => isArrayIndex (track_id t) = false) sources ->
     List.map track_id (dedupeById sources) = uniq (List.map track_id sources)).
Proof.
  intros sources. unfold dedupeById.
  destruct (reduce_by_id_spec sources) as [Hkeys Hvals]. cbv zeta in Hkeys, Hvals.
  set (obj := fold_left (fun acc t => objectSet acc (track_id t) t) sources []) in *.
  assert (Hids : forall entries : list (string * track),
             (forall p, In p entries -> In p obj) ->
             List.map track_id (List.map snd entries) = List.map fst entries).
  { intros entries Hsub. rewrite List.map_map. apply List.map_ext_in.
    intros [k v] Hin. apply Hsub, Hvals in Hin as [Hid _]. exact Hid. }
  destruct (objectValues_perm obj) as (entries & Hval & Hperm).
  split; [|split].
  - rewrite Hval, Hids.
    + apply NoDup_ListNoDup. apply (Permutation_NoDup (l := List.map fst obj)).
      * apply Permutation_map. now symmetry.
      * apply NoDup_ListNoDup. rewrite Hkeys. apply uniq_NoDup.
    + intros p Hp. now apply (Permutation_in _ Hperm).
  - intros t. rewrite Hval, in_map_iff. split.
    + intros ([k v] & <- & Hin). apply (Permutation_in _ Hperm) in Hin.
      now apply Hvals in Hin as [_ H].
    + intros Hlast. exists (track_id t, t). split; [reflexivity|].
      apply (Permutation_in _ (Permutation_sym Hperm)). now apply Hvals.
  - intros Hno. rewrite objectValues_no_index.
    + rewrite Hids by auto. exact Hkeys.
    + rewrite List.Forall_forall. intros [k v] Hin.
      apply Hvals in Hin as [<- (pre & post & -> & _)].
      rewrite List.Forall_forall in Hno. apply Hno.
      apply in_or_app. right. now left.
Qed.

(** X18 on three tracks, the first and the last with the same id. *)
Lemma dedupe_witness :
  List.map track_id
    (dedupeById [sampleTrack "a" 1; sampleTrack "b" 2; sampleTrack "a" 3])
  = ["a"; "b"] /\
  In (sampleTrack "a" 3)
    (dedupeById [sampleTrack "a" 1; sampleTrack "b" 2; sampleTrack "a" 3]).
Proof.
  pose proof (dedupe_keeps_last_track_of_each_id
                [sampleTrack "a" 1; sampleTrack "b" 2; sampleTrack "a" 3])
    as (_ & Hlast & Horder).
  split.
  - rewrite Horder; [reflexivity|]. repeat constructor.
  - apply Hlast. exists [sampleTrack "a" 1; sampleTrack "b" 2], [].
    split; [reflexivity | constructor].
Defined.

(** *** The scan of a playlist in [findMatchingSongs] *)

Lemma fold_startTrack (l : list track) :
  forall s,
    allTracks (fold_left startTrack l s) = allTracks s ++ l /\
    seenTrackIds (fold_left startTrack l s)
    = list_to_set (List.map track_id l) ∪ seenTrackIds s.
Proof.
  induction l as [|t l IH]; intros s; cbn [fold_left List.map list_to_set].
  - rewrite app_nil_r. split; [reflexivity|].
    symmetry. apply (left_id_L ∅ (∪)).
  - destruct (IH (startTrack s t)) as [Hall Hseen]. rewrite Hall, Hseen.
    cbn [startTrack allTracks seenTrackIds]. rewrite <- app_assoc.
    split; [reflexivity|].
    rewrite (assoc_L (∪)). f_equal. apply (comm_L (∪)).
Qed.

Lemma receivePage_allTracks s tracks :
  allTracks (receivePage s tracks)
  = allTracks s
    ++ List.filter (fun t => negb (bool_decide (track_id t ∈ seenTrackIds s))) tracks.
Proof. unfold receivePage. apply fold_startTrack. Qed.

Lemma receivePage_seen s tracks i :
  i ∈ seenTrackIds (receivePage s tracks) <->
  i ∈ seenTrackIds s \/ exists t, In t tracks /\ track_id t = i.
Proof.
  unfold receivePage.
  rewrite (proj2 (fold_startTrack _ s)), elem_of_union, elem_of_list_to_set.
  rewrite list_elem_of_In, in_map_iff. split.
  - intros [(t & Hid & Hin) | Hseen]; [|now left].
    apply List.filter_In in Hin as [Hin _]. right. now exists t.
  - intros [Hseen | (t & Hin & Hid)]; [now right|].
    destruct (decide (i ∈ seenTrackIds s)) as [Hseen | Hnew]; [now right|].
    left. exists t. split; [exact Hid|]. apply List.filter_In. split; [exact Hin|].
    rewrite Hid. now rewrite bool_decide_eq_false_2.
Qed.

Lemma countId_app i l1 l2 : countId i (l1 ++ l2) = countId i l1 + countId i l2.
Proof. unfold countId. now rewrite List.filter_app, List.length_app. Qed.

Lemma countId_zero i l :
  (forall t, In t l -> track_id t <> i) -> countId i l = 0.
Proof.
  intros H. unfold countId. induction l as [|t l IH]; [reflexivity|].
  cbn [List.filter]. destruct (String.eqb_spec (track_id t) i) as [Hid | _].
  - exfalso. apply (H t); [now left | exact Hid].
  - apply IH. intros u Hu. apply H. now right.
Qed.

Lemma countId_filter_new i s tracks :
  i ∉ seenTrackIds s ->
  countId i (List.filter (fun t => negb (bool_decide (track_id t ∈ seenTrackIds s))) tracks)
  = countId i tracks.
Proof.
  intros Hnew. unfold countId. induction tracks as [|t l IH]; [reflexivity|].
  cbn [List.filter]. case_bool_decide as Hseen; cbn [negb List.filter].
  - destruct (String.eqb_spec (track_id t) i) as [Hid | _]; [|exact IH].
    exfalso. apply Hnew. now rewrite <- Hid.
  - destruct (String.eqb (track_id t) i); cbn [List.length]; now rewrite IH.
Qed.

Lemma fold_receivePage_count (pages : list (list track)) i :
  forall s,
    countId i (allTracks (fold_left receivePage pages s))
    = countId i (allTracks s)
      + (if bool_decide (i ∈ seenTrackIds s) then 0
         else countId i (firstPageWith i pages)).
Proof.
  induction pages as [|p pages IH]; intros s; cbn [fold_left firstPageWith].
  - unfold countId at 3. cbn. destruct (bool_decide _); lia.
  - rewrite IH, receivePage_allTracks, countId_app.
    destruct (decide (i ∈ seenTrackIds s)) as [Hseen | Hseen].
    + rewrite (bool_decide_eq_true_2 (i ∈ seenTrackIds s)) by exact Hseen.
      rewrite bool_decide_eq_true_2 by (apply receivePage_seen; now left).
      rewrite (countId_zero i (List.filter _ p)); [lia|].
      intros t Ht <-. apply List.filter_In in Ht as [_ Ht].
      now rewrite bool_decide_eq_true_2 in Ht.
    + rewrite (bool_decide_eq_false_2 (i ∈ seenTrackIds s)) by exact Hseen.
      rewrite countId_filter_new by exact Hseen.
      destruct (existsb (fun t => String.eqb (track_id t) i) p) eqn:Ep.
      * rewrite bool_decide_eq_true_2; [lia|].
        apply receivePage_seen. right.
        apply existsb_exists in Ep as (t & Hin & Hid).
        apply String.eqb_eq in Hid. now exists t.
      * rewrite bool_decide_eq_false_2.
        -- rewrite (countId_zero i p); [lia|]. intros t Hin Hid.
           assert (Hex : existsb (fun t => String.eqb (track_id t) i) p = true).
           { apply existsb_exists. exists t. split; [exact Hin|].
             now apply String.eqb_eq. }
           congruence.
        -- rewrite receivePage_seen. intros [H | (t & Hin & Hid)]; [now apply Hseen|].
           assert (Hex : existsb (fun t => String.eqb (track_id t) i) p = true).
           { apply existsb_exists. exists t. split; [exact Hin|].
             now apply String.eqb_eq. }
           congruence.
Qed.

Lemma filter_map_NoDup {A B : Type} (f : A -> B) (p : A -> bool) (l : list A) :
  NoDup (List.map f l) -> NoDup (List.map f (List.filter p l)).
Proof.
  induction l as [|x l IH]; cbn [List.map List.filter]; [trivial|].
  intros Hnd. apply NoDup_cons in Hnd as [Hx Hnd].
  destruct (p x); cbn [List.map]; [|now apply IH].
  apply NoDup_cons. split; [|now apply IH].
  intros Hin. apply Hx. apply list_elem_of_In in Hin. apply list_elem_of_In.
  apply in_map_iff in Hin as (y & Hy & Hin). apply in_map_iff. exists y.
  split; [exact Hy|]. now apply List.filter_In in Hin as [Hin _].
Qed.

Lemma receivePage_invariant s tracks :
  NoDup (List.map track_id tracks) ->
  scanInvariant s -> scanInvariant (receivePage s tracks).
Proof.
  intros Hpage [Hnd Hseen]. split.
  - rewrite receivePage_allTracks, List.map_app. apply NoDup_app.
    split; [exact Hnd|]. split; [|now apply filter_map_NoDup].
    intros i Hi Hnew. apply list_elem_of_In in Hi, Hnew.
    apply in_map_iff in Hnew as (t & Hid & Hin).
    apply List.filter_In in Hin as [_ Hin]. apply Hseen in Hi.
    rewrite Hid, bool_decide_eq_true_2 in Hin by exact Hi. discriminate.
  - intros i. rewrite receivePage_seen, receivePage_allTracks, List.map_app, in_app_iff.
    rewrite Hseen. split.
    + intros [H | (t & Hin & Hid)]; [now left|].
      destruct (decide (i ∈ seenTrackIds s)) as [Hi | Hi]; [left; now apply Hseen|].
      right. apply in_map_iff. exists t. split; [exact Hid|].
      apply List.filter_In. split; [exact Hin|].
      rewrite Hid. now rewrite bool_decide_eq_false_2.
    + intros [H | H]; [now left|]. right.
      apply in_map_iff in H as (t & Hid & Hin).
      apply List.filter_In in Hin as [Hin _]. now exists t.
Qed.

Lemma fold_forEachNewTrack (l : list track) :
  forall c,
    scanState (fold_left forEachNewTrack l c) = fold_left startTrack l (scanState c) /\
    scanSession (fold_left forEachNewTrack l c) = scanSession c /\
    analysesStarted (fold_left forEachNewTrack l c)
    = analysesStarted c ++ (if targetReached (scanSession c) then [] else l).
Proof.
  induction l as [|t l IH]; intros c; cbn [fold_left].
  - split; [reflexivity|]. split; [reflexivity|].
    destruct (targetReached (scanSession c)); now rewrite app_nil_r.
  - destruct (IH (forEachNewTrack c t)) as (Hstate & Hsession & Hstarted).
    rewrite Hstate, Hsession, Hstarted.
    unfold forEachNewTrack, processTrackImmediately.
    cbn [scanSession]. destruct (targetReached (scanSession c)) eqn:Ereached;
      cbn [scanState scanSession analysesStarted]; rewrite ?Ereached.
    + now rewrite !app_nil_r.
    + now rewrite <- app_assoc.
Qed.

Lemma pageArrives_spec c tracks :
  scanState (pageArrives c tracks) = receivePage (scanState c) tracks /\
  scanSession (pageArrives c tracks) = scanSession c /\
  analysesStarted (pageArrives c tracks)
  = analysesStarted c
    ++ (if targetReached (scanSession c) then []
        else newTracks (scanState c) tracks).
Proof. unfold pageArrives. apply fold_forEachNewTrack. Qed.

Lemma runScan_state minTempo maxTempo (evs : list scan_event) :
  forall c,
    scanState (runScan minTempo maxTempo c evs)
    = fold_left receivePage (arrivedPages evs) (scanState c).
Proof.
  induction evs as [|[tracks | t bpm] evs IH]; intros c; [reflexivity| |].
  - unfold runScan in *. cbn [fold_left scanStep]. rewrite IH.
    cbn [arrivedPages omap list_omap fold_left].
    now rewrite (proj1 (pageArrives_spec c tracks)).
  - unfold runScan in *. cbn [fold_left scanStep]. now rewrite IH.
Qed.

(** An estimate cannot take the session back below the target. *)
Lemma estimate_keeps_target_reached minTempo maxTempo s t bpm :
  targetReached s = true ->
  snd (processTrackForSelection minTempo maxTempo s t bpm) = s.
Proof.
  unfold targetReached, processTrackForSelection. now intros ->.
Qed.

(** The analyses started are the tracks of [allTracks] up to the moment the
    target is reached. *)
Lemma scanStep_started minTempo maxTempo c e :
  ((targetReached (scanSession c) = false ->
    analysesStarted c = allTracks (scanState c)) /\
   exists late, allTracks (scanState c) = analysesStarted c ++ late) ->
  (targetReached (scanSession (scanStep minTempo maxTempo c e)) = false ->
   analysesStarted (scanStep minTempo maxTempo c e)
   = allTracks (scanState (scanStep minTempo maxTempo c e))) /\
  exists late,
    allTracks (scanState (scanStep minTempo maxTempo c e))
    = analysesStarted (scanStep minTempo maxTempo c e) ++ late.
Proof.
  intros [Hall (late & Hlate)]. destruct e as [tracks | t bpm]; cbn [scanStep].
  - destruct (pageArrives_spec c tracks) as (Hstate & Hsession & Hstarted).
    rewrite Hstate, Hsession, Hstarted, receivePage_allTracks.
    fold (newTracks (scanState c) tracks).
    destruct (targetReached (scanSession c)) eqn:Ereached.
    + split; [discriminate|]. exists (late ++ newTracks (scanState c) tracks).
      now rewrite app_nil_r, Hlate, <- app_assoc.
    + rewrite (Hall eq_refl). split; [reflexivity|]. exists [].
      now rewrite app_nil_r.
  - cbn [scanState scanSession analysesStarted]. split; [|now exists late].
    intros Hbelow. apply Hall.
    destruct (targetReached (scanSession c)) eqn:Ereached; [|reflexivity].
    rewrite estimate_keeps_target_reached in Hbelow by exact Ereached.
    congruence.
Qed.

Lemma runScan_started minTempo maxTempo (evs : list scan_event) :
  forall c,
    ((targetReached (scanSession c) = false ->
      analysesStarted c = allTracks (scanState c)) /\
     exists late, allTracks (scanState c) = analysesStarted c ++ late) ->
    (targetReached (scanSession (runScan minTempo maxTempo c evs)) = false ->
     analysesStarted (runScan minTempo maxTempo c evs)
     = allTracks (scanState (runScan minTempo maxTempo c evs))) /\
    exists late,
      allTracks (scanState (runScan minTempo maxTempo c evs))
      = analysesStarted (runScan minTempo maxTempo c evs) ++ late.
Proof.
  induction evs as [|e evs IH]; intros c Hc; [exact Hc|].
  unfold runScan in *. cbn [fold_left]. apply IH.
  now apply scanStep_started.
Qed.

(** Once the target is reached, no analysis is started any more. *)
Lemma runScan_frozen minTempo maxTempo (evs : list scan_event) :
  forall c,
    targetReached (scanSession c) = true ->
    analysesStarted (runScan minTempo maxTempo c evs) = analysesStarted c /\
    scanSession (runScan minTempo maxTempo c evs) = scanSession c.
Proof.
  induction evs as [|[tracks | t bpm] evs IH]; intros c Hreached;
    [now split| |]; unfold runScan in *; cbn [fold_left scanStep].
  - destruct (pageArrives_spec c tracks) as (_ & Hsession & Hstarted).
    destruct (IH (pageArrives c tracks)) as [H1 H2]; [now rewrite Hsession|].
    rewrite H1, H2, Hsession, Hstarted, Hreached. now rewrite app_nil_r.
  - rewrite estimate_keeps_target_reached by exact Hreached.
    destruct c as [s session started]. cbn [scanState scanSession analysesStarted] in *.
    now apply (IH {| scanState := s; scanSession := session;
                     analysesStarted := started |}).
Qed.

(** X19.  Whatever pages arrive and whatever estimates settle, in whatever
    order: the list [allTracks] of [findMatchingSongs] holds, for every
    track id, the tracks with that id of the first page that holds the id
    (a track met again in a later page or in another playlist is skipped,
    but two copies inside one page are both kept, because the set is
    consulted for the whole page before any id of the page is added); when
    no page holds an id twice, no id is kept twice and the set holds the
    ids kept.  The analyses started are these tracks up to the moment the
    target duration is reached and none from then on: they are an initial
    part of [allTracks], all of it as long as the target is not reached,
    and the list stays as it is once the target is reached. *)
Theorem scan_analyses_first_page_tracks_until_target :
  forall (minTempo maxTempo : Q) (target : N) (evs : list scan_event),
    let c := runScan minTempo maxTempo (newScan target) evs in
    (forall i, countId i (allTracks (scanState c))
               = countId i (firstPageWith i (arrivedPages evs))) /\
    (Forall (fun p => NoDup (List.map track_id p)) (arrivedPages evs) ->
     scanInvariant (scanState c)) /\
    (exists late, allTracks (scanState c) = analysesStarted c ++ late) /\
    (targetReached (scanSession c) = false ->
     analysesStarted c = allTracks (scanState c)) /\
    (forall before after,
        evs = before ++ after ->
        targetReached (scanSession (runScan minTempo maxTempo (newScan target) before))
        = true ->
        analysesStarted c
        = analysesStarted (runScan minTempo maxTempo (newScan target) before)).
Proof.
  intros minTempo maxTempo target evs c.
  assert (Hstarted : (targetReached (scanSession c) = false ->
                      analysesStarted c = allTracks (scanState c)) /\
                     exists late, allTracks (scanState c) = analysesStarted c ++ late).
  { apply runScan_started. split; [reflexivity|]. now exists []. }
  split; [|split; [|split; [|split]]].
  - intros i. subst c. rewrite runScan_state, fold_receivePage_count.
    rewrite bool_decide_eq_false_2 by apply not_elem_of_empty. reflexivity.
  - intros Hpages. subst c. rewrite runScan_state.
    assert (Hgen : forall pages s,
               Forall (fun p => NoDup (List.map track_id p)) pages ->
               scanInvariant s -> scanInvariant (fold_left receivePage pages s)).
    { induction pages as [|p pages IH]; intros s Hp Hs; [exact Hs|].
      apply Forall_cons in Hp as [Hp Hrest].
      cbn [fold_left]. apply IH; [exact Hrest|]. now apply receivePage_invariant. }
    apply Hgen; [exact Hpages|]. split; [constructor|]. intros i. cbn. split.
    + intros Hin. now apply not_elem_of_empty in Hin.
    + intros [].
  - apply Hstarted.
  - apply Hstarted.
  - intros before after -> Hreached. subst c. unfold runScan.
    rewrite fold_left_app.
    now apply (runScan_frozen minTempo maxTempo after).
Qed.

(** X19 on a scan with the target 1000 ms: a page holds the same track
    twice, its estimate fills the target, and a second page brings a new
    track.  Both copies are analysed; the new track is kept in [allTracks]
    and is not analysed. *)
Lemma scan_analyses_witness :
  let a := sampleTrack "a" 2000 in
  let b := sampleTrack "b" 2000 in
  let evs := [PageArrives [a; a]; EstimateSettles a (Some 120%Q); PageArrives [a; b]] in
  let c := runScan 100 140 (newScan 1000) evs in
  countId "a" (allTracks (scanState c)) = 2 /\
  allTracks (scanState c) = [a; a; b] /\
  analysesStarted c = [a; a].
Proof.
  cbv zeta.
  pose proof (scan_analyses_first_page_tracks_until_target 100 140 1000
                [PageArrives [sampleTrack "a" 2000; sampleTrack "a" 2000];
                 EstimateSettles (sampleTrack "a" 2000) (Some 120%Q);
                 PageArrives [sampleTrack "a" 2000; sampleTrack "b" 2000]])
    as (Hcount & _ & _ & _ & Hfrozen).
  cbv zeta in Hcount, Hfrozen. split; [|split].
  - rewrite Hcount. reflexivity.
  - vm_compute. reflexivity.
  - rewrite (Hfrozen
               [PageArrives [sampleTrack "a" 2000; sampleTrack "a" 2000];
                EstimateSettles (sampleTrack "a" 2000) (Some 120%Q)]
               [PageArrives [sampleTrack "a" 2000; sampleTrack "b" 2000]]
               eq_refl); [|vm_compute; reflexivity].
    vm_compute. reflexivity.
Defined.

Lemma scanPlaylistLoop_step {A : Type} (server : listing A) select fuel start s
    acc sent slept :
  scanPlaylistLoop (S fuel) server select start s acc sent slept =
  if (List.length (omap select (server {| limit := 100; offset := start |})) =? 100)%nat
  then scanPlaylistLoop fuel server select (start + 100)
         (receivePage s (omap select (server {| limit := 100; offset := start |})))
         (acc ++ omap select (server {| limit := 100; offset := start |}))
         (sent ++ [{| limit := 100; offset := start |}]) (slept + 50)
  else Some (receivePage s (omap select (server {| limit := 100; offset := start |})),
             acc ++ omap select (server {| limit := 100; offset := start |}),
             sent ++ [{| limit := 100; offset := start |}], slept).
Proof. reflexivity. Qed.

Lemma omap_length_le {A B : Type} (f : A -> option B) (l : list A) :
  List.length (omap f l) <= List.length l.
Proof.
  induction l as [|x l IH]; [reflexivity|]. cbn [omap list_omap List.length].
  destruct (f x); cbn [List.length]; lia.
Qed.

Lemma omap_length_all {A B : Type} (f : A -> option B) (l : list A) :
  Forall (fun x => f x <> None) l -> List.length (omap f l) = List.length l.
Proof.
  induction 1 as [|x l Hx _ IH]; [reflexivity|]. cbn [omap list_omap List.length].
  destruct (f x); [|contradiction]. cbn [List.length]. now rewrite <- IH.
Qed.

Lemma omap_length_lt {A B : Type} (f : A -> option B) (l : list A) :
  Exists (fun x => f x = None) l -> List.length (omap f l) < List.length l.
Proof.
  induction 1 as [x l Hx | x l _ IH]; cbn [omap list_omap List.length].
  - rewrite Hx. pose proof (omap_length_le f l). lia.
  - destruct (f x); cbn [List.length]; [lia|].
    pose proof (omap_length_le f l). lia.
Qed.

Lemma scanPlaylistLoop_all_usable {A : Type} (all : list A) select fuel :
  Forall (fun x => select x <> None) all ->
  forall start s acc sent slept,
    List.length all < start + 100 * S fuel ->
    exists s',
      scanPlaylistLoop (S fuel) (sliceServer all) select start s acc sent slept
      = Some (s', acc ++ omap select (skipn start all),
              sent ++ List.map (fun k => {| limit := 100; offset := start + 100 * k |})
                        (seq 0 (S ((List.length all - start) / 100))),
              slept + 50 * ((List.length all - start) / 100)).
Proof.
  intros Husable.
  assert (Hpage : forall start,
             List.length (omap select (firstn 100 (skipn start all)))
             = Nat.min 100 (List.length all - start)).
  { intros start. rewrite omap_length_all.
    - now rewrite List.length_firstn, List.length_skipn.
    - now apply Forall_take, Forall_drop. }
  induction fuel as [|fuel IH]; intros start s acc sent slept Hfuel;
    rewrite scanPlaylistLoop_step, sliceServer_page, Hpage.
  - destruct (Nat.min 100 (List.length all - start) =? 100)%nat eqn:E.
    + apply Nat.eqb_eq in E. lia.
    + apply Nat.eqb_neq in E. eexists.
      rewrite List.firstn_all2 by (rewrite List.length_skipn; lia).
      rewrite Nat.div_small by lia. cbn [seq List.map].
      rewrite !Nat.mul_0_r, !Nat.add_0_r. reflexivity.
  - destruct (Nat.min 100 (List.length all - start) =? 100)%nat eqn:E.
    + apply Nat.eqb_eq in E.
      edestruct (IH (start + 100)) as [s' Hrun]; [lia|].
      exists s'. rewrite Hrun.
      assert (Ediv : (List.length all - start) / 100
                     = S ((List.length all - (start + 100)) / 100)).
      { replace (List.length all - start)
          with ((List.length all - (start + 100)) + 1 * 100) by lia.
        rewrite Nat.div_add by lia. lia. }
      rewrite Ediv. set (n := (List.length all - (start + 100)) / 100).
      assert (Etracks : (acc ++ omap select (firstn 100 (skipn start all)))
                        ++ omap select (skipn (start + 100) all)
                        = acc ++ omap select (skipn start all)).
      { rewrite <- app_assoc, <- omap_app.
        replace (start + 100) with (100 + start) by lia.
        now rewrite <- List.skipn_skipn, List.firstn_skipn. }
      assert (Esent : (sent ++ [{| limit := 100; offset := start |}])
                      ++ List.map (fun k => {| limit := 100;
                                               offset := start + 100 + 100 * k |})
                           (seq 0 (S n))
                      = sent ++ List.map (fun k => {| limit := 100;
                                                      offset := start + 100 * k |})
                                  (seq 0 (S (S n)))).
      { rewrite <- app_assoc. f_equal.
        change (seq 0 (S (S n))) with (0 :: seq 1 (S n)).
        rewrite <- seq_shift. cbn [List.map app]. rewrite List.map_map.
        rewrite Nat.mul_0_r, Nat.add_0_r. f_equal.
        apply List.map_ext. intros k. f_equal. lia. }
      rewrite Etracks, Esent.
      replace (slept + 50 + 50 * n) with (slept + 50 * S n) by lia. reflexivity.
    + apply Nat.eqb_neq in E. eexists.
      rewrite List.firstn_all2 by (rewrite List.length_skipn; lia).
      rewrite Nat.div_small by lia. cbn [seq List.map].
      rewrite !Nat.mul_0_r, !Nat.add_0_r. reflexivity.
Qed.

(** X20.  The loop that reads one playlist in [findMatchingSongs] tests the
    number of usable tracks of the page, not the number of its items.
    Against a server that answers with the slice asked for: when every item
    of the playlist is usable, the loop returns the whole playlist, with one
    request per hundred items and one more, and 50 ms of sleep before every
    request but the first; but when one of the first hundred items is
    unusable (a local file, a removed track), the loop stops after the first
    request, however long the playlist is: it returns the usable tracks of
    the first page only and the rest of the playlist is never asked for. *)
Theorem playlist_scan_stops_at_first_page_with_unusable_item :
  forall (A : Type) (all : list A) (select : A -> option track)
         (s : scan_state) (fuel : nat),
    (Forall (fun x => select x <> None) all ->
     List.length all < 100 * fuel ->
     exists s',
       scanPlaylist fuel (sliceServer all) select s
       = Some (s', omap select all, pagesOf 100 (List.length all),
               50 * (List.length all / 100))) /\
    (Exists (fun x => select x = None) (firstn 100 all) ->
     0 < fuel ->
     scanPlaylist fuel (sliceServer all) select s
     = Some (receivePage s (omap select (firstn 100 all)),
             omap select (firstn 100 all),
             [{| limit := 100; offset := 0 |}], 0)).
Proof.
  intros A all select s fuel. split.
  - intros Husable Hfuel. destruct fuel as [|fuel]; [lia|].
    destruct (scanPlaylistLoop_all_usable all select fuel Husable 0 s [] [] 0)
      as [s' Hrun]; [lia|].
    exists s'. unfold scanPlaylist. rewrite Hrun.
    cbn [app skipn]. rewrite Nat.sub_0_r. reflexivity.
  - intros Hbad Hfuel. destruct fuel as [|fuel]; [lia|].
    unfold scanPlaylist. rewrite scanPlaylistLoop_step.
    assert (Hpage : sliceServer all {| limit := 100; offset := 0 |} = firstn 100 all)
      by reflexivity.
    rewrite Hpage.
    pose proof (omap_length_lt select _ Hbad) as Hlt.
    rewrite List.length_firstn in Hlt.
    replace (List.length (omap select (firstn 100 all)) =? 100)%nat with false
      by (symmetry; apply Nat.eqb_neq; lia).
    reflexivity.
Qed.

(** X20 on a playlist of 250 items whose third item is a local file: one
    request, 99 tracks. *)
Lemma playlist_scan_witness :
  let select := fun n : nat =>
    if (n =? 2)%nat then None else Some (sampleTrack "t" (N.of_nat n)) in
  exists s' tracks,
    scanPlaylist 3 (sliceServer (seq 0 250)) select emptyScan
    = Some (s', tracks, [{| limit := 100; offset := 0 |}], 0)
    /\ List.length tracks = 99.
Proof.
  cbv zeta. eexists. eexists. split.
  - apply (proj2 (playlist_scan_stops_at_first_page_with_unusable_item nat
                    (seq 0 250)
                    (fun n : nat =>
                       if (n =? 2)%nat then None
                       else Some (sampleTrack "t" (N.of_nat n)))
                    emptyScan 3)); [|lia].
    apply Exists_exists. exists 2. split; [|reflexivity].
    apply list_elem_of_In. cbn. tauto.
  - vm_compute. reflexivity.
Defined.

(** *** Writing the playlist *)

Lemma addTracksLoop_spec (answer : post_server) (playlistId : string) :
  forall chunks k sent slept,
    (addTracksLoop answer playlistId chunks k sent slept
     = (sent ++ List.map (AddTracks playlistId) chunks,
        slept + 100 * List.length chunks, true)
     /\ forall j c, nth_error chunks j = Some c ->
                    answer (k + j) (AddTracks playlistId c) <> None)
    \/ exists m c,
        addTracksLoop answer playlistId chunks k sent slept
        = (sent ++ List.map (AddTracks playlistId) (firstn (S m) chunks),
           slept + 100 * m, false)
        /\ nth_error chunks m = Some c
        /\ answer (k + m) (AddTracks playlistId c) = None
        /\ forall j c', j < m -> nth_error chunks j = Some c' ->
                        answer (k + j) (AddTracks playlistId c') <> None.
Proof.
  induction chunks as [|c chunks IH]; intros k sent slept; cbn [addTracksLoop].
  - left. cbn. rewrite app_nil_r, Nat.add_0_r. split; [reflexivity|].
    intros [|j] c' H; discriminate.
  - destruct (answer k (AddTracks playlistId c)) as [json|] eqn:Ek.
    + destruct (IH (S k) (sent ++ [AddTracks playlistId c]) (slept + 100))
        as [[Hrun Hok] | (m & c' & Hrun & Hnth & Hfail & Hok)].
      * left. rewrite Hrun. cbn [List.map List.length]. rewrite <- app_assoc.
        replace (slept + 100 + 100 * List.length chunks)
          with (slept + 100 * S (List.length chunks)) by lia.
        split; [reflexivity|].
        intros [|j] c' Hc'; cbn [nth_error] in Hc'.
        -- injection Hc' as <-. rewrite Nat.add_0_r, Ek. discriminate.
        -- replace (k + S j) with (S k + j) by lia. now apply Hok.
      * right. exists (S m), c'. rewrite Hrun.
        cbn [firstn List.map nth_error]. rewrite <- app_assoc.
        replace (slept + 100 + 100 * m) with (slept + 100 * S m) by lia.
        split; [reflexivity|].
        split; [exact Hnth|].
        split; [replace (k + S m) with (S k + m) by lia; exact Hfail|].
        intros [|j] c'' Hj Hc''; cbn [nth_error] in Hc''.
        -- injection Hc'' as <-. rewrite Nat.add_0_r, Ek. discriminate.
        -- replace (k + S j) with (S k + j) by lia. apply Hok; [lia | exact Hc''].
    + right. exists 0, c. cbn [firstn List.map nth_error].
      rewrite ?Nat.mul_0_r, ?Nat.add_0_r.
      split; [reflexivity|]. split; [reflexivity|]. split; [exact Ek|].
      intros j c' Hj. lia.
Qed.

(** X21.  [createPlaylistFromSelection] posts nothing when nobody is logged
    in or the selection is empty.  Otherwise it first posts the creation of
    the playlist; if that throws, nothing more is posted and the step goes
    back to review.  If it succeeds, the URIs of the selection are cut into
    chunks of at most 100 that together are the URIs in their order, and
    the chunks are posted one after the other to the new playlist: either
    all of them are accepted, and the step is complete after 100 ms of sleep
    per chunk; or a post throws, the chunks after it are never posted, the
    chunks before it stay in the playlist that was created, and the step
    goes back to review. *)
Theorem playlist_is_written_in_chunks_until_first_failure :
  forall (uri : trackWithTempo -> string) (answer : post_server)
         (finalTrackSelection : list trackWithTempo),
    createPlaylistFromSelection None uri answer finalTrackSelection
    = Some ([], 0, None) /\
    forall userId : string,
      createPlaylistFromSelection (Some userId) uri answer [] = Some ([], 0, None) /\
      (finalTrackSelection <> [] ->
       (answer 0 (CreatePlaylist userId) = None ->
        createPlaylistFromSelection (Some userId) uri answer finalTrackSelection
        = Some ([CreatePlaylist userId], 0, Some StepReview)) /\
       (forall playlistId,
           answer 0 (CreatePlaylist userId) = Some playlistId ->
           exists chunks : list (list string),
             concat chunks = List.map uri finalTrackSelection /\
             Forall (fun c => 1 <= List.length c <= 100) chunks /\
             ((createPlaylistFromSelection (Some userId) uri answer finalTrackSelection
               = Some (CreatePlaylist userId :: List.map (AddTracks playlistId) chunks,
                       100 * List.length chunks, Some StepComplete)
               /\ forall j c, nth_error chunks j = Some c ->
                              answer (S j) (AddTracks playlistId c) <> None)
              \/ exists m c,
                  createPlaylistFromSelection (Some userId) uri answer
                    finalTrackSelection
                  = Some (CreatePlaylist userId
                            :: List.map (AddTracks playlistId) (firstn (S m) chunks),
                          100 * m, Some StepReview)
                  /\ nth_error chunks m = Some c
                  /\ answer (S m) (AddTracks playlistId c) = None))).
Proof.
  intros uri answer finalTrackSelection. split; [now destruct finalTrackSelection|].
  intros userId. split; [reflexivity|]. intros Hsel.
  destruct finalTrackSelection as [|t selection]; [contradiction|]. split.
  - intros Hfail. cbn [createPlaylistFromSelection]. now rewrite Hfail.
  - intros playlistId Hcreated. cbn [createPlaylistFromSelection]. rewrite Hcreated.
    set (uris := List.map uri (t :: selection)).
    destruct (chunkLoop_spec uris 100 ltac:(lia) (S (List.length uris)) 0 [])
      as (chunks & Hrun & Hcat & Hlen & _); [lia|].
    exists chunks. split; [exact Hcat|]. split; [exact Hlen|].
    unfold chunk. rewrite Hrun. cbn [app].
    destruct (addTracksLoop_spec answer playlistId chunks 1 [CreatePlaylist userId] 0)
      as [[Hposts Hok] | (m & c & Hposts & Hnth & Hthrow & _)]; rewrite Hposts.
    + left. split; [reflexivity|]. intros j c Hc. now apply (Hok j c).
    + right. exists m, c. split; [reflexivity|]. split; [exact Hnth | exact Hthrow].
Qed.

(** X21 on a selection of one track and a server that accepts the creation
    and refuses every addition: the playlist is created, and the step goes
    back to review. *)
Lemma playlist_is_written_witness :
  let r := withTempo (sampleTrack "a" 1) 100 140 120 in
  let answer := fun (k : nat) (rq : post_request) =>
    match rq with CreatePlaylist _ => Some "p1" | AddTracks _ _ => None end in
  exists posts slept,
    createPlaylistFromSelection (Some "u") (fun t => track_id (base t)) answer [r]
    = Some (CreatePlaylist "u" :: posts, slept, Some StepReview).
Proof.
  cbv zeta.
  destruct (proj2 (playlist_is_written_in_chunks_until_first_failure
                     (fun t => track_id (base t))
                     (fun (k : nat) (rq : post_request) =>
                        match rq with
                        | CreatePlaylist _ => Some "p1"
                        | AddTracks _ _ => None
                        end)
                     [withTempo (sampleTrack "a" 1) 100 140 120]) "u")
    as [_ H].
  destruct (H ltac:(discriminate)) as [_ Hcreated].
  destruct (Hcreated "p1" eq_refl)
    as (chunks & Hcat & Hlen & [[_ Hok] | (m & c & Hrun & _)]).
  - exfalso. destruct chunks as [|c chunks]; [discriminate Hcat|].
    now apply (Hok 0 c).
  - rewrite Hrun. eexists. eexists. reflexivity.
Defined.

(** *** The original [createPlaylist] *)

Lemma findCandidate_id candidates t m :
  findCandidate candidates t = Some m -> track_id (base m) = track_id t.
Proof.
  intros H. apply List.find_some in H as [_ H]. now apply String.eqb_eq in H.
Qed.

Lemma filledDuration_firstn_le (n : nat) (l : list filledTrack) :
  (filledDuration (firstn n l) <= filledDuration l)%N.
Proof.
  revert n. induction l as [|f l IH]; intros [|n]; cbn [firstn filledDuration fold_right];
    try lia.
  specialize (IH n). unfold filledDuration in IH. lia.
Qed.

Lemma firstPass_spec candidates selectedDuration :
  forall playlistTracks filledTracks totalDuration,
    exists n,
      firstPass candidates selectedDuration playlistTracks filledTracks totalDuration
      = (filledTracks ++ firstn n (matching candidates playlistTracks),
         (totalDuration
          + filledDuration (firstn n (matching candidates playlistTracks)))%N)
      /\ (forall j, 1 <= j < n ->
            fills selectedDuration
              (totalDuration
               + filledDuration (firstn j (matching candidates playlistTracks)))
            = false)
      /\ (fills selectedDuration
            (totalDuration
             + filledDuration (firstn n (matching candidates playlistTracks))) = false ->
          firstn n (matching candidates playlistTracks)
          = matching candidates playlistTracks).
Proof.
  induction playlistTracks as [|t rest IH]; intros filledTracks totalDuration.
  - exists 0. cbn. rewrite app_nil_r, N.add_0_r.
    split; [reflexivity|]. split; [intros j; lia | reflexivity].
  - unfold matching. cbn [firstPass omap list_omap].
    fold (matching candidates rest).
    destruct (findCandidate candidates t) as [m|] eqn:Em; [|apply IH].
    set (f := {| fromPlaylist := t; fromCandidates := m |}).
    destruct (fills selectedDuration (totalDuration + durationOrZero t)) eqn:Efill.
    + exists 1. cbn [firstn filledDuration fold_right fromPlaylist f].
      rewrite N.add_0_r.
      split; [reflexivity|]. split; [intros j; lia|].
      intros H. congruence.
    + destruct (IH (filledTracks ++ [f]) (totalDuration + durationOrZero t)%N)
        as (n & Hrun & Hmin & Hall).
      exists (S n). rewrite Hrun. cbn [firstn filledDuration fold_right fromPlaylist f].
      fold (filledDuration (firstn n (matching candidates rest))).
      rewrite <- app_assoc, N.add_assoc. cbn [app].
      split; [reflexivity|]. split.
      * intros [|[|j]] Hj; [lia| |].
        -- cbn [firstn filledDuration fold_right fromPlaylist].
           now rewrite N.add_0_r.
        -- cbn [firstn filledDuration fold_right fromPlaylist].
           fold (filledDuration (firstn (S j) (matching candidates rest))).
           rewrite N.add_assoc. apply Hmin. lia.
      * intros H. f_equal. now apply Hall.
Qed.

Lemma secondPass_adds_nothing candidates selectedDuration :
  forall playlistTracks filledTracks totalDuration,
    (forall t m, In t playlistTracks -> findCandidate candidates t = Some m ->
                 existsb (fun f => String.eqb (filledId f) (track_id t)) filledTracks
                 = true) ->
    secondPass candidates selectedDuration playlistTracks filledTracks totalDuration
    = (filledTracks, totalDuration).
Proof.
  induction playlistTracks as [|t rest IH]; intros filledTracks totalDuration Hin;
    [reflexivity|].
  cbn [secondPass].
  destruct (existsb (fun f => String.eqb (filledId f) (track_id t)) filledTracks) eqn:Ein.
  - apply IH. intros u m Hu. apply Hin. now right.
  - destruct (findCandidate candidates t) as [m|] eqn:Em.
    + rewrite (Hin t m) in Ein; [discriminate | now left | exact Em].
    + apply IH. intros u m Hu. apply Hin. now right.
Qed.

Lemma matching_covers candidates playlistTracks t m :
  In t playlistTracks -> findCandidate candidates t = Some m ->
  existsb (fun f => String.eqb (filledId f) (track_id t))
    (matching candidates playlistTracks) = true.
Proof.
  intros Hin Hm. apply existsb_exists.
  exists {| fromPlaylist := t; fromCandidates := m |}. split.
  - apply list_elem_of_In. unfold matching. apply list_elem_of_omap.
    exists t. split; [now apply list_elem_of_In|]. now rewrite Hm.
  - apply String.eqb_eq. unfold filledId. cbn. now apply (findCandidate_id candidates).
Qed.

(** X22.  In the original [createPlaylist] the second loop can never add a
    track: when the first loop ends without filling the duration it has
    taken every playlist track that has a candidate, so the second loop
    finds each of them in [filledTracks] already.  Hence the function never
    writes a playlist that uses the second loop; it reports that there is
    not enough music exactly when the playlist tracks that have a candidate
    last, together, less than the duration selected; and otherwise it
    writes the shortest run of these tracks, most recently added first,
    that fills the duration. *)
Theorem original_createPlaylist_second_loop_adds_nothing :
  forall (candidates : list trackWithTempo) (selectedDuration : N)
         (playlistTracks : list track),
    let available := matching candidates (sortTracksByMostRecent playlistTracks) in
    (forall filledTracks,
        createPlaylist candidates selectedDuration playlistTracks
        <> Created filledTracks true) /\
    (createPlaylist candidates selectedDuration playlistTracks = NotEnoughMusic <->
     (filledDuration available < 60000 * selectedDuration)%N) /\
    (forall filledTracks usingSecondary,
        createPlaylist candidates selectedDuration playlistTracks
        = Created filledTracks usingSecondary ->
        exists n,
          filledTracks = firstn n available /\
          (60000 * selectedDuration <= filledDuration filledTracks)%N /\
          forall j, 1 <= j < n ->
                    (filledDuration (firstn j available) < 60000 * selectedDuration)%N).
Proof.
  intros candidates selectedDuration playlistTracks available.
  unfold createPlaylist.
  set (sorted := sortTracksByMostRecent playlistTracks) in *.
  destruct (firstPass_spec candidates selectedDuration sorted [] 0%N)
    as (n & Hrun & Hmin & Hall).
  rewrite Hrun. cbn [app] in *. rewrite N.add_0_l in *.
  fold available in Hrun, Hmin, Hall |- *.
  destruct (fills selectedDuration (filledDuration (firstn n available))) eqn:Efill.
  - apply N.leb_le in Efill. split; [discriminate|]. split.
    + split; [discriminate|]. intros Hshort.
      pose proof (filledDuration_firstn_le n available). lia.
    + intros filledTracks usingSecondary H. injection H as <- <-.
      exists n. split; [reflexivity|]. split; [exact Efill|].
      intros j Hj. specialize (Hmin j Hj). rewrite N.add_0_l in Hmin.
      now apply N.leb_gt in Hmin.
  - rewrite (Hall eq_refl) in *.
    rewrite secondPass_adds_nothing
      by (intros t m; apply matching_covers).
    rewrite Efill. apply N.leb_gt in Efill.
    split; [discriminate|]. split; [|discriminate].
    split; [intros _; exact Efill | reflexivity].
Qed.

(** *** The earlier version: fixed batches of five *)

Lemma combine_seq_In {A : Type} (l : list A) :
  forall k i j t,
    In (j, t) (combine (seq i k) l) <->
    exists d, d < k /\ j = i + d /\ nth_error l d = Some t.
Proof.
  induction l as [|x l IH]; intros k i j t.
  - rewrite combine_nil. split; [intros [] |].
    intros (d & _ & _ & H). now destruct d.
  - destruct k as [|k]; cbn [seq combine].
    + split; [intros [] |]. intros (d & H & _). lia.
    + cbn [In]. rewrite IH. split.
      * intros [H | (d & Hd & -> & Hnth)].
        -- injection H as <- <-. exists 0. repeat split; [lia | lia].
        -- exists (S d). repeat split; [lia | lia | exact Hnth].
      * intros ([|d] & Hd & -> & Hnth); cbn [nth_error] in Hnth.
        -- left. injection Hnth as <-. f_equal. lia.
        -- right. exists d. repeat split; [lia | lia | exact Hnth].
Qed.

Lemma batchAt_In (tracks : list track) i j t :
  In (j, t) (Batched.batchAt tracks i) <->
  i <= j < i + 5 /\ nth_error tracks j = Some t.
Proof.
  unfold Batched.batchAt. rewrite combine_seq_In. split.
  - intros (d & Hd & -> & Hnth).
    rewrite nth_error_firstn in Hnth.
    destruct (d <? 5)%nat eqn:E; [|discriminate].
    rewrite nth_error_skipn in Hnth. split; [lia | exact Hnth].
  - intros [Hj Hnth]. exists (j - i). split; [lia|]. split; [lia|].
    rewrite nth_error_firstn.
    replace (j - i <? 5)%nat with true by (symmetry; apply Nat.ltb_lt; lia).
    rewrite nth_error_skipn. now replace (i + (j - i)) with j by lia.
Qed.

Lemma batchAt_indices (tracks : list track) i :
  List.map fst (Batched.batchAt tracks i) = seq i (Nat.min 5 (List.length tracks - i)).
Proof.
  unfold Batched.batchAt.
  assert (H : forall (l : list track) k i,
             List.map fst (combine (seq i k) l) = seq i (Nat.min k (List.length l))).
  { induction l as [|x l IH]; intros k j.
    - rewrite combine_nil. now rewrite Nat.min_0_r.
    - destruct k as [|k]; [reflexivity|]. cbn [seq combine List.map fst List.length].
      rewrite IH. reflexivity. }
  rewrite H, List.length_firstn, List.length_skipn. f_equal. lia.
Qed.

Lemma fold_settle_lookup (bpmOf : Batched.analysis) (x : string) (j : nat) :
  forall (l : list (nat * track)) (tempos : gmap string Q),
    (forall j' t', In (j', t') l -> track_id t' = x -> j' = j) ->
    fold_left (Batched.settle bpmOf) l tempos !! x
    = if existsb (fun it => String.eqb (track_id (snd it)) x) l
      then match bpmOf j with Some bpm => Some bpm | None => tempos !! x end
      else tempos !! x.
Proof.
  induction l as [|[j0 t0] l IH]; intros tempos Hsame; [reflexivity|].
  cbn [fold_left existsb snd].
  rewrite IH by (intros j' t' Hin; apply Hsame; now right).
  destruct (String.eqb_spec (track_id t0) x) as [Hid | Hid]; cbn [orb].
  - assert (Hj0 : j0 = j) by (apply (Hsame j0 t0); [now left | exact Hid]).
    subst j0. unfold Batched.settle. cbn [fst snd].
    destruct (bpmOf j) as [bpm|]; [|now destruct (existsb _ l)].
    rewrite Hid, lookup_insert_eq. now destruct (existsb _ l).
  - assert (Hother : Batched.settle bpmOf tempos (j0, t0) !! x = tempos !! x).
    { unfold Batched.settle. cbn [fst snd].
      destruct (bpmOf j0); [|reflexivity]. now rewrite lookup_insert_ne. }
    now rewrite Hother.
Qed.

Lemma fold_settle_keep (bpmOf : Batched.analysis) (x : string) :
  forall (l : list (nat * track)) (tempos : gmap string Q),
    (forall j t, In (j, t) l -> track_id t = x -> bpmOf j = None) ->
    fold_left (Batched.settle bpmOf) l tempos !! x = tempos !! x.
Proof.
  induction l as [|[j0 t0] l IH]; intros tempos Hnone; [reflexivity|].
  cbn [fold_left]. rewrite IH by (intros j t Hin; apply Hnone; now right).
  unfold Batched.settle. cbn [fst snd].
  destruct (bpmOf j0) as [bpm|] eqn:Eb; [|reflexivity].
  destruct (String.eqb_spec (track_id t0) x) as [Hx | Hx];
    [|now rewrite lookup_insert_ne].
  rewrite (Hnone j0 t0 (or_introl eq_refl) Hx) in Eb. discriminate.
Qed.

Lemma fold_settle_dom (bpmOf : Batched.analysis) (x : string) :
  forall (l : list (nat * track)) (tempos : gmap string Q),
    is_Some (fold_left (Batched.settle bpmOf) l tempos !! x) ->
    is_Some (tempos !! x) \/
    exists j t, In (j, t) l /\ track_id t = x /\ is_Some (bpmOf j).
Proof.
  induction l as [|[j0 t0] l IH]; intros tempos Hsome; [now left|].
  cbn [fold_left] in Hsome. apply IH in Hsome as [Hsome | (j & t & Hin & Hid & Hb)].
  - unfold Batched.settle in Hsome. cbn [fst snd] in Hsome.
    destruct (bpmOf j0) as [bpm|] eqn:Eb; [|now left].
    destruct (String.eqb_spec (track_id t0) x) as [Hx | Hx].
    + right. exists j0, t0. split; [now left|]. split; [exact Hx|].
      rewrite Eb. now eexists.
    + left. now rewrite lookup_insert_ne in Hsome.
  - right. exists j, t. split; [now right|]. now split.
Qed.

Lemma NoDup_ids_index (tracks : list track) :
  NoDup (List.map track_id tracks) ->
  forall j j' t t',
    nth_error tracks j = Some t -> nth_error tracks j' = Some t' ->
    track_id t = track_id t' -> j = j'.
Proof.
  intros Hnd j j' t t' Hj Hj' Hid.
  apply NoDup_ListNoDup in Hnd. rewrite List.NoDup_nth_error in Hnd.
  apply Hnd.
  - rewrite List.length_map. apply nth_error_Some. now rewrite Hj.
  - rewrite !nth_error_map, Hj, Hj'. cbn. now rewrite Hid.
Qed.

(** What the loop leaves in the dictionary, from the position [i] on. *)
Lemma batchLoop_spec (bpmOf : Batched.analysis)
    (order : list (nat * track) -> list (nat * track)) (tracks : list track) :
  (forall b, Permutation (order b) b) ->
  forall fuel i tempos started slept,
    List.length tracks - i < fuel ->
    exists tempos',
      Batched.batchLoop fuel bpmOf order tracks i tempos started slept
      = Some (tempos', started ++ seq i (List.length tracks - i),
              slept + 1000 * ((List.length tracks - i + 4) / 5 - 1)) /\
      (forall x,
          (forall j t, i <= j -> nth_error tracks j = Some t -> track_id t = x ->
                       bpmOf j = None) ->
          tempos' !! x = tempos !! x) /\
      (forall x, is_Some (tempos' !! x) ->
                 is_Some (tempos !! x) \/
                 exists j t, i <= j /\ nth_error tracks j = Some t /\ track_id t = x
                             /\ is_Some (bpmOf j)) /\
      (NoDup (List.map track_id tracks) ->
       forall j t, i <= j -> nth_error tracks j = Some t ->
                   tempos' !! track_id t
                   = match bpmOf j with
                     | Some bpm => Some bpm
                     | None => tempos !! track_id t
                     end).
Proof.
  intros Horder.
  induction fuel as [|fuel IH]; intros i tempos started slept Hfuel; [lia|].
  cbn [Batched.batchLoop].
  destruct (i <? List.length tracks)%nat eqn:Ei.
  - apply Nat.ltb_lt in Ei.
    set (batch := Batched.batchAt tracks i).
    set (tempos1 := fold_left (Batched.settle bpmOf) (order batch) tempos).
    destruct (IH (i + 5) tempos1 (started ++ List.map fst batch)
                (if (i + 5 <? List.length tracks)%nat then slept + 1000 else slept))
      as (tempos' & Hrun & Hkeep & Hdom & Hval); [lia|].
    exists tempos'. rewrite Hrun.
    assert (Hin : forall j t, In (j, t) (order batch) <->
                              i <= j < i + 5 /\ nth_error tracks j = Some t).
    { intros j t. unfold batch. rewrite <- batchAt_In. split; apply Permutation_in;
        [apply Horder | symmetry; apply Horder]. }
    assert (Estarted : (started ++ List.map fst batch)
                       ++ seq (i + 5) (List.length tracks - (i + 5))
                       = started ++ seq i (List.length tracks - i)).
    { unfold batch. rewrite batchAt_indices, <- app_assoc. f_equal.
      destruct (Nat.le_gt_cases 5 (List.length tracks - i)).
      - rewrite Nat.min_l by lia. rewrite <- seq_app. f_equal. lia.
      - rewrite Nat.min_r by lia.
        replace (List.length tracks - (i + 5)) with 0 by lia.
        cbn [seq]. now rewrite app_nil_r. }
    assert (Eslept : (if (i + 5 <? List.length tracks)%nat then slept + 1000 else slept)
                     + 1000 * ((List.length tracks - (i + 5) + 4) / 5 - 1)
                     = slept + 1000 * ((List.length tracks - i + 4) / 5 - 1)).
    { destruct (i + 5 <? List.length tracks)%nat eqn:Emore.
      - apply Nat.ltb_lt in Emore.
        replace (List.length tracks - i + 4)
          with ((List.length tracks - (i + 5) + 4) + 1 * 5) by lia.
        rewrite Nat.div_add by lia.
        assert (1 <= (List.length tracks - (i + 5) + 4) / 5)
          by (apply Nat.div_le_lower_bound; lia).
        lia.
      - apply Nat.ltb_ge in Emore.
        replace (List.length tracks - (i + 5)) with 0 by lia.
        replace ((List.length tracks - i + 4) / 5) with 1;
          [cbn; lia|].
        apply (Nat.div_unique _ 5 1 (List.length tracks - i - 1)); lia. }
    rewrite Estarted, Eslept.
    split; [reflexivity|]. split; [|split].
    + intros x Hnone. rewrite Hkeep by (intros j t Hj; apply Hnone; lia).
      apply fold_settle_keep. intros j t Hjt. apply Hin in Hjt as [Hj Hnth].
      apply Hnone; [lia | exact Hnth].
    + intros x Hsome.
      apply Hdom in Hsome as [Hsome | (j & t & Hj & Hnth & Hid & Hb)].
      * apply fold_settle_dom in Hsome as [Hsome | (j & t & Hjt & Hid & Hb)];
          [now left|].
        apply Hin in Hjt as [Hj Hnth]. right. exists j, t.
        split; [lia|]. now repeat split.
      * right. exists j, t. split; [lia|]. now repeat split.
    + intros Hnd j t Hj Hnth.
      pose proof (NoDup_ids_index tracks Hnd) as Hinj.
      destruct (Nat.lt_ge_cases j (i + 5)) as [Hbatch | Hlater].
      * rewrite Hkeep.
        -- unfold tempos1. rewrite (fold_settle_lookup bpmOf (track_id t) j).
           ++ replace (existsb _ (order batch)) with true; [reflexivity|].
              symmetry. apply existsb_exists. exists (j, t).
              split; [apply Hin; split; [lia | exact Hnth]|].
              apply String.eqb_refl.
           ++ intros j' t' Hjt' Hid. apply Hin in Hjt' as [_ Hnth'].
              now apply (Hinj j' j t' t).
        -- intros j' t' Hj' Hnth' Hid.
           assert (j' = j) by now apply (Hinj j' j t' t). lia.
      * rewrite (Hval Hnd j t Hlater Hnth).
        destruct (bpmOf j); [reflexivity|].
        apply fold_settle_keep. intros j' t' Hjt' Hid.
        apply Hin in Hjt' as [Hj' Hnth'].
        assert (j' = j) by now apply (Hinj j' j t' t). lia.
  - apply Nat.ltb_ge in Ei. exists tempos.
    replace (List.length tracks - i) with 0 by lia.
    cbn [seq Nat.add Nat.div]. rewrite app_nil_r.
    split; [f_equal; f_equal; cbn; lia|]. split; [reflexivity|].
    split; [intros x Hx; now left|].
    intros _ j t Hj Hnth. exfalso.
    assert (j < List.length tracks) by (apply nth_error_Some; now rewrite Hnth).
    lia.
Qed.

Lemma fold_settle_mono (bpmOf : Batched.analysis) (x : string) :
  forall (l : list (nat * track)) (tempos : gmap string Q),
    is_Some (tempos !! x) ->
    is_Some (fold_left (Batched.settle bpmOf) l tempos !! x).
Proof.
  induction l as [|[j0 t0] l IH]; intros tempos Hsome; [exact Hsome|].
  cbn [fold_left]. apply IH. unfold Batched.settle. cbn [fst snd].
  destruct (bpmOf j0) as [bpm|]; [|exact Hsome].
  apply lookup_insert_is_Some. destruct (decide (track_id t0 = x)); [now left|].
  now right.
Qed.

Lemma fold_settle_writes (bpmOf : Batched.analysis) :
  forall (l : list (nat * track)) (tempos : gmap string Q) j t,
    In (j, t) l -> is_Some (bpmOf j) ->
    is_Some (fold_left (Batched.settle bpmOf) l tempos !! track_id t).
Proof.
  induction l as [|[j0 t0] l IH]; intros tempos j t Hin Hb; [contradiction|].
  cbn [fold_left]. destruct Hin as [Hin | Hin].
  - injection Hin as -> ->. apply fold_settle_mono.
    unfold Batched.settle. cbn [fst snd]. destruct Hb as [bpm ->].
    rewrite lookup_insert_eq. now eexists.
  - now apply (IH _ j t).
Qed.

Lemma batchLoop_writes (bpmOf : Batched.analysis)
    (order : list (nat * track) -> list (nat * track)) (tracks : list track) :
  (forall b, Permutation (order b) b) ->
  forall fuel i tempos started slept tempos' started' slept',
    Batched.batchLoop fuel bpmOf order tracks i tempos started slept
    = Some (tempos', started', slept') ->
    (forall x, is_Some (tempos !! x) -> is_Some (tempos' !! x)) /\
    (forall j t, i <= j -> nth_error tracks j = Some t -> is_Some (bpmOf j) ->
                 is_Some (tempos' !! track_id t)).
Proof.
  intros Horder.
  induction fuel as [|fuel IH];
    intros i tempos started slept tempos' started' slept' Hrun; [discriminate|].
  cbn [Batched.batchLoop] in Hrun.
  destruct (i <? List.length tracks)%nat eqn:Ei.
  - apply IH in Hrun as [Hmono Hwrites]. split.
    + intros x Hx. apply Hmono. now apply fold_settle_mono.
    + intros j t Hj Hnth Hb.
      destruct (Nat.lt_ge_cases j (i + 5)) as [Hbatch | Hlater];
        [|now apply (Hwrites j t)].
      apply Hmono. apply (fold_settle_writes bpmOf _ _ j t); [|exact Hb].
      apply (Permutation_in _ (Permutation_sym (Horder _))).
      apply batchAt_In. split; [lia | exact Hnth].
  - injection Hrun as <- _ _. apply Nat.ltb_ge in Ei. split; [trivial|].
    intros j t Hj Hnth _. exfalso.
    assert (j < List.length tracks) by (apply nth_error_Some; now rewrite Hnth).
    lia.
Qed.

(** X23.  The earlier version of [fetchTemposForTracksWithGemini] works
    through the whole list in batches of five: whatever the order in which
    the analyses of a batch settle, it starts the analysis of every track
    exactly once, in the order of the list and however long the list is,
    and sleeps one second between two batches.  The dictionary it returns
    has an entry for an id exactly when some track with that id got a
    tempo; and when no id occurs twice in the list, the entry of every
    track is the tempo its own analysis gave, so the result does not depend
    on the order in which the analyses settle. *)
Theorem batched_version_analyses_every_track_once :
  forall (bpmOf : Batched.analysis)
         (order : list (nat * track) -> list (nat * track)) (tracks : list track),
    (forall b, Permutation (order b) b) ->
    exists tempos : gmap string Q,
      Batched.fetchTemposForTracksWithGemini bpmOf order tracks
      = Some (tempos, seq 0 (List.length tracks),
              1000 * ((List.length tracks + 4) / 5 - 1)) /\
      (forall x, is_Some (tempos !! x) <->
                 exists j t, nth_error tracks j = Some t /\ track_id t = x
                             /\ is_Some (bpmOf j)) /\
      (NoDup (List.map track_id tracks) ->
       forall j t, nth_error tracks j = Some t -> tempos !! track_id t = bpmOf j).
Proof.
  intros bpmOf order tracks Horder.
  destruct (batchLoop_spec bpmOf order tracks Horder (S (List.length tracks)) 0 ∅ [] 0)
    as (tempos & Hrun & Hkeep & Hdom & Hval); [lia|].
  rewrite Nat.sub_0_r in Hrun. cbn [app Nat.add] in Hrun.
  exists tempos. split; [|split].
  - destruct tracks as [|t tracks]; [|exact Hrun].
    cbn in Hrun. injection Hrun as <-. reflexivity.
  - intros x. split.
    + intros Hsome. apply Hdom in Hsome as [Hsome | (j & t & _ & H)].
      * rewrite lookup_empty in Hsome. now destruct Hsome.
      * now exists j, t.
    + intros (j & t & Hnth & <- & Hb).
      apply (proj2 (batchLoop_writes bpmOf order tracks Horder _ _ _ _ _ _ _ _ Hrun)
               j t); [lia | exact Hnth | exact Hb].
  - intros Hnd j t Hnth. rewrite (Hval Hnd j t (Nat.le_0_l j) Hnth).
    destruct (bpmOf j); [reflexivity | apply lookup_empty].
Qed.

(** X23 on seven tracks whose analyses settle in the reverse order of
    their start: two batches, one second of sleep. *)
Lemma batched_version_witness :
  exists tempos : gmap string Q,
    Batched.fetchTemposForTracksWithGemini
      (fun i => if Nat.even i then Some 120%Q else None) (@rev (nat * track))
      (List.map (fun i => sampleTrack i 1) ["a"; "b"; "c"; "d"; "e"; "f"; "g"])
    = Some (tempos, [0; 1; 2; 3; 4; 5; 6], 1000).
Proof.
  destruct (batched_version_analyses_every_track_once
              (fun i => if Nat.even i then Some 120%Q else None) (@rev (nat * track))
              (List.map (fun i => sampleTrack i 1) ["a"; "b"; "c"; "d"; "e"; "f"; "g"]))
    as (tempos & Hrun & _).
  - intros b. symmetry. apply Permutation_rev.
  - exists tempos. exact Hrun.
Defined.

(** X24.  The matcher of the later version extends the matcher of the
    earlier one: on the same tracks, tempos and range, the earlier
    [filterTracksByTempo] returns exactly the results that the later one
    tags as original, in the same order and with the same tempo.  What the
    later version adds are the results tagged half-time and double-time. *)
Theorem later_matcher_extends_the_earlier_one :
  forall (tracks : list track) (tempos : gmap string Q) (minBpm maxBpm : Q),
    Batched.filterTracksByTempo tracks tempos minBpm maxBpm
    = List.map (fun r => (base r, tempo r))
        (List.filter
           (fun r => match tempoType r with original => true | _ => false end)
           (filterTracksByTempo tracks tempos (minBpm, maxBpm))).
Proof.
  intros tracks tempos minBpm maxBpm.
  unfold Batched.filterTracksByTempo, filterTracksByTempo.
  induction tracks as [|t tracks IH]; [reflexivity|].
  cbn [List.filter].
  destruct (tempos !! track_id t) as [bpm|] eqn:Ebpm; [|exact IH].
  destruct (truthy bpm); cbn [andb]; [|exact IH].
  unfold anyVariantInRange.
  destruct (inRangeb minBpm maxBpm bpm) eqn:Eo; cbn [orb List.map List.filter].
  - rewrite Ebpm. change (default 0%Q (Some bpm)) with bpm.
    cbn [withTempo tempoType tempo base].
    unfold selectVariant. rewrite Eo.
    cbn [fst snd List.map withTempo base tempo].
    unfold selectVariant. rewrite Eo. cbn [fst]. now rewrite IH.
  - destruct (inRangeb minBpm maxBpm (bpm / 2)) eqn:Eh; cbn [orb List.map List.filter].
    + rewrite Ebpm. change (default 0%Q (Some bpm)) with bpm.
      cbn [withTempo tempoType].
      unfold selectVariant. rewrite Eo, Eh. cbn [snd]. exact IH.
    + destruct (inRangeb minBpm maxBpm (bpm * 2)) eqn:Ed; cbn [List.map List.filter];
        [|exact IH].
      rewrite Ebpm. change (default 0%Q (Some bpm)) with bpm.
      cbn [withTempo tempoType].
      unfold selectVariant. rewrite Eo, Eh, Ed. cbn [snd]. exact IH.
Qed.

(** *** The sequential version of [findMatchingSongs] *)

Lemma alreadySelected_false s t :
  Sequential.alreadySelected s t = false ->
  track_id t ∉ List.map (fun r => track_id (base r)) (selectedTracks s).
Proof.
  intros Hnew Hin. apply list_elem_of_In, in_map_iff in Hin as (r & Hid & Hr).
  assert (Hex : Sequential.alreadySelected s t = true).
  { apply existsb_exists. exists r. split; [exact Hr|]. now apply String.eqb_eq. }
  congruence.
Qed.

Lemma sortTracksByMostRecent_perm l : Permutation l (sortTracksByMostRecent l).
Proof.
  assert (Hins : forall x l', Permutation (x :: l') (insertTrackByMostRecent x l')).
  { intros x l'. induction l' as [|y l' IH]; cbn [insertTrackByMostRecent];
      [reflexivity|].
    destruct (added_at x <? added_at y)%Z; [|reflexivity].
    rewrite perm_swap. now apply perm_skip. }
  induction l as [|x l IH]; cbn [sortTracksByMostRecent fold_right]; [reflexivity|].
  rewrite <- Hins. now apply perm_skip.
Qed.

Lemma scanTracks_keeps minTempo maxTempo analysis name
    (source : string -> track -> Prop) :
  forall tracks s scanned,
    Forall (source name) tracks ->
    scanKeeps source s scanned ->
    scanKeeps source
      (fst (Sequential.scanTracks minTempo maxTempo analysis name tracks s scanned))
      (snd (Sequential.scanTracks minTempo maxTempo analysis name tracks s scanned)).
Proof.
  induction tracks as [|t rest IH]; intros s scanned Hsrc Hkeep; [exact Hkeep|].
  apply Forall_cons in Hsrc as [Ht Hrest].
  cbn [Sequential.scanTracks].
  destruct (targetReached s); [exact Hkeep|].
  destruct (Sequential.alreadySelected s t) eqn:Enew; [now apply IH|].
  destruct Hkeep as (Hnd & Hsel & Hscanned).
  assert (Hscanned' : Forall (fun t => exists name, source name t) (scanned ++ [t])).
  { apply Forall_app. split; [exact Hscanned|]. constructor; [|constructor].
    now exists name. }
  assert (Hskip : scanKeeps source s (scanned ++ [t])) by (now split).
  destruct (analysis (List.length scanned)) as [bpm|]; [|now apply IH].
  destruct (anyVariantInRange minTempo maxTempo bpm); [|now apply IH].
  assert (Haccept : scanKeeps source
                      (accept s (withTempo (Sequential.fromPlaylistNamed name t)
                                   minTempo maxTempo bpm)) (scanned ++ [t])).
  { split; [|split; [|exact Hscanned']].
    - unfold selectionWithoutRepeats. cbn [accept selectedTracks].
      rewrite List.map_app. cbn [List.map withTempo base Sequential.fromPlaylistNamed
                                  track_id].
      apply NoDup_app. split; [exact Hnd|]. split.
      + intros x Hx Hin. apply list_elem_of_singleton in Hin as ->.
        now apply (alreadySelected_false s t).
      + apply NoDup_singleton.
    - cbn [accept selectedTracks]. apply Forall_app. split; [exact Hsel|].
      constructor; [|constructor]. now exists name, t. }
  destruct (targetReached (accept s _)); [exact Haccept | now apply IH].
Qed.

Lemma scanPlaylists_keeps minTempo maxTempo analysis
    (all : list (string * list track)) :
  forall (rest : list (string * list track)) s scanned,
    (forall p, In p rest -> In p all) ->
    scanKeeps (inPlaylists all) s scanned ->
    scanKeeps (inPlaylists all)
      (fst (Sequential.scanPlaylists minTempo maxTempo analysis rest s scanned))
      (snd (Sequential.scanPlaylists minTempo maxTempo analysis rest s scanned)).
Proof.
  induction rest as [|[name tracks] rest IH]; intros s scanned Hsub Hkeep;
    [exact Hkeep|].
  cbn [Sequential.scanPlaylists]. destruct (targetReached s); [exact Hkeep|].
  pose proof (scanTracks_keeps minTempo maxTempo analysis name (inPlaylists all)
                (sortTracksByMostRecent tracks) s scanned) as Hstep.
  destruct (Sequential.scanTracks minTempo maxTempo analysis name
              (sortTracksByMostRecent tracks) s scanned) as [s' scanned'].
  apply IH; [intros p Hp; apply Hsub; now right|].
  apply Hstep; [|exact Hkeep].
  rewrite List.Forall_forall. intros t Ht. exists tracks.
  split; [apply Hsub; now left|].
  now apply (Permutation_in _ (Permutation_sym (sortTracksByMostRecent_perm tracks))).
Qed.

(** X25.  The sequential version of [findMatchingSongs] never selects a
    track id twice while it scans the playlists: whatever the playlists
    hold, whatever the analyses answer and whatever the target is, the
    selection after the scan holds every id at most once, every track
    selected is a track of one of the playlists and carries the name of
    that playlist, and every track that was analysed is a track of one of
    the playlists. *)
Theorem sequential_scan_selects_no_track_twice :
  forall (minTempo maxTempo : Q) (analysis : nat -> option Q)
         (sortedPlaylists : list (string * list track)) (target : N),
    let run := Sequential.scanPlaylists minTempo maxTempo analysis sortedPlaylists
                 (freshSession target) [] in
    selectionWithoutRepeats (fst run) /\
    Forall (fun r => exists name t,
                inPlaylists sortedPlaylists name t /\
                base r = Sequential.fromPlaylistNamed name t)
           (selectedTracks (fst run)) /\
    Forall (fun t => exists name, inPlaylists sortedPlaylists name t) (snd run).
Proof.
  intros minTempo maxTempo analysis sortedPlaylists target run.
  apply (scanPlaylists_keeps minTempo maxTempo analysis sortedPlaylists
           sortedPlaylists (freshSession target) []); [trivial|].
  split; [constructor|]. split; constructor.
Qed.

(** *** The fallback on the saved tracks *)

Lemma savedTracksLoop_adds minTempo maxTempo savedTempos :
  forall tracks s,
    exists kept added,
      sublist kept tracks /\
      selectedTracks (savedTracksLoop minTempo maxTempo savedTempos tracks s)
      = selectedTracks s ++ added /\
      List.map base added = List.map fromSavedTracks kept.
Proof.
  induction tracks as [|t rest IH]; intros s.
  - exists [], []. cbn. now rewrite app_nil_r.
  - cbn [savedTracksLoop].
    assert (Hskip : forall s',
               s' = s ->
               exists kept added,
                 sublist kept (t :: rest) /\
                 selectedTracks (savedTracksLoop minTempo maxTempo savedTempos rest s')
                 = selectedTracks s ++ added /\
                 List.map base added = List.map fromSavedTracks kept).
    { intros s' ->. destruct (IH s) as (kept & added & Hsub & Hsel & Hbase).
      exists kept, added. split; [now apply sublist_cons|]. now split. }
    assert (Hstop : exists kept added,
               sublist kept (t :: rest) /\
               selectedTracks s = selectedTracks s ++ added /\
               List.map base added = List.map fromSavedTracks kept).
    { exists [], []. split; [apply sublist_nil_l|]. now rewrite app_nil_r. }
    destruct (targetReached s); [exact Hstop|].
    destruct (savedTempos !! track_id t) as [bpm|]; [|now apply Hskip].
    destruct (anyVariantInRange minTempo maxTempo bpm); [|now apply Hskip].
    set (r := withTempoSaved t minTempo maxTempo bpm).
    destruct (targetReached (accept s r)).
    + exists [t], [r]. split; [apply sublist_skip, sublist_nil_l|].
      split; reflexivity.
    + destruct (IH (accept s r)) as (kept & added & Hsub & Hsel & Hbase).
      exists (t :: kept), (r :: added). split; [now apply sublist_skip|].
      rewrite Hsel. cbn [accept selectedTracks List.map]. rewrite <- app_assoc.
      split; [reflexivity|]. now rewrite Hbase.
Qed.

Lemma filter_sublist {A : Type} (p : A -> bool) (l : list A) :
  sublist (List.filter p l) l.
Proof.
  induction l as [|x l IH]; cbn [List.filter]; [constructor|].
  destruct (p x); [now apply sublist_skip | now apply sublist_cons].
Qed.

Lemma sublist_map {A B : Type} (f : A -> B) (l1 l2 : list A) :
  sublist l1 l2 -> sublist (List.map f l1) (List.map f l2).
Proof.
  induction 1; cbn [List.map];
    [constructor | now apply sublist_skip | now apply sublist_cons].
Qed.

Lemma sublist_In {A : Type} (l1 l2 : list A) x :
  sublist l1 l2 -> In x l1 -> In x l2.
Proof.
  induction 1 as [|y l1 l2 _ IH | y l1 l2 _ IH]; intros Hin; [exact Hin| |].
  - destruct Hin as [-> | Hin]; [now left | right; now apply IH].
  - right. now apply IH.
Qed.

Lemma settleLate_appends minTempo maxTempo :
  forall late s,
    exists l,
      selectedTracks (settleLate minTempo maxTempo s late) = selectedTracks s ++ l /\
      (late = [] -> l = []).
Proof.
  induction late as [|[t bpm] late IH]; intros s.
  - exists []. split; [now rewrite app_nil_r | reflexivity].
  - unfold settleLate. cbn [fold_left fst snd].
    fold (settleLate minTempo maxTempo
            (snd (processTrackForSelection minTempo maxTempo s t bpm)) late).
    destruct (IH (snd (processTrackForSelection minTempo maxTempo s t bpm)))
      as (l & Hl & _).
    assert (Hstep : exists l0,
               selectedTracks (snd (processTrackForSelection minTempo maxTempo s t bpm))
               = selectedTracks s ++ l0).
    { unfold processTrackForSelection.
      destruct (targetDurationMs s <=? currentDurationMs s)%N;
        [exists []; now rewrite app_nil_r|].
      destruct bpm as [bpm|]; [|exists []; now rewrite app_nil_r].
      destruct (anyVariantInRange minTempo maxTempo bpm);
        [|exists []; now rewrite app_nil_r].
      now eexists. }
    destruct Hstep as [l0 Hl0]. exists (l0 ++ l).
    split; [|discriminate]. now rewrite Hl, Hl0, app_assoc.
Qed.

(** X26.  The fallback on the saved tracks only appends to the selection:
    after the estimates of the primary phase that settle late, the tracks
    it adds are saved tracks, taken in the order of the saved list and
    tagged as saved tracks, whose id was not in the selection when the
    saved list was filtered.  So when no estimate settles late, a selection
    without repeated ids stays without repeated ids if the saved list has
    none.  The fallback does nothing when the primary phase selected no
    track at all, even if the saved tracks are included and hold matching
    tracks. *)
Theorem saved_tracks_fallback_adds_only_new_ids :
  forall (minTempo maxTempo : Q) (includeSaved : bool)
         (savedTempos : gmap string Q) (saved : list track)
         (whileLoading whileAnalysing : list (track * option Q)) (s : session),
    let s' := secondaryPhase minTempo maxTempo includeSaved savedTempos saved
                whileLoading whileAnalysing s in
    (selectedTracks s = [] -> s' = s) /\
    (exists late1 late2 kept added,
        sublist kept saved /\
        Forall (fun t => ~ In (track_id t)
                           (List.map (fun r => track_id (base r))
                              (selectedTracks s ++ late1)))
               kept /\
        selectedTracks s' = ((selectedTracks s ++ late1) ++ late2) ++ added /\
        List.map base added = List.map fromSavedTracks kept /\
        (whileLoading = [] -> late1 = []) /\
        (whileAnalysing = [] -> late2 = [])) /\
    (whileLoading = [] -> whileAnalysing = [] ->
     selectionWithoutRepeats s -> NoDup (List.map track_id saved) ->
     selectionWithoutRepeats s').
Proof.
  intros minTempo maxTempo includeSaved savedTempos saved whileLoading
    whileAnalysing s s'.
  assert (Hnone : exists late1 late2 kept added : list _,
             sublist kept saved /\
             Forall (fun t => ~ In (track_id t)
                       (List.map (fun r => track_id (base r))
                          (selectedTracks s ++ late1))) kept /\
             selectedTracks s = ((selectedTracks s ++ late1) ++ late2) ++ added /\
             List.map base added = List.map fromSavedTracks kept /\
             (whileLoading = [] -> late1 = []) /\
             (whileAnalysing = [] -> late2 = [])).
  { exists [], [], [], []. split; [apply sublist_nil_l|]. split; [constructor|].
    now rewrite !app_nil_r. }
  assert (Hadds : exists late1 late2 kept added,
             sublist kept saved /\
             Forall (fun t => ~ In (track_id t)
                       (List.map (fun r => track_id (base r))
                          (selectedTracks s ++ late1))) kept /\
             selectedTracks s' = ((selectedTracks s ++ late1) ++ late2) ++ added /\
             List.map base added = List.map fromSavedTracks kept /\
             (whileLoading = [] -> late1 = []) /\
             (whileAnalysing = [] -> late2 = [])).
  { subst s'. unfold secondaryPhase.
    destruct (negb (targetReached s) && (0 <? List.length (selectedTracks s))%nat);
      [|exact Hnone].
    destruct includeSaved; [|exact Hnone]. cbv zeta.
    destruct (settleLate_appends minTempo maxTempo whileLoading s)
      as (late1 & H1 & Hempty1).
    set (s0 := settleLate minTempo maxTempo s whileLoading) in *.
    destruct (settleLate_appends minTempo maxTempo whileAnalysing s0)
      as (late2 & H2 & Hempty2).
    set (s1 := settleLate minTempo maxTempo s0 whileAnalysing) in *.
    set (unique := List.filter _ saved).
    destruct (savedTracksLoop_adds minTempo maxTempo savedTempos unique s1)
      as (kept & added & Hsub & Hsel & Hbase).
    exists late1, late2, kept, added.
    split; [etransitivity; [exact Hsub | apply filter_sublist]|].
    split.
    - rewrite List.Forall_forall. intros t Ht.
      apply (sublist_In _ _ _ Hsub) in Ht. apply List.filter_In in Ht as [_ Ht].
      intros Hin. apply negb_true_iff, bool_decide_eq_false in Ht. apply Ht.
      apply elem_of_list_to_set. apply list_elem_of_In. now rewrite H1.
    - split; [now rewrite Hsel, H2, H1|]. now repeat split. }
  split; [|split; [exact Hadds|]].
  - intros Hempty. subst s'. unfold secondaryPhase. rewrite Hempty.
    cbn [List.length Nat.ltb Nat.leb]. now rewrite andb_false_r.
  - intros Hloading Hanalysing Hnd Hsaved.
    destruct Hadds as (late1 & late2 & kept & added & Hsub & Hnew & Hsel & Hbase
                       & Hempty1 & Hempty2).
    rewrite (Hempty1 Hloading) in *. rewrite (Hempty2 Hanalysing) in *.
    rewrite !app_nil_r in *.
    unfold selectionWithoutRepeats. rewrite Hsel, List.map_app.
    assert (Hids : List.map (fun r => track_id (base r)) added = List.map track_id kept).
    { rewrite <- (List.map_map base track_id), Hbase, List.map_map.
      apply List.map_ext. reflexivity. }
    rewrite Hids. apply NoDup_app. split; [exact Hnd|]. split.
    + intros x Hx Hkept. apply list_elem_of_In in Hx, Hkept.
      apply in_map_iff in Hkept as (t & <- & Ht).
      rewrite List.Forall_forall in Hnew. now apply (Hnew t Ht).
    + apply (sublist_NoDup _ (List.map track_id saved)); [exact Hsaved|].
      now apply sublist_map.
Qed.

(** X27.  The log of answers is bounded: after any sequence of calls of
    [addGeminiLog], from any log of at most 50 entries, the log holds the
    50 most recent entries, the newest first, and never more than 50. *)
Theorem gemini_log_keeps_the_fifty_most_recent_entries :
  forall (A : Type) (entries logs : list A),
    List.length logs <= 50 ->
    fold_left addGeminiLog entries logs = firstn 50 (rev entries ++ logs) /\
    List.length (fold_left addGeminiLog entries logs) <= 50.
Proof.
  intros A entries.
  assert (Hrun : forall logs : list A,
             List.length logs <= 50 ->
             fold_left addGeminiLog entries logs = firstn 50 (rev entries ++ logs)).
  { induction entries as [|e entries IH]; intros logs Hlen; cbn [fold_left rev].
    - cbn [app]. now rewrite List.firstn_all2.
    - rewrite IH.
      + rewrite <- app_assoc. cbn [app]. unfold addGeminiLog.
        destruct (Nat.le_gt_cases 50 (List.length (rev entries))) as [Hlong | Hshort].
        * rewrite !List.firstn_app.
          replace (50 - List.length (rev entries)) with 0 by lia.
          reflexivity.
        * rewrite !List.firstn_app.
          rewrite (List.firstn_all2 (n := 50) (rev entries)) by lia.
          f_equal.
          destruct (50 - List.length (rev entries)) as [|k] eqn:Ek; [lia|].
          cbn [firstn]. f_equal.
          rewrite List.firstn_firstn. f_equal. lia.
      + unfold addGeminiLog. cbn [List.length]. rewrite List.length_firstn. lia. }
  intros logs Hlen. split; [now apply Hrun|].
  rewrite Hrun by exact Hlen. rewrite List.length_firstn. lia.
Qed.

(** X27 on 60 entries written to the empty log. *)
Lemma gemini_log_witness :
  fold_left addGeminiLog (seq 0 60) [] = rev (seq 10 50).
Proof.
  rewrite (proj1 (gemini_log_keeps_the_fifty_most_recent_entries nat (seq 0 60) []
                    ltac:(cbn; lia))).
  reflexivity.
Defined.
